(** * SetTemplate: an ordered set on an AVL tree with an end sentinel

    Shallow embedding of [src/SetTemplate.h] and of its near-duplicate
    [src/unnamed/part_000] (same tree code with [left_son]/[right_son]
    for [left]/[right]; the iterator of the second file is split into
    helpers and guards its upward walks with [is_end]).

    Representation.  A C++ [node*] obtained by following the owning links
    [left]/[right] from [root_] is the sub-tree it points to ([nullptr] or
    [Node f l r]); the scalar fields of the struct are the record [fields],
    extended with [self], the address of the node.  The non-owning
    back-reference [parent], the member [end_] and the cursor [it_] of an
    iterator are addresses, dereferenced in the tree hanging from [root_]
    ([deref]); every assignment to a [parent] field of the source is an
    update of that field here.  Dereferencing a null or dangling pointer,
    which is undefined behaviour in the source, is [None].  [new] hands
    out the addresses [0], [1], [2], ... and never one twice.  Integers of
    type [size_t] are [Z] with the wrap-around modulo [2^64] written out;
    the [int] returned by [GetBalance] is the two's complement reading of
    the low 32 bits.  Loops that follow [left] or [right] are structural
    recursions; loops that follow [parent] take a bound [fuel] on the
    number of their tests and are [None] when it runs out. *)

From Stdlib Require Import ZArith List Bool Lia Arith.
Import ListNotations.

Local Open Scope Z_scope.

(** ** Keys: the template parameter [T] with its [operator<] *)

Class Key (T : Type) : Type := {
  less : T -> T -> bool;
  (** the value a default-initialised [T key;] holds (the sentinel's key) *)
  default_key : T;
  less_irrefl : forall a, less a a = false;
  less_trans : forall a b c, less a b = true -> less b c = true -> less a c = true;
  less_total : forall a b, less a b = false -> less b a = false -> a = b
}.

(** ** Machine integers *)

Definition wrap64 (x : Z) : Z := x mod 2 ^ 64.

(** conversion of a [size_t] to [int] *)
Definition to_int (x : Z) : Z :=
  let y := x mod 2 ^ 32 in if y <? 2 ^ 31 then y else y - 2 ^ 32.

(** ** The error monad of undefined behaviour *)

Definition bind {A B : Type} (m : option A) (f : A -> option B) : option B :=
  match m with Some a => f a | None => None end.

Notation "x <- m ;; k" := (bind m (fun x => k))
  (at level 61, m at next level, right associativity).

Definition addr := nat.
Definition ptr := option addr.

Definition ptr_eqb (p q : ptr) : bool :=
  match p, q with
  | Some a, Some b => Nat.eqb a b
  | None, None => true
  | _, _ => false
  end.

Section SetTemplate.

Context {T : Type} `{Key T}.

(** ** struct node *)

Record fields : Type := Fields {
  self : addr;
  key : T;
  height : Z;
  parent : ptr;
  is_end : bool
}.

Inductive node : Type :=
| nullptr
| Node (f : fields) (left right : node).

Definition with_height (f : fields) (h : Z) : fields :=
  Fields (self f) (key f) h (parent f) (is_end f).

Definition with_parent (f : fields) (p : ptr) : fields :=
  Fields (self f) (key f) (height f) p (is_end f).

(** [node(T k, node *par)] built at address [a] *)
Definition new_node (a : addr) (k : T) (par : ptr) : node :=
  Node (Fields a k 1 par false) nullptr nullptr.

(** [node(node *par)] built at address [a]: the key is left as it is *)
Definition new_end (a : addr) (par : ptr) : node :=
  Node (Fields a default_key 1 par true) nullptr nullptr.

(** address held by a pointer to the root of [v] *)
Definition addr_of (v : node) : ptr :=
  match v with
  | nullptr => None
  | Node f _ _ => Some (self f)
  end.

(** [if (v != nullptr) v->parent = p] *)
Definition set_parent (p : ptr) (v : node) : node :=
  match v with
  | nullptr => nullptr
  | Node f l r => Node (with_parent f p) l r
  end.

Definition GetHeight (v : node) : Z :=
  match v with
  | Node f _ _ => height f
  | nullptr => 0
  end.

Definition GetBalance (v : node) : Z :=
  match v with
  | Node _ l r => to_int (wrap64 (GetHeight l - GetHeight r))
  | nullptr => 0
  end.

Definition FixHeight (v : node) : node :=
  match v with
  | Node f l r =>
      Node (with_height f (wrap64 (Z.max (GetHeight l) (GetHeight r) + 1))) l r
  | nullptr => nullptr
  end.

Definition RightRotation (v : node) : option node :=
  match v with
  | Node fv (Node fq ql qr) vr =>
      let v' := FixHeight (Node (with_parent fv (Some (self fq)))
                                (set_parent (Some (self fv)) qr) vr) in
      Some (FixHeight (Node (with_parent fq (parent fv)) ql v'))
  | _ => None
  end.

Definition LeftRotation (v : node) : option node :=
  match v with
  | Node fv vl (Node fq ql qr) =>
      let v' := FixHeight (Node (with_parent fv (Some (self fq)))
                                vl (set_parent (Some (self fv)) ql)) in
      Some (FixHeight (Node (with_parent fq (parent fv)) v' qr))
  | _ => None
  end.

Definition FixBalance (v : node) : option node :=
  match FixHeight v with
  | nullptr => Some nullptr
  | Node f l r as v1 =>
      if GetBalance v1 =? -2 then
        r' <- (if GetBalance r >? 0 then RightRotation r else Some r) ;;
        LeftRotation (Node f l r')
      else if GetBalance v1 =? 2 then
        l' <- (if GetBalance l <? 0 then LeftRotation l else Some l) ;;
        RightRotation (Node f l' r)
      else Some v1
  end.

(** [fresh] is the address [new] returns *)
Fixpoint Insert (v : node) (k : T) (par : ptr) (fresh : addr) : option node :=
  match v with
  | nullptr => Some (new_node fresh k par)
  | Node f l r =>
      if is_end f || less k (key f) then
        l' <- Insert l k (Some (self f)) fresh ;;
        FixBalance (Node f l' r)
      else
        r' <- Insert r k (Some (self f)) fresh ;;
        FixBalance (Node f l r')
  end.

Fixpoint FindMin (v : node) : option node :=
  match v with
  | nullptr => None
  | Node _ nullptr _ => Some v
  | Node _ l _ => FindMin l
  end.

Fixpoint FindEnd (v : node) : option node :=
  match v with
  | nullptr => None
  | Node _ _ nullptr => Some v
  | Node _ _ r => FindEnd r
  end.

Fixpoint EraseMin (v : node) : option node :=
  match v with
  | nullptr => None
  | Node f nullptr r => Some (set_parent (parent f) r)
  | Node f l r =>
      l' <- EraseMin l ;;
      FixBalance (Node f l' r)
  end.

Fixpoint Erase (v : node) (k : T) : option node :=
  match v with
  | nullptr => Some nullptr
  | Node f l r =>
      if is_end f || less k (key f) then
        l' <- Erase l k ;;
        FixBalance (Node f l' r)
      else if less (key f) k then
        r' <- Erase r k ;;
        FixBalance (Node f l r')
      else
        match r with
        | nullptr => Some (set_parent (parent f) l)
        | Node _ _ _ =>
            minn <- FindMin r ;;
            r' <- EraseMin r ;;
            match minn with
            | nullptr => None
            | Node fm _ _ =>
                FixBalance (Node (with_parent fm (parent f))
                                 (set_parent (Some (self fm)) l)
                                 (set_parent (Some (self fm)) r'))
            end
        end
  end.

Fixpoint Find (v : node) (k : T) : node :=
  match v with
  | nullptr => nullptr
  | Node f l r =>
      if is_end f then
        match l with
        | Node fl _ _ =>
            if negb (less (key fl) k) && negb (less k (key fl)) then l
            else nullptr
        | nullptr => nullptr
        end
      else if less k (key f) then Find l k
      else if less (key f) k then Find r k
      else v
  end.

Fixpoint LowerBound (v : node) (par : ptr) (k : T) : ptr :=
  match v with
  | nullptr => par
  | Node f l r =>
      if is_end f then
        match l with
        | Node fl _ _ =>
            if negb (less (key fl) k) then addr_of l else addr_of v
        | nullptr => addr_of v
        end
      else if less k (key f) then LowerBound l (addr_of v) k
      else if less (key f) k then LowerBound r (addr_of v) k
      else addr_of v
  end.

(** ** Dereferencing an address in the tree of live nodes *)

Fixpoint deref (h : node) (a : addr) : node :=
  match h with
  | nullptr => nullptr
  | Node f l r =>
      if Nat.eqb (self f) a then h
      else match deref l a with
           | nullptr => deref r a
           | v => v
           end
  end.

(** [while (v->left != nullptr) v = v->left;] on a non-null [v] *)
Fixpoint GetLeftmost (v : node) : option node :=
  match v with
  | nullptr => None
  | Node _ nullptr _ => Some v
  | Node _ l _ => GetLeftmost l
  end.

Fixpoint GetRightmost (v : node) : option node :=
  match v with
  | nullptr => None
  | Node _ _ nullptr => Some v
  | Node _ _ r => GetRightmost r
  end.

(** The upward walks of the iterators: [while (C && v->parent != nullptr)
    v = v->parent;] where [C] is [!(t < v->key)] (greater) or
    [!(v->key < t)] (lesser), preceded by [!v->is_end] when [guard] is set.
    [fuel] bounds the number of tests of the loop condition. *)
Fixpoint climb_greater (guard : bool) (fuel : nat) (h : node) (v : ptr) (t : T)
  : option ptr :=
  match fuel with
  | O => None
  | S n =>
      a <- v ;;
      match deref h a with
      | nullptr => None
      | Node f _ _ =>
          if negb (guard && is_end f) && negb (less t (key f)) then
            match parent f with
            | Some p => climb_greater guard n h (Some p) t
            | None => Some v
            end
          else Some v
      end
  end.

Fixpoint climb_lesser (guard : bool) (fuel : nat) (h : node) (v : ptr) (t : T)
  : option ptr :=
  match fuel with
  | O => None
  | S n =>
      a <- v ;;
      match deref h a with
      | nullptr => None
      | Node f _ _ =>
          if negb (guard && is_end f) && negb (less (key f) t) then
            match parent f with
            | Some p => climb_lesser guard n h (Some p) t
            | None => Some v
            end
          else Some v
      end
  end.

(** The body of the increment operators; they differ only in the guard
    of the upward walk. *)
Definition increment (guard : bool) (fuel : nat) (h : node) (it : ptr) : option ptr :=
  a <- it ;;
  match deref h a with
  | nullptr => None
  | Node f _ r =>
      if is_end f then Some it
      else match r with
           | Node _ _ _ => v <- GetLeftmost r ;; Some (addr_of v)
           | nullptr => climb_greater guard fuel h it (key f)
           end
  end.

(** ** class Set: the members [root_], [size_], [end_]; [brk] is the next
    address the allocator hands out. *)

Record Set_ : Type := MkSet {
  root_ : node;
  size_ : Z;
  end_ : ptr;
  brk : addr
}.

(** [Set()] on a heap whose first free address is [a] *)
Definition empty_at (a : addr) : Set_ :=
  MkSet (new_end a None) 0 (Some a) (S a).

Definition empty : Set_ := empty_at 0%nat.

Definition insert (k : T) (s : Set_) : option Set_ :=
  match Find (root_ s) k with
  | nullptr =>
      r <- Insert (root_ s) k None (brk s) ;;
      Some (MkSet r (wrap64 (size_ s + 1)) (end_ s) (S (brk s)))
  | Node _ _ _ => Some s
  end.

Definition erase (k : T) (s : Set_) : option Set_ :=
  match Find (root_ s) k with
  | Node _ _ _ =>
      r <- Erase (root_ s) k ;;
      Some (MkSet r (wrap64 (size_ s - 1)) (end_ s) (brk s))
  | nullptr => Some s
  end.

Definition size (s : Set_) : Z := size_ s.

Definition find (k : T) (s : Set_) : ptr :=
  match Find (root_ s) k with
  | nullptr => end_ s
  | Node _ _ _ as v => addr_of v
  end.

Definition begin (s : Set_) : option ptr :=
  v <- FindMin (root_ s) ;; Some (addr_of v).

Definition end' (s : Set_) : ptr := end_ s.

(** [operator*] *)
Definition star (s : Set_) (it : ptr) : option T :=
  a <- it ;;
  match deref (root_ s) a with
  | nullptr => None
  | Node f _ _ => Some (key f)
  end.

(** [while (iter != e && *iter < k) ++iter;] of [lower_bound]; the result
    carries the number of increments executed. *)
Fixpoint sweep (fuel : nat) (s : Set_) (iter : ptr) (k : T) : option (ptr * nat) :=
  match fuel with
  | O => None
  | S n =>
      if ptr_eqb iter (end_ s) then Some (iter, O)
      else
        x <- star s iter ;;
        if less x k then
          iter' <- increment true fuel (root_ s) iter ;;
          r <- sweep n s iter' k ;;
          Some (fst r, S (snd r))
        else Some (iter, O)
  end.

Definition lower_bound_steps (fuel : nat) (s : Set_) (k : T) : option (ptr * nat) :=
  sweep fuel s (LowerBound (root_ s) None k) k.

Definition lower_bound (fuel : nat) (s : Set_) (k : T) : option ptr :=
  r <- lower_bound_steps fuel s k ;; Some (fst r).

(** [empty()] *)
Definition empty' (s : Set_) : bool := size_ s =? 0.

(** [std::for_each(beginit, endit, [this](const T &k) { insert(k); })] *)
Fixpoint insert_all (s : Set_) (ks : list T) : option Set_ :=
  match ks with
  | [] => Some s
  | k :: rest => s' <- insert k s ;; insert_all s' rest
  end.

(** [Set(Iterator beginit, Iterator endit)] and
    [Set(std::initializer_list<T> lst)] on the sequence [ks] *)
Definition from_range (ks : list T) : option Set_ := insert_all empty ks.

(** [CopyNode(v, par)] when the next free address is [a]: the copy and
    the next free address after it.  A copied node is built by a
    constructor of [node]: its height is 1; a copied sentinel gets no
    right child and a default-initialised key. *)
Fixpoint CopyNode (v : node) (par : ptr) (a : addr) : node * addr :=
  match v with
  | nullptr => (nullptr, a)
  | Node f l r =>
      if is_end f then
        let (l', a1) := CopyNode l (Some a) (S a) in
        (Node (Fields a default_key 1 par true) l' nullptr, a1)
      else
        let (l', a1) := CopyNode l (Some a) (S a) in
        let (r', a2) := CopyNode r (Some a) a1 in
        (Node (Fields a (key f) 1 par false) l' r', a2)
  end.

(** [Set(const Set &st)]; the nodes are allocated from [brk st] on *)
Definition copy (st : Set_) : option Set_ :=
  let (r, a) := CopyNode (root_ st) None (brk st) in
  e <- FindEnd r ;;
  Some (MkSet r (size_ st) (addr_of e) a).

End SetTemplate.

Arguments fields T : clear implicits.
Arguments node T : clear implicits.
Arguments Set_ T : clear implicits.

(** ** The iterator of [src/SetTemplate.h] *)

Module SetTemplate_h.
Section Iterator.
Context {T : Type} `{Key T}.

(** [operator++()]: the walk is guarded by [!it_->is_end] *)
Definition pre_incr (fuel : nat) (h : node T) (it : ptr) : option ptr :=
  increment true fuel h it.

(** [operator++(int)]: the same text without the guard *)
Definition post_incr (fuel : nat) (h : node T) (it : ptr) : option ptr :=
  increment false fuel h it.

(** [operator--()] and [operator--(int)] have the same body *)
Definition pre_decr (fuel : nat) (h : node T) (it : ptr) : option ptr :=
  a <- it ;;
  match deref h a with
  | nullptr => None
  | Node f l _ =>
      if is_end f then
        match l with
        | Node _ _ _ => Some (addr_of l)
        | nullptr => Some (parent f)
        end
      else
        match l with
        | Node _ _ _ => v <- GetRightmost l ;; Some (addr_of v)
        | nullptr =>
            match parent f with
            | None => Some it
            | Some p =>
                match deref h p with
                | nullptr => None
                | Node fp _ _ =>
                    if is_end fp then
                      match parent fp with
                      | None => Some it
                      | Some pp => climb_lesser false fuel h (Some pp) (key f)
                      end
                    else climb_lesser false fuel h it (key f)
                end
            end
        end
  end.

Definition post_decr (fuel : nat) (h : node T) (it : ptr) : option ptr :=
  pre_decr fuel h it.

End Iterator.
End SetTemplate_h.

(** ** The iterator of [src/unnamed/part_000] *)

Module Part_000.
Section Iterator.
Context {T : Type} `{Key T}.

Definition DecreaseEnd (v : node T) : option ptr :=
  match v with
  | nullptr => None
  | Node f (Node _ _ _ as l) _ => Some (addr_of l)
  | Node f nullptr _ => Some (parent f)
  end.

Definition HopEndParent (h : node T) (v : ptr) : option ptr :=
  a <- v ;;
  match deref h a with
  | nullptr => None
  | Node f _ _ =>
      p <- parent f ;;
      match deref h p with
      | nullptr => None
      | Node fp _ _ =>
          if is_end fp then
            match parent fp with
            | None => Some v
            | Some pp => Some (Some pp)
            end
          else Some v
      end
  end.

Definition GetGreaterParent (fuel : nat) (h : node T) (v : ptr) (t : T) : option ptr :=
  climb_greater true fuel h v t.

Definition GetLesserParent (fuel : nat) (h : node T) (v : ptr) (t : T) : option ptr :=
  climb_lesser true fuel h v t.

(** [operator++()] and [operator++(int)] have the same body *)
Definition pre_incr (fuel : nat) (h : node T) (it : ptr) : option ptr :=
  a <- it ;;
  match deref h a with
  | nullptr => None
  | Node f _ r =>
      if is_end f then Some it
      else match r with
           | Node _ _ _ => v <- GetLeftmost r ;; Some (addr_of v)
           | nullptr => GetGreaterParent fuel h it (key f)
           end
  end.

Definition post_incr (fuel : nat) (h : node T) (it : ptr) : option ptr :=
  pre_incr fuel h it.

(** [operator--()] and [operator--(int)] have the same body *)
Definition pre_decr (fuel : nat) (h : node T) (it : ptr) : option ptr :=
  a <- it ;;
  match deref h a with
  | nullptr => None
  | Node f l _ as v =>
      if is_end f then DecreaseEnd v
      else
        match l with
        | Node _ _ _ => v' <- GetRightmost l ;; Some (addr_of v')
        | nullptr =>
            match parent f with
            | None => Some it
            | Some _ =>
                v' <- HopEndParent h it ;;
                GetLesserParent fuel h v' (key f)
            end
        end
  end.

Definition post_decr (fuel : nat) (h : node T) (it : ptr) : option ptr :=
  pre_decr fuel h it.

End Iterator.
End Part_000.

(** ** Integer keys

    A key type ordered as the integers whose default-constructed value
    is [0]. *)

#[export] Instance Z_Key : Key Z.
Proof.
  refine {| less := Z.ltb; default_key := 0 |}.
  - intros a. apply Z.ltb_irrefl.
  - intros a b c Hab Hbc. apply Z.ltb_lt in Hab, Hbc. apply Z.ltb_lt. lia.
  - intros a b Hab Hba. apply Z.ltb_ge in Hab, Hba. lia.
Defined.

(** ** Sequences of public operations *)

Inductive op (T : Type) : Type :=
| OpInsert (k : T)
| OpErase (k : T).
Arguments OpInsert {T} k.
Arguments OpErase {T} k.

Section Run.
Context {T : Type} `{Key T}.

Definition step (s : Set_ T) (o : op T) : option (Set_ T) :=
  match o with
  | OpInsert k => insert k s
  | OpErase k => erase k s
  end.

Fixpoint run_from (s : Set_ T) (ops : list (op T)) : option (Set_ T) :=
  match ops with
  | [] => Some s
  | o :: rest => s' <- step s o ;; run_from s' rest
  end.

Definition run (ops : list (op T)) : option (Set_ T) := run_from empty ops.

End Run.

(** * Specification vocabulary *)

Section Vocabulary.
Context {T : Type} `{Key T}.

(** ** Traversal *)

Fixpoint inorder (v : node T) : list (fields T) :=
  match v with
  | nullptr => []
  | Node f l r => inorder l ++ f :: inorder r
  end.

(** what an operation never changes in a node: address, flag and key *)
Definition tag (f : fields T) : addr * bool * T := (self f, is_end f, key f).

Definition t_addr (x : addr * bool * T) : addr := fst (fst x).
Definition t_end (x : addr * bool * T) : bool := snd (fst x).
Definition t_key (x : addr * bool * T) : T := snd x.

(** the in-order sequence of the nodes *)
Definition walk (v : node T) : list (addr * bool * T) := map tag (inorder v).

(** number of nodes, sentinel included *)
Definition count (v : node T) : Z := Z.of_nat (length (inorder v)).

(** the addresses of the live nodes *)
Definition addrs (v : node T) : list addr := map t_addr (walk v).

(** the node count is representable in a [size_t] *)
Definition fits (v : node T) : Prop := count v < 2 ^ 64.

(** [has v t]: the node [t] is [v] or lies below it *)
Fixpoint has (v t : node T) : Prop :=
  match v with
  | nullptr => False
  | Node f l r => t = v \/ has l t \/ has r t
  end.

(** structural height: a bound on the length of any upward walk *)
Fixpoint depth (v : node T) : nat :=
  match v with
  | nullptr => O
  | Node _ l r => S (Nat.max (depth l) (depth r))
  end.

Fixpoint right_spine (v : node T) : nat :=
  match v with
  | nullptr => O
  | Node _ _ r => S (right_spine r)
  end.

(** the nodes met by following [left] from the root of [v] *)
Fixpoint left_spine (v : node T) : list (fields T) :=
  match v with
  | nullptr => []
  | Node f l _ => f :: left_spine l
  end.

(** ** Cached heights and the AVL condition *)

Fixpoint avl (v : node T) : Prop :=
  match v with
  | nullptr => True
  | Node f l r =>
      height f = 1 + Z.max (GetHeight l) (GetHeight r) /\
      Z.abs (GetHeight l - GetHeight r) <= 1 /\
      avl l /\ avl r
  end.

(** ** Parent links mirror the structure *)

Fixpoint parents_ok (p : ptr) (v : node T) : Prop :=
  match v with
  | nullptr => True
  | Node f l r =>
      parent f = p /\ parents_ok (Some (self f)) l /\ parents_ok (Some (self f)) r
  end.

(** ** Search-tree order: a sentinel is after every key *)

(** the test [v->is_end || k < v->key] of [Insert] and [Erase] *)
Definition goes_left (k : T) (y : addr * bool * T) : bool :=
  t_end y || less k (t_key y).

Definition before (x y : addr * bool * T) : bool :=
  negb (t_end x) && (t_end y || less (t_key x) (t_key y)).

Fixpoint ordered (xs : list (addr * bool * T)) : Prop :=
  match xs with
  | [] => True
  | x :: rest => (forall y, In y rest -> before x y = true) /\ ordered rest
  end.

(** insertion in the sequence, at the place the descent of [Insert] finds *)
Fixpoint ins (x : addr * bool * T) (ys : list (addr * bool * T)) :=
  match ys with
  | [] => [x]
  | y :: rest => if goes_left (t_key x) y then x :: y :: rest else y :: ins x rest
  end.

(** removal from the sequence of the node [Erase] deletes *)
Definition keeps (k : T) (y : addr * bool * T) : bool :=
  t_end y || less k (t_key y) || less (t_key y) k.

Definition del (k : T) (ys : list (addr * bool * T)) := filter (keeps k) ys.

(** the keys of a sequence of nodes: the sentinel holds none *)
Definition keys_of (xs : list (addr * bool * T)) : list T :=
  map t_key (filter (fun x => negb (t_end x)) xs).

(** ** The invariant of a set *)

(** the keys of the set, in traversal order *)
Definition elements (s : Set_ T) : list T := keys_of (walk (root_ s)).

Record Inv (s : Set_ T) : Prop := {
  inv_avl : avl (root_ s);
  inv_ord : ordered (walk (root_ s));
  inv_par : parents_ok None (root_ s);
  inv_nodup : NoDup (addrs (root_ s));
  inv_brk : forall a, In a (addrs (root_ s)) -> (a < brk s)%nat;
  inv_end : exists aS kS, end_ s = Some aS /\ In (aS, true, kS) (walk (root_ s));
  inv_size : size_ s = Z.of_nat (length (elements s));
  inv_fits : fits (root_ s)
}.

(** membership as [insert] and [erase] test it *)
Definition contains (k : T) (s : Set_ T) : bool :=
  match Find (root_ s) k with
  | nullptr => false
  | Node _ _ _ => true
  end.

Definition root_is_end (s : Set_ T) : bool :=
  match root_ s with
  | Node f _ _ => is_end f
  | nullptr => false
  end.

(** An operation count that the [size_t] counters and the node count
    survive: one more insertion still does not wrap. *)
Definition max_ops : Z := 2 ^ 64 - 2.

(** ** Cursors *)

(** [n] applications of the prefix increment of [SetTemplate.h] *)
Fixpoint advance (fuel n : nat) (h : node T) (it : ptr) : option ptr :=
  match n with
  | O => Some it
  | S m => it' <- SetTemplate_h.pre_incr fuel h it ;; advance fuel m h it'
  end.

(** a node at which the search for the first key not less than [k] stops *)
Definition stop (k : T) (x : addr * bool * T) : bool :=
  t_end x || negb (less (t_key x) k).

(** index of the first such node *)
Fixpoint lbpos (k : T) (xs : list (addr * bool * T)) : nat :=
  match xs with
  | [] => O
  | x :: rest => if stop k x then O else S (lbpos k rest)
  end.

(** ** The set as a set of keys *)

(** equality of keys as the source derives it from [operator<] *)
Definition same_key (a b : T) : bool := negb (less a b) && negb (less b a).

(** whether [x] is in the set after the operations [ops], when it was
    ([true]) or was not ([false]) in it before: the last operation on
    [x] decides *)
Fixpoint present_after (ops : list (op T)) (before_ops : bool) (x : T) : bool :=
  match ops with
  | [] => before_ops
  | OpInsert k :: rest =>
      present_after rest (if same_key k x then true else before_ops) x
  | OpErase k :: rest =>
      present_after rest (if same_key k x then false else before_ops) x
  end.

(** what a deep copy keeps of a node: its key, or that it is the
    sentinel *)
Definition t_val (x : addr * bool * T) : option T :=
  if t_end x then None else Some (t_key x).

End Vocabulary.

(** the operations insert 5, insert 3, insert 8, insert 1, insert 4,
    erase 3 on integer keys *)
Definition sample_ops : list (op Z) :=
  [OpInsert 5; OpInsert 3; OpInsert 8; OpInsert 1; OpInsert 4; OpErase 3].

(** a sequence with a repeated element, for the range constructors *)
Definition sample_keys : list Z := [5; 3; 8; 3; 1].

(** a node whose left sub-tree is two higher than its right one, and
    leans to the right: [FixBalance] rotates twice *)
Definition sample_left : node Z :=
  Node (Fields 1%nat 2 2 (Some 0%nat) false) nullptr
       (Node (Fields 2%nat 3 1 (Some 1%nat) false) nullptr nullptr).

Definition sample_top : fields Z := Fields 0%nat 5 1 None false.

(** the set built from the sequence [ks], copied by the copy constructor,
    and the operations [ops] applied to the copy *)
Definition copy_then {T : Type} `{Key T} (ks : list T) (ops : list (op T))
  : option (Set_ T) :=
  s0 <- from_range ks ;; c <- copy s0 ;; run_from c ops.

(** * Verification *)

(** ** Machine arithmetic on small values *)

Lemma wrap64_small (x : Z) : 0 <= x < 2 ^ 64 -> wrap64 x = x.
Proof. intros Hx. unfold wrap64. apply Z.mod_small. exact Hx. Qed.

Lemma to_int_wrap64_diff (a b : Z) :
  0 <= a < 2 ^ 30 -> 0 <= b < 2 ^ 30 -> to_int (wrap64 (a - b)) = a - b.
Proof.
  intros Ha Hb. unfold to_int, wrap64.
  change (2 ^ 64) with 18446744073709551616.
  change (2 ^ 32) with 4294967296.
  change (2 ^ 31) with 2147483648.
  change (2 ^ 30) with 1073741824 in Ha, Hb.
  destruct (Z.ltb_spec (((a - b) mod 18446744073709551616) mod 4294967296) 2147483648);
    Z.div_mod_to_equations; lia.
Qed.

Section Invariants.
Context {T : Type} `{Key T}.

Implicit Types (v l r : node T) (f : fields T) (k : T) (p : ptr) (a : addr).
Implicit Types (xs ys zs : list (addr * bool * T)).

(** ** In-order traversal *)

Lemma walk_Node f l r : walk (Node f l r) = walk l ++ tag f :: walk r.
Proof. unfold walk. simpl. rewrite map_app. reflexivity. Qed.

Lemma count_Node f l r : count (Node f l r) = count l + 1 + count r.
Proof. unfold count. simpl. rewrite length_app. simpl. lia. Qed.

Lemma count_nonneg v : 0 <= count v.
Proof. unfold count. lia. Qed.

Lemma count_walk v : count v = Z.of_nat (length (walk v)).
Proof. unfold count, walk. rewrite length_map. reflexivity. Qed.

Lemma walk_set_parent p v : walk (set_parent p v) = walk v.
Proof.
  destruct v as [|f l r]; [reflexivity|].
  unfold walk. simpl. rewrite !map_app. reflexivity.
Qed.

Lemma GetHeight_set_parent p v : GetHeight (set_parent p v) = GetHeight v.
Proof. destruct v; reflexivity. Qed.

(** ** Cached heights and the AVL condition *)

Lemma avl_set_parent p v : avl (set_parent p v) <-> avl v.
Proof. destruct v; simpl; tauto. Qed.

Lemma avl_height_nonneg v : avl v -> 0 <= GetHeight v.
Proof.
  induction v as [|f l IHl r IHr]; cbn [avl GetHeight]; [lia|].
  intros (Hh & _ & Hl & Hr). specialize (IHl Hl). specialize (IHr Hr). lia.
Qed.

Lemma avl_height_pos f l r : avl (Node f l r) -> 1 <= height f.
Proof.
  cbn [avl]. intros (Hh & _ & Hl & Hr).
  apply avl_height_nonneg in Hl, Hr. lia.
Qed.

Lemma avl_height_zero v : avl v -> GetHeight v = 0 -> v = nullptr.
Proof.
  destruct v as [|f l r]; [reflexivity|]. intros Ha Hz.
  apply avl_height_pos in Ha. simpl in Hz. lia.
Qed.

(** an AVL tree of height [h] has at least [2^(h/2) - 1] nodes *)
Lemma avl_count_lower v :
  avl v -> forall h, 0 <= h <= GetHeight v -> 2 ^ (h / 2) <= count v + 1.
Proof.
  induction v as [|f l IHl r IHr]; intros Ha h Hh.
  - simpl in Hh. assert (h = 0) by lia. subst h. cbn. lia.
  - cbn [avl] in Ha. destruct Ha as (Hf & Hb & Hl & Hr).
    cbn [GetHeight] in Hh. rewrite count_Node.
    pose proof (count_nonneg l). pose proof (count_nonneg r).
    destruct (Z_lt_le_dec h 2) as [Hlt|Hge].
    + assert (h / 2 = 0) as -> by (apply Z.div_small; lia). cbn. lia.
    + pose proof (avl_height_nonneg _ Hl). pose proof (avl_height_nonneg _ Hr).
      assert (Hh2 : h / 2 = (h - 2) / 2 + 1).
      { replace h with ((h - 2) + 1 * 2) at 1 by lia.
        rewrite Z.div_add by lia. reflexivity. }
      assert (0 <= (h - 2) / 2) by (apply Z.div_pos; lia).
      rewrite Hh2, Z.pow_add_r by lia.
      specialize (IHl Hl (h - 2)). specialize (IHr Hr (h - 2)).
      change (2 ^ 1) with 2. lia.
Qed.

Lemma avl_height_bound v : avl v -> fits v -> 0 <= GetHeight v < 130.
Proof.
  intros Ha Hc. split; [apply avl_height_nonneg; exact Ha|].
  destruct (Z_lt_le_dec (GetHeight v) 130) as [Hlt|Hge]; [exact Hlt|].
  pose proof (avl_count_lower v Ha 130 ltac:(lia)) as Hp.
  unfold fits in Hc.
  change (130 / 2) with 65 in Hp.
  assert (2 ^ 64 < 2 ^ 65) by (apply Z.pow_lt_mono_r; lia). lia.
Qed.

(** ** Rebalancing *)

Lemma GetBalance_small f l r :
  0 <= GetHeight l < 2 ^ 30 -> 0 <= GetHeight r < 2 ^ 30 ->
  GetBalance (Node f l r) = GetHeight l - GetHeight r.
Proof. intros Hl Hr. cbn [GetBalance]. apply to_int_wrap64_diff; assumption. Qed.

Lemma FixHeight_small f l r :
  0 <= GetHeight l < 2 ^ 30 -> 0 <= GetHeight r < 2 ^ 30 ->
  FixHeight (Node f l r) =
  Node (with_height f (1 + Z.max (GetHeight l) (GetHeight r))) l r.
Proof.
  intros Hl Hr. cbn [FixHeight]. rewrite wrap64_small.
  - f_equal. f_equal. lia.
  - assert (2 ^ 30 < 2 ^ 64) by (apply Z.pow_lt_mono_r; lia). lia.
Qed.

Lemma RightRotation_small (fv fq : fields T) (ql qr vr : node T) :
  0 <= GetHeight ql < 2 ^ 29 -> 0 <= GetHeight qr < 2 ^ 29 ->
  0 <= GetHeight vr < 2 ^ 29 ->
  RightRotation (Node fv (Node fq ql qr) vr) =
  Some (Node (with_height (with_parent fq (parent fv))
                (1 + Z.max (GetHeight ql) (1 + Z.max (GetHeight qr) (GetHeight vr))))
             ql
             (Node (with_height (with_parent fv (Some (self fq)))
                      (1 + Z.max (GetHeight qr) (GetHeight vr)))
                   (set_parent (Some (self fv)) qr) vr)).
Proof.
  intros Hql Hqr Hvr. change (2 ^ 29) with 536870912 in *.
  cbn [RightRotation].
  rewrite (FixHeight_small _ (set_parent (Some (self fv)) qr) vr);
    rewrite ?GetHeight_set_parent; change (2 ^ 30) with 1073741824; try lia.
  rewrite FixHeight_small; cbn [GetHeight with_height height];
    change (2 ^ 30) with 1073741824; try lia.
  reflexivity.
Qed.

Lemma LeftRotation_small (fv fq : fields T) (vl ql qr : node T) :
  0 <= GetHeight vl < 2 ^ 29 -> 0 <= GetHeight ql < 2 ^ 29 ->
  0 <= GetHeight qr < 2 ^ 29 ->
  LeftRotation (Node fv vl (Node fq ql qr)) =
  Some (Node (with_height (with_parent fq (parent fv))
                (1 + Z.max (1 + Z.max (GetHeight vl) (GetHeight ql)) (GetHeight qr)))
             (Node (with_height (with_parent fv (Some (self fq)))
                      (1 + Z.max (GetHeight vl) (GetHeight ql)))
                   vl (set_parent (Some (self fv)) ql))
             qr).
Proof.
  intros Hvl Hql Hqr. change (2 ^ 29) with 536870912 in *.
  cbn [LeftRotation].
  rewrite (FixHeight_small _ vl (set_parent (Some (self fv)) ql));
    rewrite ?GetHeight_set_parent; change (2 ^ 30) with 1073741824; try lia.
  rewrite FixHeight_small; cbn [GetHeight with_height height];
    change (2 ^ 30) with 1073741824; try lia.
  reflexivity.
Qed.

(** [FixBalance] on a node whose sub-trees are AVL trees with heights at
    most 2 apart: it returns, and the result is an AVL tree. *)
Lemma FixBalance_avl f l r :
  avl l -> avl r ->
  Z.abs (GetHeight l - GetHeight r) <= 2 ->
  GetHeight l < 2 ^ 28 -> GetHeight r < 2 ^ 28 ->
  exists v',
    FixBalance (Node f l r) = Some v' /\ avl v' /\
    Z.max (GetHeight l) (GetHeight r) <= GetHeight v'
      <= 1 + Z.max (GetHeight l) (GetHeight r) /\
    (Z.abs (GetHeight l - GetHeight r) <= 1 ->
     v' = Node (with_height f (1 + Z.max (GetHeight l) (GetHeight r))) l r).
Proof.
  intros Hl Hr Hd Bl Br.
  pose proof (avl_height_nonneg _ Hl) as Nl.
  pose proof (avl_height_nonneg _ Hr) as Nr.
  change (2 ^ 28) with 268435456 in *.
  unfold FixBalance.
  rewrite FixHeight_small by (change (2 ^ 30) with 1073741824; lia).
  rewrite GetBalance_small by (change (2 ^ 30) with 1073741824; lia).
  destruct (Z.eqb_spec (GetHeight l - GetHeight r) (-2)) as [E1|E1].
  - (* right-heavy *)
    destruct r as [|fr rl rr]; [cbn [GetHeight] in *; lia|].
    cbn [avl] in Hr. destruct Hr as (Hfr & Hbr & Hrl & Hrr).
    pose proof (avl_height_nonneg _ Hrl) as Nrl.
    pose proof (avl_height_nonneg _ Hrr) as Nrr.
    cbn [GetHeight] in *.
    rewrite GetBalance_small by (change (2 ^ 30) with 1073741824; lia).
    destruct (Z.gtb_spec (GetHeight rl - GetHeight rr) 0) as [E2|E2].
    + destruct rl as [|frl a b]; [cbn [GetHeight] in *; lia|].
      cbn [avl] in Hrl. destruct Hrl as (Hfrl & Hbrl & Ha & Hb).
      pose proof (avl_height_nonneg _ Ha) as Na.
      pose proof (avl_height_nonneg _ Hb) as Nb.
      cbn [GetHeight] in *.
      rewrite RightRotation_small by (change (2 ^ 29) with 536870912; lia).
      cbn [bind].
      rewrite LeftRotation_small
        by (change (2 ^ 29) with 536870912; cbn [GetHeight with_height height];
            rewrite ?GetHeight_set_parent; lia).
      eexists. split; [reflexivity|].
      cbn [avl GetHeight with_height with_parent height].
      rewrite ?GetHeight_set_parent, ?avl_set_parent.
      repeat split; try assumption; try lia.
    + cbn [bind].
      rewrite LeftRotation_small by (change (2 ^ 29) with 536870912; lia).
      eexists. split; [reflexivity|].
      cbn [avl GetHeight with_height with_parent height].
      rewrite ?GetHeight_set_parent, ?avl_set_parent.
      repeat split; try assumption; try lia.
  - destruct (Z.eqb_spec (GetHeight l - GetHeight r) 2) as [E3|E3].
    + (* left-heavy *)
      destruct l as [|fl ll lr]; [cbn [GetHeight] in *; lia|].
      cbn [avl] in Hl. destruct Hl as (Hfl & Hbl & Hll & Hlr).
      pose proof (avl_height_nonneg _ Hll) as Nll.
      pose proof (avl_height_nonneg _ Hlr) as Nlr.
      cbn [GetHeight] in *.
      rewrite GetBalance_small by (change (2 ^ 30) with 1073741824; lia).
      destruct (Z.ltb_spec (GetHeight ll - GetHeight lr) 0) as [E4|E4].
      * destruct lr as [|flr a b]; [cbn [GetHeight] in *; lia|].
        cbn [avl] in Hlr. destruct Hlr as (Hflr & Hblr & Ha & Hb).
        pose proof (avl_height_nonneg _ Ha) as Na.
        pose proof (avl_height_nonneg _ Hb) as Nb.
        cbn [GetHeight] in *.
        rewrite LeftRotation_small by (change (2 ^ 29) with 536870912; lia).
        cbn [bind].
        rewrite RightRotation_small
          by (change (2 ^ 29) with 536870912; cbn [GetHeight with_height height];
              rewrite ?GetHeight_set_parent; lia).
        eexists. split; [reflexivity|].
        cbn [avl GetHeight with_height with_parent height].
        rewrite ?GetHeight_set_parent, ?avl_set_parent.
        repeat split; try assumption; try lia.
      * cbn [bind].
        rewrite RightRotation_small by (change (2 ^ 29) with 536870912; lia).
        eexists. split; [reflexivity|].
        cbn [avl GetHeight with_height with_parent height].
        rewrite ?GetHeight_set_parent, ?avl_set_parent.
        repeat split; try assumption; try lia.
    + eexists. split; [reflexivity|].
      cbn [avl GetHeight with_height height].
      repeat split; try assumption; try lia.
Qed.

(** rebalancing keeps the in-order sequence of nodes *)

Lemma RightRotation_walk v v' : RightRotation v = Some v' -> walk v' = walk v.
Proof.
  destruct v as [|fv [|fq ql qr] vr]; cbn [RightRotation]; intros E;
    try discriminate.
  injection E as <-.
  rewrite !walk_Node, walk_set_parent, <- app_assoc. reflexivity.
Qed.

Lemma LeftRotation_walk v v' : LeftRotation v = Some v' -> walk v' = walk v.
Proof.
  destruct v as [|fv vl [|fq ql qr]]; cbn [LeftRotation]; intros E;
    try discriminate.
  injection E as <-.
  rewrite !walk_Node, walk_set_parent, <- app_assoc. reflexivity.
Qed.

Lemma FixBalance_walk v v' : FixBalance v = Some v' -> walk v' = walk v.
Proof.
  destruct v as [|f l r]; [intros [= <-]; reflexivity|].
  unfold FixBalance. cbn [FixHeight].
  destruct (GetBalance _ =? -2).
  - destruct (GetBalance r >? 0); cbn [bind].
    + destruct (RightRotation r) as [r'|] eqn:Er; cbn [bind]; [|discriminate].
      intros E. apply LeftRotation_walk in E. apply RightRotation_walk in Er.
      rewrite E, !walk_Node, Er. reflexivity.
    + intros E. apply LeftRotation_walk in E.
      rewrite E, !walk_Node. reflexivity.
  - destruct (GetBalance _ =? 2).
    + destruct (GetBalance l <? 0); cbn [bind].
      * destruct (LeftRotation l) as [l'|] eqn:El; cbn [bind]; [|discriminate].
        intros E. apply RightRotation_walk in E. apply LeftRotation_walk in El.
        rewrite E, !walk_Node, El. reflexivity.
      * intros E. apply RightRotation_walk in E.
        rewrite E, !walk_Node. reflexivity.
    + intros [= <-]. rewrite !walk_Node. reflexivity.
Qed.

(** ** Parent links mirror the structure *)

Lemma parents_ok_set_parent p q v : parents_ok q v -> parents_ok p (set_parent p v).
Proof. destruct v as [|f l r]; cbn; [trivial|]. intros (_ & Hl & Hr). auto. Qed.

Lemma RightRotation_parents p v v' :
  parents_ok p v -> RightRotation v = Some v' -> parents_ok p v'.
Proof.
  destruct v as [|fv [|fq ql qr] vr]; cbn [RightRotation]; intros Hp E;
    try discriminate.
  injection E as <-.
  cbn [parents_ok] in Hp. destruct Hp as (Hv & (Hq & Hql & Hqr) & Hvr).
  cbn. repeat split; auto.
  eapply parents_ok_set_parent; eassumption.
Qed.

Lemma LeftRotation_parents p v v' :
  parents_ok p v -> LeftRotation v = Some v' -> parents_ok p v'.
Proof.
  destruct v as [|fv vl [|fq ql qr]]; cbn [LeftRotation]; intros Hp E;
    try discriminate.
  injection E as <-.
  cbn [parents_ok] in Hp. destruct Hp as (Hv & Hvl & (Hq & Hql & Hqr)).
  cbn. repeat split; auto.
  eapply parents_ok_set_parent; eassumption.
Qed.

Lemma FixBalance_parents p v v' :
  parents_ok p v -> FixBalance v = Some v' -> parents_ok p v'.
Proof.
  destruct v as [|f l r]; [intros _ [= <-]; exact I|].
  unfold FixBalance. cbn [FixHeight].
  intros (Hp & Hl & Hr).
  destruct (GetBalance _ =? -2).
  - destruct (GetBalance r >? 0); cbn [bind].
    + destruct (RightRotation r) as [r'|] eqn:Er; cbn [bind]; [|discriminate].
      apply LeftRotation_parents. cbn. repeat split; auto.
      apply (RightRotation_parents _ r); assumption.
    + apply LeftRotation_parents. cbn. auto.
  - destruct (GetBalance _ =? 2).
    + destruct (GetBalance l <? 0); cbn [bind].
      * destruct (LeftRotation l) as [l'|] eqn:El; cbn [bind]; [|discriminate].
        apply RightRotation_parents. cbn. repeat split; auto.
        apply (LeftRotation_parents _ l); assumption.
      * apply RightRotation_parents. cbn. auto.
    + intros [= <-]. cbn. auto.
Qed.

Lemma FixBalance_count v v' : FixBalance v = Some v' -> count v' = count v.
Proof. intros E. rewrite !count_walk, (FixBalance_walk _ _ E). reflexivity. Qed.

Lemma count_set_parent p v : count (set_parent p v) = count v.
Proof. rewrite !count_walk, walk_set_parent. reflexivity. Qed.

Lemma fits_height v : avl v -> fits v -> 0 <= GetHeight v < 2 ^ 28.
Proof.
  intros Ha Hf. pose proof (avl_height_bound v Ha Hf).
  change (2 ^ 28) with 268435456. lia.
Qed.

(** ** The recursive mutators return and keep the AVL condition *)

(** one step of the way back to the root: [FixBalance] on a node whose
    sub-trees are AVL trees with heights at most 2 apart *)
Lemma FixBalance_step f l r :
  avl l -> avl r -> fits l -> fits r ->
  Z.abs (GetHeight l - GetHeight r) <= 2 ->
  exists v',
    FixBalance (Node f l r) = Some v' /\ avl v' /\
    count v' = count l + 1 + count r /\
    Z.max (GetHeight l) (GetHeight r) <= GetHeight v'
      <= 1 + Z.max (GetHeight l) (GetHeight r) /\
    (Z.abs (GetHeight l - GetHeight r) <= 1 ->
     GetHeight v' = 1 + Z.max (GetHeight l) (GetHeight r)).
Proof.
  intros Al Ar Fl Fr Hd.
  pose proof (fits_height l Al Fl). pose proof (fits_height r Ar Fr).
  destruct (FixBalance_avl f l r Al Ar Hd ltac:(lia) ltac:(lia))
    as (v' & Ev & Av & Hv & Hsame).
  exists v'. split; [exact Ev|]. split; [exact Av|].
  split; [rewrite (FixBalance_count _ _ Ev); apply count_Node|].
  split; [exact Hv|]. intros Hs. rewrite (Hsame Hs). reflexivity.
Qed.

(** closes the height bounds of a rebalanced node: by cases on whether a
    rotation took place *)
Ltac height_cases l r Hsame :=
  destruct (Z_le_gt_dec (Z.abs (GetHeight l - GetHeight r)) 1) as [Hs|Hs];
  [specialize (Hsame Hs)|]; cbn [GetHeight] in *; lia.

Lemma Insert_avl v k par a :
  avl v -> count v + 1 < 2 ^ 64 ->
  exists v',
    Insert v k par a = Some v' /\ avl v' /\
    GetHeight v <= GetHeight v' <= GetHeight v + 1 /\
    count v' = count v + 1.
Proof.
  revert par. induction v as [|f l IHl r IHr]; intros par Ha Hc.
  - eexists. split; [reflexivity|]. cbn. repeat split; lia.
  - cbn [avl] in Ha. destruct Ha as (Hf & Hb & Hl & Hr).
    rewrite count_Node in *.
    pose proof (count_nonneg l). pose proof (count_nonneg r).
    cbn [Insert].
    destruct (is_end f || less k (key f)).
    + destruct (IHl (Some (self f)) Hl ltac:(lia)) as (l' & El & Al & Hh & Cl).
      rewrite El. cbn [bind].
      destruct (FixBalance_step f l' r Al Hr ltac:(unfold fits; lia)
                  ltac:(unfold fits; lia) ltac:(lia))
        as (v' & Ev & Av & Cv & Hv & Hsame).
      exists v'. split; [exact Ev|]. split; [exact Av|].
      split; [height_cases l' r Hsame|lia].
    + destruct (IHr (Some (self f)) Hr ltac:(lia)) as (r' & Er & Ar & Hh & Cr).
      rewrite Er. cbn [bind].
      destruct (FixBalance_step f l r' Hl Ar ltac:(unfold fits; lia)
                  ltac:(unfold fits; lia) ltac:(lia))
        as (v' & Ev & Av & Cv & Hv & Hsame).
      exists v'. split; [exact Ev|]. split; [exact Av|].
      split; [height_cases l r' Hsame|lia].
Qed.

Lemma FindMin_Node f l r :
  exists fm mr, FindMin (Node f l r) = Some (Node fm nullptr mr).
Proof.
  revert f r. induction l as [|fl ll IHll lr _]; intros f r.
  - exists f, r. reflexivity.
  - destruct (IHll fl lr) as (fm & mr & E). exists fm, mr. exact E.
Qed.

Lemma EraseMin_avl v :
  v <> nullptr -> avl v -> fits v ->
  exists v',
    EraseMin v = Some v' /\ avl v' /\
    GetHeight v - 1 <= GetHeight v' <= GetHeight v /\
    count v' = count v - 1.
Proof.
  induction v as [|f l IHl r _]; intros Hn Ha Hc; [congruence|].
  cbn [avl] in Ha. destruct Ha as (Hf & Hb & Hl & Hr).
  unfold fits in Hc. rewrite count_Node in *.
  pose proof (count_nonneg l). pose proof (count_nonneg r).
  pose proof (avl_height_nonneg _ Hr).
  destruct l as [|fl ll lr].
  - cbn [EraseMin]. eexists. split; [reflexivity|].
    rewrite avl_set_parent, GetHeight_set_parent, count_set_parent.
    cbn [GetHeight] in *. change (count nullptr) with 0.
    repeat split; try assumption; lia.
  - destruct (IHl ltac:(discriminate) Hl ltac:(unfold fits; lia))
      as (l' & El & Al & Hh & Cl).
    cbn [EraseMin]. cbn [EraseMin] in El. rewrite El. cbn [bind].
    destruct (FixBalance_step f l' r Al Hr ltac:(unfold fits; lia)
                ltac:(unfold fits; lia) ltac:(lia))
      as (v' & Ev & Av & Cv & Hv & Hsame).
    exists v'. split; [exact Ev|]. split; [exact Av|].
    split; [height_cases l' r Hsame|lia].
Qed.

Lemma Erase_avl v k :
  avl v -> fits v ->
  exists v',
    Erase v k = Some v' /\ avl v' /\
    GetHeight v - 1 <= GetHeight v' <= GetHeight v /\
    count v' <= count v.
Proof.
  induction v as [|f l IHl r IHr]; intros Ha Hc.
  - exists nullptr. cbn. repeat split; lia.
  - cbn [avl] in Ha. destruct Ha as (Hf & Hb & Hl & Hr).
    unfold fits in Hc. rewrite count_Node in *.
    pose proof (count_nonneg l). pose proof (count_nonneg r).
    pose proof (avl_height_nonneg _ Hl). pose proof (avl_height_nonneg _ Hr).
    cbn [Erase].
    destruct (is_end f || less k (key f)); [|destruct (less (key f) k)].
    + destruct (IHl Hl ltac:(unfold fits; lia)) as (l' & El & Al & Hh & Cl).
      rewrite El. cbn [bind].
      destruct (FixBalance_step f l' r Al Hr ltac:(unfold fits; lia)
                  ltac:(unfold fits; lia) ltac:(lia))
        as (v' & Ev & Av & Cv & Hv & Hsame).
      exists v'. split; [exact Ev|]. split; [exact Av|].
      split; [height_cases l' r Hsame|lia].
    + destruct (IHr Hr ltac:(unfold fits; lia)) as (r' & Er & Ar & Hh & Cr).
      rewrite Er. cbn [bind].
      destruct (FixBalance_step f l r' Hl Ar ltac:(unfold fits; lia)
                  ltac:(unfold fits; lia) ltac:(lia))
        as (v' & Ev & Av & Cv & Hv & Hsame).
      exists v'. split; [exact Ev|]. split; [exact Av|].
      split; [height_cases l r' Hsame|lia].
    + destruct r as [|fr rl rr].
      * eexists. split; [reflexivity|].
        rewrite avl_set_parent, GetHeight_set_parent, count_set_parent.
        cbn [GetHeight] in *. repeat split; try assumption; lia.
      * destruct (FindMin_Node fr rl rr) as (fm & mr & Em). rewrite Em.
        cbn [bind].
        destruct (EraseMin_avl (Node fr rl rr) ltac:(discriminate) Hr
                    ltac:(unfold fits; lia)) as (r' & Er & Ar & Hh & Cr).
        rewrite Er. cbn [bind].
        destruct (FixBalance_step (with_parent fm (parent f))
                    (set_parent (Some (self fm)) l)
                    (set_parent (Some (self fm)) r'))
          as (v' & Ev & Av & Cv & Hv & Hsame);
          rewrite ?avl_set_parent, ?GetHeight_set_parent;
          unfold fits; rewrite ?count_set_parent; try assumption; try lia.
        rewrite !GetHeight_set_parent, !count_set_parent in *.
        exists v'. split; [exact Ev|]. split; [exact Av|].
        split; [height_cases l r' Hsame|lia].
Qed.

(** ** The recursive mutators keep the parent links right *)

Lemma Insert_parents v k par a v' :
  parents_ok par v -> Insert v k par a = Some v' -> parents_ok par v'.
Proof.
  revert par v'. induction v as [|f l IHl r IHr]; intros par v' Hp E.
  - injection E as <-. cbn. auto.
  - cbn [parents_ok] in Hp. destruct Hp as (Hf & Hl & Hr).
    cbn [Insert] in E.
    destruct (is_end f || less k (key f)).
    + destruct (Insert l k (Some (self f)) a) as [l'|] eqn:El; [|discriminate].
      cbn [bind] in E. apply (FixBalance_parents par _ _) in E; [exact E|].
      cbn. repeat split; eauto.
    + destruct (Insert r k (Some (self f)) a) as [r'|] eqn:Er; [|discriminate].
      cbn [bind] in E. apply (FixBalance_parents par _ _) in E; [exact E|].
      cbn. repeat split; eauto.
Qed.

Lemma EraseMin_parents p v v' :
  parents_ok p v -> EraseMin v = Some v' -> parents_ok p v'.
Proof.
  revert p v'. induction v as [|f l IHl r _]; intros p v' Hp E; [discriminate|].
  cbn [parents_ok] in Hp. destruct Hp as (Hf & Hl & Hr).
  destruct l as [|fl ll lr].
  - cbn [EraseMin] in E. injection E as <-. rewrite Hf.
    eapply parents_ok_set_parent; eassumption.
  - change (EraseMin (Node f (Node fl ll lr) r))
      with (l' <- EraseMin (Node fl ll lr) ;; FixBalance (Node f l' r)) in E.
    destruct (EraseMin (Node fl ll lr)) as [l'|] eqn:El; [|discriminate].
    cbn [bind] in E. apply (FixBalance_parents p _ _) in E; [exact E|].
    cbn [parents_ok]. repeat split; auto.
Qed.

Lemma Erase_parents p v k v' :
  parents_ok p v -> Erase v k = Some v' -> parents_ok p v'.
Proof.
  revert p v'. induction v as [|f l IHl r IHr]; intros p v' Hp E.
  - injection E as <-. exact I.
  - cbn [parents_ok] in Hp. destruct Hp as (Hf & Hl & Hr).
    cbn [Erase] in E.
    destruct (is_end f || less k (key f)); [|destruct (less (key f) k)].
    + destruct (Erase l k) as [l'|] eqn:El; [|discriminate].
      cbn [bind] in E. apply (FixBalance_parents p _ _) in E; [exact E|].
      cbn [parents_ok]. repeat split; auto.
    + destruct (Erase r k) as [r'|] eqn:Er; [|discriminate].
      cbn [bind] in E. apply (FixBalance_parents p _ _) in E; [exact E|].
      cbn [parents_ok]. repeat split; auto.
    + destruct r as [|fr rl rr].
      * injection E as <-. rewrite Hf.
        eapply parents_ok_set_parent; eassumption.
      * destruct (FindMin (Node fr rl rr)) as [[|fm ml mr]|]; cbn [bind] in E;
          try discriminate.
        -- destruct (EraseMin (Node fr rl rr)); discriminate.
        -- destruct (EraseMin (Node fr rl rr)) as [r'|] eqn:Er; [|discriminate].
           cbn [bind] in E. apply (FixBalance_parents p _ _) in E; [exact E|].
           cbn [parents_ok with_parent self parent]. repeat split; auto.
           ++ eapply parents_ok_set_parent; eassumption.
           ++ eapply parents_ok_set_parent.
              eapply EraseMin_parents; eassumption.
Qed.

(** ** Search-tree order *)

Lemma before_trans x y z : before x y = true -> before y z = true -> before x z = true.
Proof.
  unfold before. intros Hxy Hyz.
  apply andb_true_iff in Hxy as [Hx Hxy]. apply andb_true_iff in Hyz as [Hy Hyz].
  apply andb_true_iff. split; [exact Hx|].
  apply negb_true_iff in Hy. rewrite Hy in Hxy. cbn in Hxy.
  destruct (t_end z); [reflexivity|]. cbn in *. eapply less_trans; eassumption.
Qed.

Lemma ordered_app xs ys :
  ordered (xs ++ ys) <->
  ordered xs /\ ordered ys /\
  (forall x y, In x xs -> In y ys -> before x y = true).
Proof.
  induction xs as [|x xs IH]; cbn [app ordered].
  - split; [intros Ho; repeat split; [exact Ho|intros x y []]|tauto].
  - rewrite IH. split.
    + intros (Hx & Hxs & Hys & Hc). repeat split; auto.
      * intros y Hy. apply Hx. apply in_or_app. auto.
      * intros x' y [<-|Hx'] Hy; [apply Hx; apply in_or_app; auto|auto].
    + intros ((Hx & Hxs) & Hys & Hc). repeat split; auto.
      * intros y Hy. apply in_app_or in Hy as [Hy|Hy]; [auto|apply Hc; cbn; auto].
      * intros x' y Hx' Hy. apply Hc; cbn; auto.
Qed.

Lemma ordered_mid xs y zs :
  ordered (xs ++ y :: zs) ->
  ordered xs /\ ordered zs /\
  (forall x, In x xs -> before x y = true) /\
  (forall z, In z zs -> before y z = true) /\
  (forall x z, In x xs -> In z zs -> before x z = true).
Proof.
  intros Ho. apply ordered_app in Ho as (Hxs & (Hy & Hzs) & Hc).
  repeat split; auto.
  - intros x Hx. apply Hc; cbn; auto.
  - intros x z Hx Hz. apply Hc; cbn; auto.
Qed.

(** a sentinel is the last element of an ordered sequence *)
Lemma ordered_end_last xs y zs :
  ordered (xs ++ y :: zs) -> t_end y = true -> zs = [].
Proof.
  intros Ho He. apply ordered_mid in Ho as (_ & _ & _ & Hz & _).
  destruct zs as [|z zs]; [reflexivity|].
  specialize (Hz z (or_introl eq_refl)). unfold before in Hz.
  rewrite He in Hz. discriminate.
Qed.

Lemma ordered_not_end xs y zs x :
  ordered (xs ++ y :: zs) -> In x xs -> t_end x = false.
Proof.
  intros Ho Hx. apply ordered_mid in Ho as (_ & _ & Hb & _ & _).
  specialize (Hb x Hx). unfold before in Hb.
  apply andb_true_iff in Hb as [Hb _]. apply negb_true_iff. exact Hb.
Qed.

(** *** Insertion in the sequence *)

Lemma ins_left x xs y zs :
  goes_left (t_key x) y = true -> ins x (xs ++ y :: zs) = ins x xs ++ y :: zs.
Proof.
  intros Hy. induction xs as [|x' xs IH]; cbn [app ins].
  - rewrite Hy. reflexivity.
  - destruct (goes_left (t_key x) x'); [reflexivity|]. rewrite IH. reflexivity.
Qed.

Lemma ins_right x xs y zs :
  (forall x', In x' xs -> goes_left (t_key x) x' = false) ->
  goes_left (t_key x) y = false ->
  ins x (xs ++ y :: zs) = xs ++ y :: ins x zs.
Proof.
  intros Hxs Hy. induction xs as [|x' xs IH]; cbn [app ins].
  - rewrite Hy. reflexivity.
  - rewrite (Hxs x' (or_introl eq_refl)). rewrite IH; [reflexivity|].
    intros x'' Hx''. apply Hxs. cbn. auto.
Qed.

Lemma goes_left_before k x y :
  before x y = true -> goes_left k y = false -> goes_left k x = false.
Proof.
  unfold before, goes_left. intros Hb Hy.
  apply andb_true_iff in Hb as [Hx Hxy]. apply negb_true_iff in Hx.
  apply orb_false_iff in Hy as [Hey Hky]. rewrite Hx, Hey in *. cbn in *.
  destruct (less k (t_key x)) eqn:Hk; [|reflexivity].
  rewrite (less_trans _ _ _ Hk Hxy) in Hky. discriminate.
Qed.

Lemma In_ins x ys z : In z (ins x ys) <-> z = x \/ In z ys.
Proof.
  induction ys as [|y ys IH]; cbn [ins].
  - cbn. intuition congruence.
  - destruct (goes_left (t_key x) y); cbn [In]; [intuition congruence|].
    rewrite IH. intuition congruence.
Qed.

Lemma ordered_ins a k ys :
  ordered ys ->
  (forall y, In y ys -> t_end y = false -> t_key y <> k) ->
  ordered (ins (a, false, k) ys).
Proof.
  induction ys as [|y ys IH]; intros Ho Hk; cbn [ins].
  - cbn. split; [intros y []|exact I].
  - cbn [ordered] in Ho. destruct Ho as (Hy & Hys).
    change (t_key (a, false, k)) with k.
    destruct (goes_left k y) eqn:Hg.
    + cbn [ordered]. repeat split; auto.
      assert (Hxy : before (a, false, k) y = true) by exact Hg.
      intros z [<-|Hz]; [exact Hxy|].
      eapply before_trans; [exact Hxy|]. apply Hy. exact Hz.
    + cbn [ordered]. split.
      * intros z Hz. apply In_ins in Hz as [->|Hz]; [|apply Hy; exact Hz].
        unfold goes_left in Hg. apply orb_false_iff in Hg as [He Hl].
        unfold before. rewrite He. cbn.
        destruct (less (t_key y) k) eqn:Hl'; [reflexivity|].
        exfalso. apply (Hk y (or_introl eq_refl) He).
        apply less_total; assumption.
      * apply IH; [exact Hys|]. intros z Hz. apply Hk. cbn. auto.
Qed.

(** *** Removal from the sequence *)

Lemma ordered_filter (g : addr * bool * T -> bool) ys :
  ordered ys -> ordered (filter g ys).
Proof.
  induction ys as [|y ys IH]; cbn [filter ordered]; [trivial|].
  intros (Hy & Hys). destruct (g y); cbn [ordered]; auto.
  split; auto. intros z Hz. apply filter_In in Hz as [Hz _]. auto.
Qed.

Lemma filter_all (g : addr * bool * T -> bool) ys :
  (forall y, In y ys -> g y = true) -> filter g ys = ys.
Proof.
  induction ys as [|y ys IH]; cbn [filter]; intros Hg; [reflexivity|].
  rewrite (Hg y (or_introl eq_refl)), IH; [reflexivity|].
  intros z Hz. apply Hg. cbn. auto.
Qed.

Lemma keeps_after k x y : goes_left k x = true -> before x y = true -> keeps k y = true.
Proof.
  unfold goes_left, before, keeps. intros Hx Hb.
  apply andb_true_iff in Hb as [Hex Hxy]. apply negb_true_iff in Hex.
  rewrite Hex in Hx. cbn in Hx.
  destruct (t_end y); [reflexivity|]. cbn in *.
  rewrite (less_trans _ _ _ Hx Hxy). reflexivity.
Qed.

Lemma keeps_before k x y :
  t_end y = false -> less k (t_key y) = false -> before x y = true ->
  keeps k x = true.
Proof.
  unfold before, keeps. intros Hey Hky Hb.
  apply andb_true_iff in Hb as [Hex Hxy]. rewrite Hey in Hxy. cbn in Hxy.
  destruct (less (t_key x) k) eqn:Hxk; [apply orb_true_r|].
  destruct (less k (t_key x)) eqn:Hkx; [rewrite orb_true_r; reflexivity|].
  pose proof (less_total _ _ Hkx Hxk) as ->.
  rewrite Hxy in Hky. discriminate.
Qed.

Lemma keeps_after_eq k x y :
  t_end x = false -> less k (t_key x) = false -> less (t_key x) k = false ->
  before x y = true -> keeps k y = true.
Proof.
  unfold before, keeps. intros Hex Hkx Hxk Hb.
  rewrite Hex in Hb. cbn in Hb.
  destruct (t_end y); [reflexivity|]. cbn in *.
  pose proof (less_total _ _ Hkx Hxk) as ->. rewrite Hb. reflexivity.
Qed.

(** ** The mutators on the in-order sequence *)

Lemma Insert_walk v k par a v' :
  ordered (walk v) -> Insert v k par a = Some v' ->
  walk v' = ins (a, false, k) (walk v).
Proof.
  revert par v'. induction v as [|f l IHl r IHr]; intros par v' Ho E.
  - injection E as <-. reflexivity.
  - rewrite walk_Node in *.
    pose proof (ordered_mid _ _ _ Ho) as (Hol & Hor & Hlf & Hfr & _).
    cbn [Insert] in E.
    change (is_end f || less k (key f)) with (goes_left k (tag f)) in E.
    destruct (goes_left k (tag f)) eqn:Hg.
    + destruct (Insert l k (Some (self f)) a) as [l'|] eqn:El; [|discriminate].
      cbn [bind] in E. rewrite (FixBalance_walk _ _ E), walk_Node.
      rewrite (IHl _ _ Hol El). symmetry. apply ins_left. exact Hg.
    + destruct (Insert r k (Some (self f)) a) as [r'|] eqn:Er; [|discriminate].
      cbn [bind] in E. rewrite (FixBalance_walk _ _ E), walk_Node.
      rewrite (IHr _ _ Hor Er). symmetry. apply ins_right; [|exact Hg].
      intros x Hx. eapply goes_left_before; [apply Hlf; exact Hx|exact Hg].
Qed.

Lemma EraseMin_walk v v' fm ml mr :
  FindMin v = Some (Node fm ml mr) -> EraseMin v = Some v' ->
  walk v = tag fm :: walk v'.
Proof.
  revert v'. induction v as [|f l IHl r _]; intros v' Em E; [discriminate|].
  destruct l as [|fl ll lr].
  - cbn in Em, E. injection Em as <- <- <-. injection E as <-.
    rewrite walk_Node, walk_set_parent. reflexivity.
  - change (FindMin (Node f (Node fl ll lr) r))
      with (FindMin (Node fl ll lr)) in Em.
    change (EraseMin (Node f (Node fl ll lr) r))
      with (l' <- EraseMin (Node fl ll lr) ;; FixBalance (Node f l' r)) in E.
    destruct (EraseMin (Node fl ll lr)) as [l'|] eqn:El; [|discriminate].
    cbn [bind] in E. rewrite (FixBalance_walk _ _ E), !walk_Node.
    rewrite <- walk_Node, (IHl _ Em eq_refl). reflexivity.
Qed.

Lemma Erase_walk v k v' :
  ordered (walk v) -> Erase v k = Some v' -> walk v' = del k (walk v).
Proof.
  revert v'. induction v as [|f l IHl r IHr]; intros v' Ho E.
  - injection E as <-. reflexivity.
  - rewrite walk_Node in Ho.
    pose proof (ordered_mid _ _ _ Ho) as (Hol & Hor & Hlf & Hfr & _).
    unfold del. rewrite walk_Node, filter_app. cbn [filter].
    cbn [Erase] in E.
    change (is_end f || less k (key f)) with (goes_left k (tag f)) in E.
    destruct (goes_left k (tag f)) eqn:Hg; [|destruct (less (key f) k) eqn:Hfk].
    + destruct (Erase l k) as [l'|] eqn:El; [|discriminate].
      cbn [bind] in E. rewrite (FixBalance_walk _ _ E), walk_Node.
      rewrite (IHl _ Hol eq_refl).
      assert (keeps k (tag f) = true) as ->.
      { unfold keeps. unfold goes_left in Hg. rewrite Hg. reflexivity. }
      rewrite (filter_all _ (walk r)); [reflexivity|].
      intros z Hz. eapply keeps_after; [exact Hg|]. apply Hfr. exact Hz.
    + apply orb_false_iff in Hg as [He Hkf].
      destruct (Erase r k) as [r'|] eqn:Er; [|discriminate].
      cbn [bind] in E. rewrite (FixBalance_walk _ _ E), walk_Node.
      rewrite (IHr _ Hor eq_refl).
      assert (keeps k (tag f) = true) as ->.
      { unfold keeps. change (t_key (tag f)) with (key f). rewrite Hfk.
        apply orb_true_r. }
      rewrite (filter_all _ (walk l)); [reflexivity|].
      intros z Hz. eapply (keeps_before k z (tag f)); auto.
    + apply orb_false_iff in Hg as [He Hkf].
      assert (keeps k (tag f) = false) as ->.
      { unfold keeps. rewrite He, Hkf. exact Hfk. }
      rewrite (filter_all _ (walk l))
        by (intros z Hz; eapply (keeps_before k z (tag f)); auto).
      rewrite (filter_all _ (walk r))
        by (intros z Hz; eapply (keeps_after_eq k (tag f) z); auto).
      destruct r as [|fr rl rr].
      * injection E as <-. rewrite walk_set_parent. cbn [walk inorder map].
        rewrite app_nil_r. reflexivity.
      * destruct (FindMin (Node fr rl rr)) as [[|fm ml mr]|] eqn:Em;
          cbn [bind] in E; try discriminate.
        -- destruct (EraseMin (Node fr rl rr)); discriminate.
        -- destruct (EraseMin (Node fr rl rr)) as [r'|] eqn:Er; [|discriminate].
           cbn [bind] in E. rewrite (FixBalance_walk _ _ E), walk_Node.
           rewrite !walk_set_parent, (EraseMin_walk _ _ _ _ _ Em Er).
           reflexivity.
Qed.

Lemma del_present xs a k zs :
  ordered (xs ++ (a, false, k) :: zs) ->
  del k (xs ++ (a, false, k) :: zs) = xs ++ zs.
Proof.
  intros Ho. apply ordered_mid in Ho as (_ & _ & Hx & Hz & _).
  unfold del. rewrite filter_app. cbn [filter].
  assert (keeps k (a, false, k) = false) as ->.
  { unfold keeps. cbn. rewrite less_irrefl. reflexivity. }
  rewrite (filter_all _ xs), (filter_all _ zs); [reflexivity| |].
  - intros z Hin. eapply (keeps_after_eq k (a, false, k) z); auto;
      cbn; apply less_irrefl.
  - intros x Hin. eapply (keeps_before k x (a, false, k)); auto.
    cbn. apply less_irrefl.
Qed.

(** ** Sub-trees and dereferencing *)

Lemma has_refl f l r : has (Node f l r) (Node f l r).
Proof. cbn. auto. Qed.

Lemma has_trans v t u : has v t -> has t u -> has v u.
Proof.
  induction v as [|f l IHl r IHr]; cbn [has]; [tauto|].
  intros [->|[Hl|Hr]] Hu; [exact Hu| |]; auto.
Qed.

Lemma has_In v f l r : has v (Node f l r) -> In (tag f) (walk v).
Proof.
  induction v as [|f0 l0 IHl r0 IHr]; cbn [has]; [tauto|].
  rewrite walk_Node. intros [E|[Hl|Hr]]; apply in_or_app.
  - injection E as -> -> ->. right. left. reflexivity.
  - left. auto.
  - right. right. auto.
Qed.

Lemma addrs_Node f l r : addrs (Node f l r) = addrs l ++ self f :: addrs r.
Proof. unfold addrs. rewrite walk_Node, map_app. reflexivity. Qed.

Lemma deref_absent v a : ~ In a (addrs v) -> deref v a = nullptr.
Proof.
  induction v as [|f l IHl r IHr]; [reflexivity|].
  rewrite addrs_Node. intros Hn. cbn [deref].
  destruct (Nat.eqb_spec (self f) a) as [E|E].
  - exfalso. apply Hn. apply in_or_app. right. left. exact E.
  - rewrite IHl, IHr; [reflexivity| |]; intros Hin; apply Hn; apply in_or_app;
      cbn; auto.
Qed.

Lemma deref_has v a f l r :
  deref v a = Node f l r -> has v (Node f l r) /\ self f = a.
Proof.
  induction v as [|f0 l0 IHl r0 IHr]; [discriminate|].
  cbn [deref has].
  destruct (Nat.eqb_spec (self f0) a) as [E|E].
  - intros [= <- <- <-]. auto.
  - destruct (deref l0 a) as [|f1 l1 r1] eqn:El.
    + intros Hr. destruct (IHr Hr). auto.
    + intros Hl. destruct (IHl Hl). auto.
Qed.

Lemma has_deref v f l r :
  NoDup (addrs v) -> has v (Node f l r) -> deref v (self f) = Node f l r.
Proof.
  induction v as [|f0 l0 IHl r0 IHr]; cbn [has]; [tauto|].
  rewrite addrs_Node. intros Hnd Hh.
  pose proof (NoDup_remove_1 _ _ _ Hnd) as Hnd'.
  pose proof (NoDup_remove_2 _ _ _ Hnd) as Hn0.
  apply NoDup_app_remove_l in Hnd as Hndr. apply NoDup_cons_iff in Hndr as [_ Hndr].
  pose proof (NoDup_app_remove_r _ _ Hnd') as Hndl.
  cbn [deref].
  destruct Hh as [E|[Hl|Hr]].
  - injection E as -> -> ->. rewrite Nat.eqb_refl. reflexivity.
  - pose proof (has_In _ _ _ _ Hl) as Hin.
    apply (in_map t_addr) in Hin. change (t_addr (tag f)) with (self f) in Hin.
    destruct (Nat.eqb_spec (self f0) (self f)) as [E|E].
    + exfalso. apply Hn0. apply in_or_app. left. rewrite E. exact Hin.
    + rewrite (IHl Hndl Hl). reflexivity.
  - pose proof (has_In _ _ _ _ Hr) as Hin.
    apply (in_map t_addr) in Hin. change (t_addr (tag f)) with (self f) in Hin.
    destruct (Nat.eqb_spec (self f0) (self f)) as [E|E].
    + exfalso. apply Hn0. apply in_or_app. right. rewrite E. exact Hin.
    + rewrite deref_absent.
      * apply IHr; assumption.
      * intros Hin'. apply NoDup_remove_1 in Hnd.
        revert Hin' Hin. clear - Hnd. intros Hl Hr.
        induction (addrs l0) as [|x xs IH]; [destruct Hl|].
        cbn [app] in Hnd. apply NoDup_cons_iff in Hnd as [Hx Hxs].
        destruct Hl as [->|Hl]; [apply Hx; apply in_or_app; auto|auto].
Qed.

(** ** [Find] *)

Lemma Find_found v k f' l' r' :
  Find v k = Node f' l' r' -> has v (Node f' l' r') /\ key f' = k.
Proof.
  induction v as [|f l IHl r IHr]; [discriminate|].
  cbn [Find has].
  destruct (is_end f).
  - destruct l as [|fl ll lr]; [discriminate|].
    destruct (less (key fl) k) eqn:E1; [discriminate|].
    destruct (less k (key fl)) eqn:E2; [discriminate|].
    cbn [negb andb]. intros [= <- <- <-].
    split; [right; left; apply has_refl|].
    apply less_total; assumption.
  - destruct (less k (key f)) eqn:E1.
    + intros E. destruct (IHl E). auto.
    + destruct (less (key f) k) eqn:E2.
      * intros E. destruct (IHr E). auto.
      * intros [= <- <- <-]. split; [auto|]. apply less_total; assumption.
Qed.

Lemma walk_nil v : walk v = [] -> v = nullptr.
Proof.
  destruct v as [|f l r]; [reflexivity|]. rewrite walk_Node.
  intros E. destruct (walk l); discriminate.
Qed.

(** under a sentinel there is at most one node: a leaf to its left *)
Lemma end_shape f l r :
  avl (Node f l r) -> ordered (walk (Node f l r)) -> is_end f = true ->
  r = nullptr /\
  (l = nullptr \/ exists fl, l = Node fl nullptr nullptr /\ is_end fl = false).
Proof.
  intros Ha Ho He. rewrite walk_Node in Ho.
  pose proof (ordered_end_last _ _ _ Ho He) as Hr. apply walk_nil in Hr. subst r.
  split; [reflexivity|].
  destruct l as [|fl ll lr]; [left; reflexivity|right].
  cbn [avl GetHeight] in Ha. destruct Ha as (_ & Hb & (Hfl & _ & Hll & Hlr) & _).
  pose proof (avl_height_nonneg _ Hll). pose proof (avl_height_nonneg _ Hlr).
  assert (GetHeight ll = 0) as Hzl by lia. assert (GetHeight lr = 0) as Hzr by lia.
  apply avl_height_zero in Hzl, Hzr; try assumption. subst ll lr.
  exists fl. split; [reflexivity|].
  apply (ordered_not_end _ _ _ (tag fl) Ho). rewrite walk_Node. cbn. auto.
Qed.

Lemma Find_not_end v k f' l' r' :
  avl v -> ordered (walk v) -> Find v k = Node f' l' r' -> is_end f' = false.
Proof.
  induction v as [|f l IHl r IHr]; [discriminate|].
  intros Ha Ho. pose proof Ho as Ho'. rewrite walk_Node in Ho'.
  pose proof (ordered_mid _ _ _ Ho') as (Hol & Hor & _).
  cbn [Find]. destruct (is_end f) eqn:He.
  - destruct (end_shape _ _ _ Ha Ho He) as (-> & [->|(fl & -> & Hfl)]);
      [discriminate|].
    destruct (negb (less (key fl) k) && negb (less k (key fl))); [|discriminate].
    intros [= <- <- <-]. exact Hfl.
  - cbn [avl] in Ha. destruct Ha as (_ & _ & Hl & Hr).
    destruct (less k (key f)); [auto|].
    destruct (less (key f) k); [auto|].
    intros [= <- <- <-]. exact He.
Qed.

Lemma Find_none v k :
  avl v -> ordered (walk v) -> Find v k = nullptr ->
  forall x, In x (walk v) -> t_end x = false -> t_key x <> k.
Proof.
  induction v as [|f l IHl r IHr]; [intros _ _ _ x []|].
  intros Ha Ho. pose proof Ho as Ho'. rewrite walk_Node in Ho'.
  pose proof (ordered_mid _ _ _ Ho') as (Hol & Hor & Hlf & Hfr & _).
  cbn [Find]. destruct (is_end f) eqn:He.
  - destruct (end_shape _ _ _ Ha Ho He) as (-> & [->|(fl & -> & Hfl)]).
    + intros _ x [<-|[]] Hx. cbn in Hx. congruence.
    + destruct (less (key fl) k) eqn:E1; cbn [negb andb].
      * intros _ x [<-|[<-|[]]] Hx Hk; cbn in Hx, Hk; [|congruence].
        subst k. rewrite less_irrefl in E1. discriminate.
      * destruct (less k (key fl)) eqn:E2; cbn [negb]; [|discriminate].
        intros _ x [<-|[<-|[]]] Hx Hk; cbn in Hx, Hk; [|congruence].
        subst k. rewrite less_irrefl in E2. discriminate.
  - cbn [avl] in Ha. destruct Ha as (_ & _ & Hl & Hr).
    rewrite walk_Node.
    destruct (less k (key f)) eqn:E1; [|destruct (less (key f) k) eqn:E2];
      [| |discriminate].
    + intros E x Hx Hex Hk. apply in_app_or in Hx as [Hx|[<-|Hx]].
      * exact (IHl Hl Hol E x Hx Hex Hk).
      * cbn in Hk. subst k. rewrite less_irrefl in E1. discriminate.
      * specialize (Hfr x Hx). unfold before in Hfr.
        change (t_end (tag f)) with (is_end f) in Hfr.
        rewrite He, Hex in Hfr. cbn in Hfr. subst k.
        change (t_key (tag f)) with (key f) in Hfr.
        pose proof (less_trans _ _ _ Hfr E1) as C. rewrite less_irrefl in C.
        discriminate.
    + intros E x Hx Hex Hk. apply in_app_or in Hx as [Hx|[<-|Hx]].
      * specialize (Hlf x Hx). unfold before in Hlf.
        change (t_end (tag f)) with (is_end f) in Hlf.
        rewrite He, Hex in Hlf. cbn in Hlf. subst k.
        change (t_key (tag f)) with (key f) in Hlf.
        pose proof (less_trans _ _ _ Hlf E2) as C. rewrite less_irrefl in C.
        discriminate.
      * cbn in Hk. subst k. rewrite less_irrefl in E2. discriminate.
      * exact (IHr Hr Hor E x Hx Hex Hk).
Qed.

Lemma ins_split x ys :
  exists pre post, ys = pre ++ post /\ ins x ys = pre ++ x :: post.
Proof.
  induction ys as [|y ys (pre & post & E1 & E2)]; cbn [ins].
  - exists [], []. auto.
  - destruct (goes_left (t_key x) y).
    + exists [], (y :: ys). auto.
    + exists (y :: pre), post. rewrite E2, E1. auto.
Qed.

Lemma keys_of_app xs ys : keys_of (xs ++ ys) = keys_of xs ++ keys_of ys.
Proof. unfold keys_of. rewrite filter_app, map_app. reflexivity. Qed.

Lemma In_keys_of k xs : In k (keys_of xs) <-> exists a, In (a, false, k) xs.
Proof.
  unfold keys_of. rewrite in_map_iff. split.
  - intros (x & Hk & Hx). apply filter_In in Hx as [Hx He].
    destruct x as [[a e] k']. cbn in *. apply negb_true_iff in He. subst.
    exists a. exact Hx.
  - intros (a & Ha). exists (a, false, k). split; [reflexivity|].
    apply filter_In. auto.
Qed.

(** an ordered sequence with a sentinel: the keys, then the sentinel *)
Lemma walk_shape xs aS kS :
  ordered xs -> In (aS, true, kS) xs ->
  exists body, xs = body ++ [(aS, true, kS)] /\
               (forall x, In x body -> t_end x = false) /\
               keys_of xs = map t_key body.
Proof.
  intros Ho Hin. apply in_split in Hin as (pre & post & ->).
  pose proof (ordered_end_last _ _ _ Ho eq_refl) as ->.
  assert (Hb : forall x, In x pre -> t_end x = false)
    by (intros x Hx; eapply ordered_not_end; eassumption).
  exists pre. repeat split; auto.
  rewrite keys_of_app. unfold keys_of at 2. cbn. rewrite app_nil_r.
  unfold keys_of. rewrite filter_all; [reflexivity|].
  intros x Hx. rewrite (Hb x Hx). reflexivity.
Qed.

End Invariants.

(** ** The invariant of a set *)

Section SetInvariant.
Context {T : Type} `{Key T}.

Lemma Inv_empty : Inv (@empty T _).
Proof.
  split; cbn.
  - repeat split; lia.
  - split; [intros y []|exact I].
  - auto.
  - constructor; [intros []|constructor].
  - intros a [<-|[]]. lia.
  - exists 0%nat, default_key. auto.
  - reflexivity.
  - unfold fits. cbn. lia.
Qed.

Lemma count_elements s :
  Inv s -> count (root_ s) = Z.of_nat (length (elements s)) + 1.
Proof.
  intros I. destruct (inv_end s I) as (aS & kS & _ & Hin).
  destruct (walk_shape _ _ _ (inv_ord s I) Hin) as (body & Hw & _ & Hk).
  unfold elements. rewrite count_walk, Hk, Hw, length_app, length_map. cbn. lia.
Qed.

Lemma contains_elements k s : Inv s -> contains k s = true <-> In k (elements s).
Proof.
  intros I. unfold contains, elements. rewrite In_keys_of.
  destruct (Find (root_ s) k) as [|f l r] eqn:E.
  - split; [discriminate|]. intros (a & Ha). exfalso.
    exact (Find_none _ _ (inv_avl s I) (inv_ord s I) E _ Ha eq_refl eq_refl).
  - split; [intros _|reflexivity].
    destruct (Find_found _ _ _ _ _ E) as (Hh & Hk).
    pose proof (Find_not_end _ _ _ _ _ (inv_avl s I) (inv_ord s I) E) as He.
    exists (self f). apply has_In in Hh. unfold tag in Hh.
    rewrite He, Hk in Hh. exact Hh.
Qed.

(** [find(k) != end()] says the same *)
Lemma find_contains k s : Inv s -> find k s <> end' s <-> contains k s = true.
Proof.
  intros I. unfold find, end', contains.
  destruct (Find (root_ s) k) as [|f l r] eqn:E.
  - split; [congruence|discriminate].
  - split; [reflexivity|intros _].
    destruct (Find_found _ _ _ _ _ E) as (Hh & Hk).
    pose proof (Find_not_end _ _ _ _ _ (inv_avl s I) (inv_ord s I) E) as He.
    destruct (inv_end s I) as (aS & kS & -> & Hin).
    cbn [addr_of]. intros [= Ea].
    apply has_In in Hh. unfold tag in Hh. rewrite He, Ea in Hh.
    pose proof (inv_nodup s I) as Hnd. unfold addrs in Hnd.
    apply in_split in Hin as (l1 & l2 & Hw). rewrite Hw in Hh, Hnd.
    rewrite map_app in Hnd. cbn [map] in Hnd.
    apply NoDup_remove_2 in Hnd. apply Hnd.
    apply in_app_or in Hh as [Hh|[Hh|Hh]]; [| discriminate |];
      apply in_or_app; [left|right];
      apply (in_map t_addr) in Hh; exact Hh.
Qed.

Lemma Inv_insert k s :
  Inv s -> count (root_ s) + 1 < 2 ^ 64 ->
  exists s',
    insert k s = Some s' /\ Inv s' /\
    count (root_ s') <= count (root_ s) + 1 /\
    contains k s' = true /\
    size s' = (if contains k s then size s else size s + 1).
Proof.
  intros I Hc. unfold insert, contains, size.
  destruct (Find (root_ s) k) as [|f0 l0 r0] eqn:EF.
  2:{ exists s. rewrite EF. repeat split; try apply I; try lia. }
  destruct (Insert_avl (root_ s) k None (brk s) (inv_avl s I) Hc)
    as (r & Er & Ar & _ & Cr).
  rewrite Er. cbn [bind]. eexists. split; [reflexivity|]. cbn [root_ size_].
  pose proof (Insert_walk _ _ _ _ _ (inv_ord s I) Er) as Hw.
  destruct (ins_split (brk s, false, k) (walk (root_ s))) as (l1 & l2 & E1 & E2).
  assert (Ho : ordered (walk r)).
  { rewrite Hw. apply ordered_ins; [apply I|].
    apply (Find_none _ _ (inv_avl s I) (inv_ord s I) EF). }
  assert (Hk : length (keys_of (walk r)) = S (length (elements s))).
  { unfold elements. rewrite Hw, E2, E1, !keys_of_app.
    change (keys_of ((brk s, false, k) :: l2)) with (k :: keys_of l2).
    rewrite !length_app. cbn. lia. }
  pose proof (count_elements s I) as Hce.
  assert (Hin : In (brk s, false, k) (walk r))
    by (rewrite Hw; apply In_ins; auto).
  split; [|split; [lia|split]].
  - split; cbn [root_ size_ end_ brk].
    + exact Ar.
    + exact Ho.
    + eapply Insert_parents; [apply I|exact Er].
    + unfold addrs. rewrite Hw, E2, map_app. cbn [map].
      apply NoDup_Add with (a := brk s) (l := map t_addr l1 ++ map t_addr l2).
      * apply Add_app.
      * rewrite <- map_app, <- E1. split; [apply I|].
        intros Hb. apply (inv_brk s I) in Hb. lia.
    + intros a Ha. unfold addrs in Ha. rewrite Hw in Ha.
      apply in_map_iff in Ha as (x & <- & Hx). apply In_ins in Hx as [->|Hx].
      * cbn. lia.
      * apply Nat.lt_lt_succ_r. apply (inv_brk s I). apply in_map. exact Hx.
    + destruct (inv_end s I) as (aS & kS & He & HS). exists aS, kS.
      split; [exact He|]. rewrite Hw. apply In_ins. auto.
    + unfold elements. cbn [root_]. rewrite Hk, (inv_size s I), wrap64_small; lia.
    + unfold fits. lia.
  - destruct (Find r k) as [|f1 l1' r1'] eqn:EF'; [|reflexivity].
    exfalso.
    exact (Find_none _ _ Ar Ho EF' _ Hin eq_refl eq_refl).
  - rewrite (inv_size s I). apply wrap64_small. lia.
Qed.

Lemma Inv_erase k s :
  Inv s ->
  exists s',
    erase k s = Some s' /\ Inv s' /\
    count (root_ s') <= count (root_ s) /\
    contains k s' = false /\
    size s' = (if contains k s then size s - 1 else size s).
Proof.
  intros I. unfold erase, contains, size.
  destruct (Find (root_ s) k) as [|f0 l0 r0] eqn:EF.
  1:{ exists s. rewrite EF. repeat split; try apply I; try lia. }
  destruct (Erase_avl (root_ s) k (inv_avl s I) (inv_fits s I))
    as (r & Er & Ar & _ & Cr).
  rewrite Er. cbn [bind]. eexists. split; [reflexivity|]. cbn [root_ size_].
  pose proof (Erase_walk _ _ _ (inv_ord s I) Er) as Hw.
  destruct (Find_found _ _ _ _ _ EF) as (Hh & Hk0).
  pose proof (Find_not_end _ _ _ _ _ (inv_avl s I) (inv_ord s I) EF) as He0.
  apply has_In in Hh. unfold tag in Hh. rewrite He0, Hk0 in Hh.
  apply in_split in Hh as (xs & zs & Hsplit).
  pose proof (inv_ord s I) as Ho0. rewrite Hsplit in Ho0.
  pose proof (del_present _ _ _ _ Ho0) as Hd. rewrite <- Hsplit, <- Hw in Hd.
  assert (Ho : ordered (walk r)).
  { rewrite Hw. apply ordered_filter. apply I. }
  assert (Hk : S (length (keys_of (walk r))) = length (elements s)).
  { unfold elements. rewrite Hd, Hsplit, !keys_of_app.
    change (keys_of ((self f0, false, k) :: zs)) with (k :: keys_of zs).
    rewrite !length_app. cbn. lia. }
  split; [|split; [lia|split]].
  - split; cbn [root_ size_ end_ brk].
    + exact Ar.
    + exact Ho.
    + eapply Erase_parents; [apply I|exact Er].
    + pose proof (inv_nodup s I) as Hnd. unfold addrs in *.
      rewrite Hsplit, map_app in Hnd. cbn [map] in Hnd.
      apply NoDup_remove_1 in Hnd. rewrite Hd, map_app. exact Hnd.
    + intros a Ha. apply (inv_brk s I). unfold addrs in *.
      rewrite Hsplit. rewrite Hd in Ha. rewrite map_app in *.
      apply in_app_or in Ha. apply in_or_app. cbn. tauto.
    + destruct (inv_end s I) as (aS & kS & He & HS). exists aS, kS.
      split; [exact He|]. rewrite Hd. rewrite Hsplit in HS.
      apply in_app_or in HS as [HS|[HS|HS]]; [|discriminate|]; apply in_or_app; auto.
    + unfold elements. cbn [root_].
      rewrite (inv_size s I), <- Hk, wrap64_small; [lia|].
      pose proof (count_elements s I). pose proof (inv_fits s I) as Hf.
      unfold fits in Hf. lia.
    + unfold fits. pose proof (inv_fits s I) as Hf. unfold fits in Hf. lia.
  - destruct (Find r k) as [|f1 l1' r1'] eqn:EF'; [reflexivity|].
    exfalso.
    destruct (Find_found _ _ _ _ _ EF') as (Hh' & Hk1).
    pose proof (Find_not_end _ _ _ _ _ Ar Ho EF') as He1.
    apply has_In in Hh'. rewrite Hw in Hh'. apply filter_In in Hh' as [_ Hkeep].
    unfold keeps, tag in Hkeep. cbn in Hkeep.
    rewrite He1, Hk1, less_irrefl in Hkeep. discriminate.
  - rewrite (inv_size s I), <- Hk. apply wrap64_small.
    pose proof (count_elements s I). pose proof (inv_fits s I) as Hf.
    unfold fits in Hf. lia.
Qed.

(** a duplicate insertion and the erasure of an absent key change nothing *)
Lemma insert_present k s : contains k s = true -> insert k s = Some s.
Proof.
  unfold contains, insert. destruct (Find (root_ s) k); [discriminate|reflexivity].
Qed.

Lemma erase_absent k s : contains k s = false -> erase k s = Some s.
Proof.
  unfold contains, erase. destruct (Find (root_ s) k); [reflexivity|discriminate].
Qed.

End SetInvariant.

(** ** Reachable sets *)

Section Reachable.
Context {T : Type} `{Key T}.

Lemma run_from_Inv (ops : list (op T)) :
  forall s : Set_ T,
    Inv s -> count (root_ s) + Z.of_nat (length ops) < 2 ^ 64 ->
    exists s',
      run_from s ops = Some s' /\ Inv s' /\
      count (root_ s') <= count (root_ s) + Z.of_nat (length ops).
Proof.
  induction ops as [|o ops IH]; intros s I Hc.
  - exists s. cbn. split; [reflexivity|]. split; [exact I|lia].
  - cbn [length] in Hc. rewrite Nat2Z.inj_succ in Hc.
    assert (exists s1, step s o = Some s1 /\ Inv s1 /\
                       count (root_ s1) <= count (root_ s) + 1) as (s1 & E1 & I1 & C1).
    { destruct o as [k|k]; cbn [step].
      - destruct (Inv_insert k s I ltac:(lia)) as (s1 & E & I1 & C & _).
        exists s1. auto.
      - destruct (Inv_erase k s I) as (s1 & E & I1 & C & _).
        exists s1. split; [exact E|]. split; [exact I1|lia]. }
    destruct (IH s1 I1 ltac:(lia)) as (s' & E' & I' & C').
    exists s'. cbn [run_from length]. rewrite E1. cbn [bind].
    rewrite Nat2Z.inj_succ. split; [exact E'|]. split; [exact I'|lia].
Qed.

Lemma run_Inv (ops : list (op T)) :
  Z.of_nat (length ops) < max_ops ->
  exists s, run ops = Some s /\ Inv s /\ count (root_ s) + 1 < 2 ^ 64.
Proof.
  unfold max_ops. intros Hb.
  destruct (run_from_Inv ops empty Inv_empty) as (s & E & I & C).
  - change (count (root_ empty)) with 1. lia.
  - exists s. split; [exact E|]. split; [exact I|].
    change (count (root_ empty)) with 1 in C. lia.
Qed.

Lemma avl_has (v : node T) f l r : avl v -> has v (Node f l r) -> avl (Node f l r).
Proof.
  induction v as [|f0 l0 IHl r0 IHr]; cbn [has]; [tauto|].
  intros Ha [E|[Hl|Hr]].
  - rewrite E. exact Ha.
  - apply IHl; [apply Ha|exact Hl].
  - apply IHr; [apply Ha|exact Hr].
Qed.

(** X21.  After [insert(k)] on a set reached from the empty set by
    [insert] and [erase], [find(k)] is not [end()];
    [size()] grew by exactly one if [k] was absent ([find(k) == end()]
    before); if it was present the set is left as it was, size included;
    the call never fails. *)
Theorem insert_member_size (ops : list (op T)) (k : T) :
  Z.of_nat (length ops) < max_ops ->
  exists s s',
    run ops = Some s /\ insert k s = Some s' /\
    find k s' <> end' s' /\
    (find k s = end' s -> size s' = size s + 1) /\
    (find k s <> end' s -> size s' = size s /\ s' = s).
Proof.
  intros Hb. destruct (run_Inv ops Hb) as (s & E & I & C).
  destruct (Inv_insert k s I C) as (s' & Ei & I' & _ & Hm & Hs).
  exists s, s'. split; [exact E|]. split; [exact Ei|]. split; [|split].
  - apply find_contains; assumption.
  - intros Ha. destruct (contains k s) eqn:Ec; [|exact Hs].
    exfalso. apply (find_contains k s I) in Ec. contradiction.
  - intros Hp. apply (find_contains k s I) in Hp. split.
    + rewrite Hp in Hs. exact Hs.
    + apply insert_present in Hp. congruence.
Qed.

(** X22.  After [erase(k)] on a set reached from the empty set by
    [insert] and [erase], [find(k)] is [end()];
    [size()] shrank by exactly one if [k] was present; if it was absent
    the set is left as it was, size included; inserting an absent [k] and
    erasing it again restores the size. *)
Theorem erase_member_size (ops : list (op T)) (k : T) :
  Z.of_nat (length ops) < max_ops ->
  exists s s',
    run ops = Some s /\ erase k s = Some s' /\
    find k s' = end' s' /\
    (find k s <> end' s -> size s' = size s - 1) /\
    (find k s = end' s -> size s' = size s /\ s' = s) /\
    (find k s = end' s ->
     exists s1 s2, insert k s = Some s1 /\ erase k s1 = Some s2 /\
                   find k s2 = end' s2 /\ size s2 = size s).
Proof.
  intros Hb. destruct (run_Inv ops Hb) as (s & E & I & C).
  destruct (Inv_erase k s I) as (s' & Ee & I' & _ & Hm & Hs).
  assert (Hno : forall u : Set_ T, Inv u -> contains k u = false -> find k u = end' u).
  { intros u Iu Hc. destruct (ptr_eqb (find k u) (end' u)) eqn:Ep.
    - unfold ptr_eqb in Ep.
      destruct (find k u), (end' u); try discriminate; [|reflexivity].
      apply Nat.eqb_eq in Ep. congruence.
    - assert (find k u <> end' u) as Hne.
      { intros Eq. rewrite Eq in Ep. unfold ptr_eqb in Ep.
        destruct (end' u); [rewrite Nat.eqb_refl in Ep|]; discriminate. }
      apply (find_contains k u Iu) in Hne. congruence. }
  assert (Habs : find k s = end' s -> contains k s = false).
  { intros Ha. destruct (contains k s) eqn:Ec; [|reflexivity].
    exfalso. apply (find_contains k s I) in Ec. contradiction. }
  exists s, s'. split; [exact E|]. split; [exact Ee|].
  split; [apply Hno; assumption|]. split; [|split].
  - intros Hp. apply (find_contains k s I) in Hp. rewrite Hp in Hs. exact Hs.
  - intros Ha. split.
    + rewrite (Habs Ha) in Hs. exact Hs.
    + pose proof (erase_absent k s (Habs Ha)). congruence.
  - intros Ha.
    destruct (Inv_insert k s I C) as (s1 & E1 & I1 & _ & Hm1 & Hs1).
    destruct (Inv_erase k s1 I1) as (s2 & E2 & I2 & _ & Hm2 & Hs2).
    exists s1, s2. repeat split; auto.
    rewrite Hs2, Hm1, Hs1.
    destruct (contains k s) eqn:Ec; [|lia].
    exfalso. apply (find_contains k s I) in Ec. contradiction.
Qed.

(** C5.  After any sequence of [insert] and [erase] from the empty set,
    every node, the sentinel included, caches the height
    [1 + max(height(left), height(right))] (an absent child counting 0)
    and satisfies [|height(left) - height(right)| <= 1]. *)
Theorem heights_and_balance (ops : list (op T)) :
  Z.of_nat (length ops) < max_ops ->
  exists s,
    run ops = Some s /\
    forall f l r,
      has (root_ s) (Node f l r) ->
      height f = 1 + Z.max (GetHeight l) (GetHeight r) /\
      Z.abs (GetHeight l - GetHeight r) <= 1.
Proof.
  intros Hb. destruct (run_Inv ops Hb) as (s & E & I & _).
  exists s. split; [exact E|]. intros f l r Hh.
  pose proof (avl_has _ _ _ _ (inv_avl s I) Hh) as Ha.
  cbn [avl] in Ha. tauto.
Qed.

End Reachable.

Section Shape.
Context {T : Type} `{Key T}.

Lemma less_asym (a b : T) : less a b = true -> less b a = false.
Proof.
  intros Hab. destruct (less b a) eqn:Hba; [|reflexivity].
  pose proof (less_trans _ _ _ Hab Hba) as C. rewrite less_irrefl in C.
  discriminate.
Qed.

(** the nodes of a sub-tree are consecutive in the traversal *)
Lemma has_segment (v t : node T) :
  has v t -> exists pre post, walk v = pre ++ walk t ++ post.
Proof.
  induction v as [|f l IHl r IHr]; cbn [has]; [tauto|].
  intros [->|[Hl|Hr]].
  - exists [], []. rewrite app_nil_r. reflexivity.
  - destruct (IHl Hl) as (pre & post & E).
    exists pre, (post ++ tag f :: walk r).
    rewrite walk_Node, E, <- !app_assoc. reflexivity.
  - destruct (IHr Hr) as (pre & post & E).
    exists (walk l ++ tag f :: pre), post.
    rewrite walk_Node, E, <- !app_assoc. reflexivity.
Qed.

Lemma ordered_has (v t : node T) : ordered (walk v) -> has v t -> ordered (walk t).
Proof.
  intros Ho Hh. destruct (has_segment v t Hh) as (pre & post & E).
  rewrite E in Ho. apply ordered_app in Ho as (_ & Ho & _).
  apply ordered_app in Ho as (Ho & _). exact Ho.
Qed.

Lemma FindEnd_last f (l r : node T) :
  exists fm ml,
    FindEnd (Node f l r) = Some (Node fm ml nullptr) /\
    has (Node f l r) (Node fm ml nullptr) /\
    exists pre, walk (Node f l r) = pre ++ [tag fm].
Proof.
  revert f l. induction r as [|fr rl _ rr IHr]; intros f l.
  - exists f, l. split; [reflexivity|]. split; [apply has_refl|].
    exists (walk l). rewrite walk_Node. reflexivity.
  - destruct (IHr fr rl) as (fm & ml & E & Hh & pre & Hw).
    exists fm, ml. split; [exact E|]. split; [cbn [has]; auto|].
    exists (walk l ++ tag f :: pre).
    rewrite walk_Node, Hw, <- app_assoc. reflexivity.
Qed.

(** the sentinel of a set and what lies below it *)
Lemma Inv_sentinel (s : Set_ T) :
  Inv s ->
  exists fS lS body,
    FindEnd (root_ s) = Some (Node fS lS nullptr) /\
    has (root_ s) (Node fS lS nullptr) /\
    is_end fS = true /\ end_ s = Some (self fS) /\
    walk (root_ s) = body ++ [tag fS] /\
    (forall x, In x body -> t_end x = false) /\
    elements s = map t_key body.
Proof.
  intros I. destruct (inv_end s I) as (aS & kS & Ee & Hin).
  destruct (walk_shape _ _ _ (inv_ord s I) Hin) as (body & Hw & Hb & Hk).
  destruct (root_ s) as [|f l r] eqn:Er; [destruct Hin|].
  destruct (FindEnd_last f l r) as (fm & ml & E & Hh & pre & Hw').
  rewrite Hw in Hw'. apply app_inj_tail in Hw' as [<- Et].
  exists fm, ml, body. unfold elements. rewrite Er, Hk, Hw, <- Et.
  unfold tag in Et. injection Et as Ea Ee' Ek.
  repeat split; auto. rewrite Ee, Ea. reflexivity.
Qed.

Lemma sentinel_unique (s : Set_ T) fS lS f l r :
  Inv s ->
  has (root_ s) (Node fS lS nullptr) -> is_end fS = true ->
  has (root_ s) (Node f l r) -> is_end f = true ->
  Node f l r = Node fS lS nullptr.
Proof.
  intros I HS ES Hh He.
  destruct (inv_end s I) as (aS & kS & _ & Hin).
  destruct (walk_shape _ _ _ (inv_ord s I) Hin) as (body & Hw & Hb & _).
  assert (Hlast : forall g gl gr, has (root_ s) (Node g gl gr) -> is_end g = true ->
                                  self g = aS).
  { intros g gl gr Hg Eg. apply has_In in Hg. rewrite Hw in Hg.
    apply in_app_or in Hg as [Hg|[Hg|[]]].
    - apply Hb in Hg. cbn in Hg. congruence.
    - injection Hg as <- _ _. reflexivity. }
  pose proof (has_deref _ _ _ _ (inv_nodup s I) Hh) as D1.
  pose proof (has_deref _ _ _ _ (inv_nodup s I) HS) as D2.
  rewrite (Hlast _ _ _ Hh He) in D1. rewrite (Hlast _ _ _ HS ES) in D2.
  congruence.
Qed.

(** C10.  In every reachable state, a left child of the sentinel is a
    leaf and holds the maximum key of the set. *)
Theorem sentinel_left_is_max_leaf (ops : list (op T)) :
  Z.of_nat (length ops) < max_ops ->
  exists s,
    run ops = Some s /\
    forall f l r,
      has (root_ s) (Node f l r) -> is_end f = true ->
      l = nullptr \/
      exists fl,
        l = Node fl nullptr nullptr /\ is_end fl = false /\
        In (key fl) (elements s) /\
        forall x, In x (elements s) -> less (key fl) x = false.
Proof.
  intros Hb. destruct (run_Inv ops Hb) as (s & E & I & _).
  exists s. split; [exact E|]. intros f l r Hh He.
  pose proof (avl_has _ _ _ _ (inv_avl s I) Hh) as Ha.
  pose proof (ordered_has _ _ (inv_ord s I) Hh) as Ho.
  destruct (end_shape _ _ _ Ha Ho He) as (-> & [->|(fl & -> & Hfl)]);
    [left; reflexivity|right].
  exists fl. split; [reflexivity|]. split; [exact Hfl|].
  destruct (has_segment _ _ Hh) as (pre & post & Hw).
  change (walk (Node f (Node fl nullptr nullptr) nullptr))
    with ([tag fl; tag f]) in Hw.
  cbn [app] in Hw.
  pose proof (inv_ord s I) as Hord. rewrite Hw in Hord.
  pose proof (ordered_mid _ _ _ Hord) as (_ & _ & Hpre & Hpost & _).
  assert (post = []) as ->.
  { destruct post as [|z post]; [reflexivity|].
    specialize (Hpost z (or_intror (or_introl eq_refl))).
    unfold before in Hpost. apply andb_true_iff in Hpost as [_ Hz].
    pose proof (ordered_end_last (pre ++ [tag fl]) (tag f) (z :: post)) as C.
    rewrite <- app_assoc in C. specialize (C Hord He). discriminate. }
  unfold elements. rewrite Hw. split.
  - apply In_keys_of. exists (self fl). apply in_or_app. right. left.
    unfold tag. rewrite Hfl. reflexivity.
  - intros x Hx. apply In_keys_of in Hx as (a & Hx).
    apply in_app_or in Hx as [Hx|[Hx|[Hx|[]]]].
    + specialize (Hpre _ Hx). unfold before in Hpre. cbn in Hpre.
      change (is_end fl) with (t_end (tag fl)) in Hfl.
      unfold t_end in Hfl. cbn in Hfl. rewrite Hfl in Hpre. cbn in Hpre.
      apply less_asym. exact Hpre.
    + injection Hx as _ _ <-. apply less_irrefl.
    + unfold tag in Hx. rewrite He in Hx. discriminate.
Qed.

End Shape.

Section Structure.
Context {T : Type} `{Key T}.

(** C6 (amended).  In every reachable state: below a key node the left
    sub-tree holds smaller keys only and the right sub-tree holds greater
    keys or the sentinel; there is exactly one sentinel, it is the node
    [end_] points to and the last node on the chain of right links from
    the root; the root is the sentinel whenever the set is empty, and only
    when the set holds at most one key. *)
Theorem search_tree_with_one_sentinel (ops : list (op T)) :
  Z.of_nat (length ops) < max_ops ->
  exists s,
    run ops = Some s /\
    (forall f l r,
       has (root_ s) (Node f l r) -> is_end f = false ->
       (forall x, In x (walk l) -> t_end x = false /\ less (t_key x) (key f) = true) /\
       (forall x, In x (walk r) -> t_end x = true \/ less (key f) (t_key x) = true)) /\
    (exists fS lS,
       FindEnd (root_ s) = Some (Node fS lS nullptr) /\
       is_end fS = true /\ end_ s = Some (self fS) /\
       forall f l r,
         has (root_ s) (Node f l r) -> is_end f = true ->
         Node f l r = Node fS lS nullptr) /\
    (size s = 0 -> root_is_end s = true) /\
    (root_is_end s = true -> size s <= 1).
Proof.
  intros Hb. destruct (run_Inv ops Hb) as (s & E & I & _).
  exists s. split; [exact E|].
  destruct (Inv_sentinel s I) as (fS & lS & body & EF & HS & ES & Ee & Hw & Hbody & Hel).
  split; [|split; [|split]].
  - intros f l r Hh He.
    pose proof (ordered_has _ _ (inv_ord s I) Hh) as Ho. rewrite walk_Node in Ho.
    apply ordered_mid in Ho as (_ & _ & Hl & Hr & _). split.
    + intros x Hx. specialize (Hl x Hx). unfold before in Hl.
      apply andb_true_iff in Hl as [Hx1 Hx2]. apply negb_true_iff in Hx1.
      split; [exact Hx1|].
      change (t_end (tag f)) with (is_end f) in Hx2. rewrite He in Hx2. exact Hx2.
    + intros x Hx. specialize (Hr x Hx). unfold before in Hr.
      change (t_end (tag f)) with (is_end f) in Hr. rewrite He in Hr.
      cbn in Hr. apply orb_true_iff in Hr. exact Hr.
  - exists fS, lS. repeat split; auto.
    intros f l r Hh He. eapply sentinel_unique; eassumption.
  - intros Hz. unfold size in Hz. rewrite (inv_size s I), Hel, length_map in Hz.
    destruct body as [|b body]; [|cbn in Hz; lia].
    cbn [app] in Hw. unfold root_is_end.
    destruct (root_ s) as [|f l r]; [discriminate|].
    rewrite walk_Node in Hw.
    destruct (walk l) as [|x xs].
    + injection Hw as _ Hf _ _. rewrite Hf. exact ES.
    + destruct xs; discriminate.
  - unfold root_is_end, size. intros Hr.
    pose proof (count_elements s I) as Hc. rewrite <- (inv_size s I) in Hc.
    pose proof (inv_avl s I) as Ha. pose proof (inv_ord s I) as Ho.
    destruct (root_ s) as [|f l r]; [discriminate|].
    destruct (end_shape _ _ _ Ha Ho Hr) as (-> & [->|(fl & -> & _)]);
      cbn in Hc; lia.
Qed.

End Structure.

(** C6 as stated fails: after one insertion the root is still the
    sentinel although the set is not empty. *)
Lemma root_sentinel_of_singleton :
  exists s : Set_ Z,
    run [OpInsert 1] = Some s /\ root_is_end s = true /\ size s = 1 /\
    ~ (root_is_end s = true <-> size s = 0).
Proof.
  eexists. split; [reflexivity|]. cbn. repeat split; try reflexivity.
  intros [Hc _]. specialize (Hc eq_refl). discriminate.
Qed.

(** ** Iterators *)

Section Cursor.
Context {T : Type} `{Key T}.

Lemma right_spine_depth (v : node T) : (right_spine v <= depth v)%nat.
Proof. induction v as [|f l _ r IHr]; cbn; lia. Qed.

Lemma GetLeftmost_first f (l r : node T) :
  exists fm mr rest,
    GetLeftmost (Node f l r) = Some (Node fm nullptr mr) /\
    has (Node f l r) (Node fm nullptr mr) /\
    walk (Node f l r) = tag fm :: rest.
Proof.
  revert f r. induction l as [|fl ll IHl lr _]; intros f r.
  - exists f, r, (walk r). split; [reflexivity|]. split; [apply has_refl|].
    rewrite walk_Node. reflexivity.
  - destruct (IHl fl lr) as (fm & mr & rest & E & Hh & Hw).
    exists fm, mr, (rest ++ tag f :: walk r).
    split; [exact E|]. split; [cbn [has]; auto|].
    rewrite walk_Node, Hw. reflexivity.
Qed.

Lemma FindMin_GetLeftmost (v : node T) : FindMin v = GetLeftmost v.
Proof. induction v as [|f l IHl r _]; [reflexivity|]. destruct l; auto. Qed.

(** Climbing from the rightmost node of a sub-tree [t] whose nodes all
    satisfy the loop condition leaves [t] through the parent of its root. *)
Lemma climb_right_spine (guard : bool) (h : node T) (k0 : T) :
  NoDup (addrs h) ->
  forall (t : node T) (p : ptr),
    has h t -> parents_ok p t ->
    (forall g, In g (walk t) -> t_end g = false /\ less k0 (t_key g) = false) ->
    forall fx lx, FindEnd t = Some (Node fx lx nullptr) ->
    forall n,
      climb_greater guard (n + right_spine t) h (Some (self fx)) k0 =
      match p with
      | Some pa => climb_greater guard n h (Some pa) k0
      | None => Some (addr_of t)
      end.
Proof.
  intros Hnd. induction t as [|f l _ r IHr]; intros p Hh Hp Hall fx lx Ex n;
    [discriminate|].
  cbn [parents_ok] in Hp. destruct Hp as (Hpf & _ & Hpr).
  assert (Hroot : forall m,
            climb_greater guard (S m) h (Some (self f)) k0 =
            match p with
            | Some pa => climb_greater guard m h (Some pa) k0
            | None => Some (Some (self f))
            end).
  { intros m. cbn [climb_greater bind].
    rewrite (has_deref _ _ _ _ Hnd Hh).
    destruct (Hall (tag f)) as (He & Hk).
    { rewrite walk_Node. apply in_or_app. right. left. reflexivity. }
    change (t_end (tag f)) with (is_end f) in He.
    change (t_key (tag f)) with (key f) in Hk.
    rewrite He, Hk, andb_false_r. cbn [negb andb]. rewrite Hpf. reflexivity. }
  destruct r as [|fr rl rr].
  - cbn in Ex. injection Ex as <- <-.
    cbn [right_spine]. rewrite Nat.add_1_r. apply Hroot.
  - change (FindEnd (Node f l (Node fr rl rr))) with (FindEnd (Node fr rl rr)) in Ex.
    replace (n + right_spine (Node f l (Node fr rl rr)))%nat
      with (S n + right_spine (Node fr rl rr))%nat by (cbn; lia).
    rewrite (IHr (Some (self f))) with (lx := lx); try assumption.
    + apply Hroot.
    + eapply has_trans; [exact Hh|]. cbn [has]. auto.
    + intros g Hg. apply Hall. rewrite walk_Node. apply in_or_app. right. right.
      exact Hg.
Qed.

(** [++] from a key node reaches the next node of the traversal *)
Lemma increment_next (h : node T) :
  NoDup (addrs h) ->
  forall (t : node T) (p : ptr),
    has h t -> parents_ok p t -> ordered (walk t) ->
    forall i x y,
      nth_error (walk t) i = Some x -> nth_error (walk t) (S i) = Some y ->
      t_end x = false ->
      forall fuel, (depth t <= fuel)%nat ->
        increment true fuel h (Some (t_addr x)) = Some (Some (t_addr y)).
Proof.
  intros Hnd. induction t as [|f l IHl r IHr];
    intros p Hh Hp Ho i x y Hx Hy He fuel Hfuel.
  { destruct i; discriminate. }
  cbn [parents_ok] in Hp. destruct Hp as (Hpf & Hpl & Hpr).
  assert (Hhl : forall u, has l u -> has h u).
  { intros u Hu. eapply has_trans; [exact Hh|]. cbn [has]. auto. }
  assert (Hhr : forall u, has r u -> has h u).
  { intros u Hu. eapply has_trans; [exact Hh|]. cbn [has]. auto. }
  rewrite walk_Node in Hx, Hy, Ho.
  pose proof (ordered_mid _ _ _ Ho) as (Hol & Hor & Hlf & Hfr & _).
  cbn [depth] in Hfuel.
  destruct (Nat.lt_trichotomy (S i) (length (walk l))) as [Hlt|[Heq|Hgt]].
  - (* both in the left sub-tree *)
    rewrite nth_error_app1 in Hx, Hy by lia.
    destruct l as [|fl ll lr]; [destruct i; discriminate|].
    apply (IHl (Some (self f))) with (i := i); auto.
    + apply Hhl. apply has_refl.
    + lia.
  - (* from the last node of the left sub-tree to the root *)
    rewrite nth_error_app1 in Hx by lia.
    rewrite nth_error_app2, Heq, Nat.sub_diag in Hy by lia.
    cbn in Hy. injection Hy as <-.
    destruct l as [|fl ll lr]; [discriminate|].
    destruct (FindEnd_last fl ll lr) as (fm & ml & Em & Hm & pre & Hw).
    rewrite Hw in Hx, Heq. rewrite length_app in Heq. cbn [length] in Heq.
    rewrite nth_error_app2 in Hx by lia.
    replace (i - length pre)%nat with O in Hx by lia.
    cbn in Hx. injection Hx as <-.
    change (t_end (tag fm)) with (is_end fm) in He.
    change (t_addr (tag fm)) with (self fm). change (t_addr (tag f)) with (self f).
    unfold increment. cbn [bind].
    rewrite (has_deref _ _ _ _ Hnd (Hhl _ Hm)), He.
    pose proof (right_spine_depth (Node fl ll lr)) as Hsp.
    replace fuel
      with (S (fuel - S (right_spine (Node fl ll lr)))
            + right_spine (Node fl ll lr))%nat by lia.
    rewrite (climb_right_spine true h (key fm) Hnd (Node fl ll lr) (Some (self f)))
      with (lx := ml); auto.
    + cbn [climb_greater bind]. rewrite (has_deref _ _ _ _ Hnd Hh).
      specialize (Hlf (tag fm)). rewrite Hw in Hlf.
      specialize (Hlf ltac:(apply in_or_app; right; left; reflexivity)).
      unfold before in Hlf.
      change (t_end (tag fm)) with (is_end fm) in Hlf. rewrite He in Hlf.
      cbn [negb andb] in Hlf.
      change (t_end (tag f)) with (is_end f) in Hlf.
      change (t_key (tag f)) with (key f) in Hlf.
      change (t_key (tag fm)) with (key fm) in Hlf.
      destruct (is_end f); [reflexivity|]. cbn in Hlf. rewrite Hlf. reflexivity.
    + apply Hhl. apply has_refl.
    + rewrite Hw. rewrite Hw in Hol. intros g Hg.
      apply in_app_or in Hg as [Hg|[<-|[]]].
      * pose proof (ordered_mid _ _ _ Hol) as (_ & _ & Hb & _).
        specialize (Hb g Hg). unfold before in Hb.
        apply andb_true_iff in Hb as [Hg1 Hg2]. apply negb_true_iff in Hg1.
        change (t_end (tag fm)) with (is_end fm) in Hg2. rewrite He in Hg2.
        split; [exact Hg1|]. apply less_asym. exact Hg2.
      * split; [exact He|]. apply less_irrefl.
  - destruct (Nat.eq_dec i (length (walk l))) as [Ei|Ei].
    + (* from the root to the first node of the right sub-tree *)
      rewrite nth_error_app2, Ei, Nat.sub_diag in Hx by lia.
      cbn in Hx. injection Hx as <-.
      rewrite nth_error_app2 in Hy by lia.
      replace (S i - length (walk l))%nat with 1%nat in Hy by lia.
      cbn in Hy.
      destruct r as [|fr rl rr]; [discriminate|].
      destruct (GetLeftmost_first fr rl rr) as (fm & mr & rest & Em & _ & Hw).
      rewrite Hw in Hy. cbn in Hy. injection Hy as <-.
      change (t_end (tag f)) with (is_end f) in He.
      change (t_addr (tag f)) with (self f).
      unfold increment. cbn [bind].
      rewrite (has_deref _ _ _ _ Hnd Hh), He, Em. reflexivity.
    + (* both in the right sub-tree *)
      rewrite nth_error_app2 in Hx, Hy by lia.
      replace (i - length (walk l))%nat with (S (i - length (walk l) - 1)) in Hx by lia.
      replace (S i - length (walk l))%nat with (S (S (i - length (walk l) - 1))) in Hy by lia.
      cbn [nth_error] in Hx, Hy.
      destruct r as [|fr rl rr];
        [destruct (i - length (walk l) - 1)%nat; discriminate|].
      apply (IHr (Some (self f))) with (i := (i - length (walk l) - 1)%nat); auto.
      * apply Hhr. apply has_refl.
      * lia.
Qed.

Lemma In_walk_has (v : node T) x :
  In x (walk v) -> exists f l r, has v (Node f l r) /\ tag f = x.
Proof.
  induction v as [|f l IHl r IHr]; [intros []|].
  rewrite walk_Node. intros Hx. apply in_app_or in Hx as [Hx|[<-|Hx]].
  - destruct (IHl Hx) as (g & gl & gr & Hg & Eg). exists g, gl, gr.
    split; [cbn [has]; auto|exact Eg].
  - exists f, l, r. split; [apply has_refl|reflexivity].
  - destruct (IHr Hx) as (g & gl & gr & Hg & Eg). exists g, gl, gr.
    split; [cbn [has]; auto|exact Eg].
Qed.

Lemma ordered_nth xs :
  ordered xs ->
  forall i j x y,
    (i < j)%nat -> nth_error xs i = Some x -> nth_error xs j = Some y ->
    before x y = true.
Proof.
  induction xs as [|z xs IH]; intros Ho i j x y Hij Hx Hy.
  - destruct i; discriminate.
  - cbn [ordered] in Ho. destruct Ho as (Hz & Hxs).
    destruct j as [|j]; [lia|]. cbn in Hy.
    destruct i as [|i].
    + cbn in Hx. injection Hx as <-. apply Hz. eapply nth_error_In; exact Hy.
    + cbn in Hx. apply (IH Hxs i j); auto. lia.
Qed.

Lemma advance_along (s : Set_ T) (fuel : nat) :
  Inv s -> (depth (root_ s) <= fuel)%nat ->
  forall n i x y,
    nth_error (walk (root_ s)) i = Some x ->
    nth_error (walk (root_ s)) (i + n) = Some y ->
    advance fuel n (root_ s) (Some (t_addr x)) = Some (Some (t_addr y)).
Proof.
  intros I Hfuel.
  destruct (Inv_sentinel s I) as (fS & lS & body & _ & HS & _ & _ & Hw & Hbody & _).
  pose proof (inv_nodup s I) as Hnd. pose proof (inv_par s I) as Hp.
  pose proof (inv_ord s I) as Ho.
  induction n as [|n IH]; intros i x y Hx Hy.
  - rewrite Nat.add_0_r, Hx in Hy. injection Hy as ->. reflexivity.
  - assert (Hlen : (i + S n < length (walk (root_ s)))%nat)
      by (apply nth_error_Some; congruence).
    destruct (nth_error (walk (root_ s)) (S i)) as [z|] eqn:Hz.
    2:{ apply nth_error_None in Hz. lia. }
    assert (Hex : t_end x = false).
    { apply Hbody. rewrite Hw in Hx, Hlen. rewrite length_app in Hlen. cbn in Hlen.
      rewrite nth_error_app1 in Hx by lia. eapply nth_error_In; exact Hx. }
    cbn [advance]. unfold SetTemplate_h.pre_incr.
    destruct (root_ s) as [|f l r] eqn:Er; [destruct i; discriminate|].
    rewrite (increment_next _ Hnd _ None (has_refl f l r) Hp Ho
               i x z Hx Hz Hex fuel Hfuel).
    cbn [bind]. apply (IH (S i)); [exact Hz|].
    replace (S i + n)%nat with (i + S n)%nat by lia. exact Hy.
Qed.

Lemma nth_error_map_Some {A B : Type} (g : A -> B) (xs : list A) i y :
  nth_error (map g xs) i = Some y -> exists x, nth_error xs i = Some x /\ g x = y.
Proof.
  rewrite nth_error_map. destruct (nth_error xs i) as [x|]; [|discriminate].
  intros [= <-]. exists x. auto.
Qed.

Lemma star_at (s : Set_ T) x :
  Inv s -> In x (walk (root_ s)) -> star s (Some (t_addr x)) = Some (t_key x).
Proof.
  intros I Hx. destruct (In_walk_has _ _ Hx) as (f & l & r & Hh & <-).
  unfold star. cbn [bind]. change (t_addr (tag f)) with (self f).
  rewrite (has_deref _ _ _ _ (inv_nodup s I) Hh). reflexivity.
Qed.

Lemma key_node_not_end (s : Set_ T) x :
  Inv s -> In x (walk (root_ s)) -> t_end x = false -> Some (t_addr x) <> end' s.
Proof.
  intros I Hx He.
  destruct (Inv_sentinel s I) as (fS & lS & body & _ & _ & ES & Ee & Hw & _ & _).
  unfold end'. rewrite Ee. intros [= Ea].
  pose proof (inv_nodup s I) as Hnd. unfold addrs in Hnd.
  rewrite Hw in Hx, Hnd. rewrite map_app in Hnd. cbn [map] in Hnd.
  apply NoDup_remove_2 in Hnd. rewrite app_nil_r in Hnd.
  apply in_app_or in Hx as [Hx|[<-|[]]].
  - apply Hnd. change (t_addr (tag fS)) with (self fS). rewrite <- Ea.
    apply in_map. exact Hx.
  - change (t_end (tag fS)) with (is_end fS) in He. congruence.
Qed.

Lemma begin_first (s : Set_ T) :
  Inv s ->
  exists x, nth_error (walk (root_ s)) 0 = Some x /\ begin s = Some (Some (t_addr x)).
Proof.
  intros I. unfold begin.
  destruct (inv_end s I) as (aS & kS & _ & Hin).
  destruct (root_ s) as [|f l r]; [destruct Hin|].
  destruct (GetLeftmost_first f l r) as (fm & mr & rest & Em & _ & Hw).
  rewrite FindMin_GetLeftmost, Em, Hw. exists (tag fm). auto.
Qed.

(** X24.  On a set reached from the empty set by [insert] and [erase],
    [begin()] followed by prefix increments
    visits the keys held by the set, in strictly increasing order, and
    after exactly [size()] increments the cursor is [end()]. *)
Theorem iteration_visits_keys_in_order (ops : list (op T)) :
  Z.of_nat (length ops) < max_ops ->
  exists s,
    run ops = Some s /\
    size s = Z.of_nat (length (elements s)) /\
    (forall k, In k (elements s) <-> find k s <> end' s) /\
    (forall i j x y,
       (i < j)%nat -> nth_error (elements s) i = Some x ->
       nth_error (elements s) j = Some y -> less x y = true) /\
    forall fuel, (depth (root_ s) <= fuel)%nat ->
      exists b,
        begin s = Some b /\
        (forall i x,
           nth_error (elements s) i = Some x ->
           exists it, advance fuel i (root_ s) b = Some it /\
                      it <> end' s /\ star s it = Some x) /\
        advance fuel (length (elements s)) (root_ s) b = Some (end' s) /\
        (size s = 0 -> b = end' s).
Proof.
  intros Hb. destruct (run_Inv ops Hb) as (s & E & I & _).
  exists s. split; [exact E|]. split; [apply (inv_size s I)|].
  destruct (Inv_sentinel s I) as (fS & lS & body & _ & HS & ES & Ee & Hw & Hbody & Hel).
  split; [|split].
  - intros k. rewrite find_contains by exact I.
    symmetry. apply contains_elements. exact I.
  - intros i j x y Hij Hx Hy. rewrite Hel in Hx, Hy.
    apply nth_error_map_Some in Hx as (x' & Hx & <-).
    apply nth_error_map_Some in Hy as (y' & Hy & <-).
    pose proof (inv_ord s I) as Ho. rewrite Hw in Ho.
    apply ordered_app in Ho as (Ho & _).
    pose proof (ordered_nth _ Ho i j x' y' Hij Hx Hy) as Hbf.
    unfold before in Hbf.
    rewrite (Hbody x' (nth_error_In _ _ Hx)), (Hbody y' (nth_error_In _ _ Hy)) in Hbf.
    exact Hbf.
  - intros fuel Hfuel.
    destruct (begin_first s I) as (x0 & Hx0 & Eb).
    exists (Some (t_addr x0)). split; [exact Eb|].
    assert (Hlen : length (elements s) = length body)
      by (rewrite Hel; apply length_map).
    assert (Hlast : nth_error (walk (root_ s)) (length body) = Some (tag fS)).
    { rewrite Hw, nth_error_app2, Nat.sub_diag by lia. reflexivity. }
    assert (Hend : advance fuel (length (elements s)) (root_ s) (Some (t_addr x0))
                   = Some (end' s)).
    { rewrite Hlen. unfold end'. rewrite Ee.
      apply (advance_along s fuel I Hfuel (length body) 0 x0 (tag fS)); auto. }
    split; [|split; [exact Hend|]].
    + intros i x Hx. rewrite Hel in Hx.
      apply nth_error_map_Some in Hx as (x' & Hx & <-).
      assert (Hx' : nth_error (walk (root_ s)) i = Some x').
      { rewrite Hw, nth_error_app1; [exact Hx|]. apply nth_error_Some. congruence. }
      exists (Some (t_addr x')).
      split; [apply (advance_along s fuel I Hfuel i 0 x0 x'); auto|].
      split.
      * apply key_node_not_end; [exact I|eapply nth_error_In; exact Hx'|].
        apply Hbody. eapply nth_error_In; exact Hx.
      * apply star_at; [exact I|eapply nth_error_In; exact Hx'].
    + intros Hz. unfold size in Hz. rewrite (inv_size s I) in Hz.
      destruct (elements s); [|discriminate]. cbn in Hend. congruence.
Qed.

(** every node but the root is a child of the node its parent link names *)
Lemma has_parent (v : node T) (p : ptr) f l r :
  parents_ok p v -> has v (Node f l r) ->
  (v = Node f l r /\ parent f = p) \/
  exists fP lP rP,
    has v (Node fP lP rP) /\ parent f = Some (self fP) /\
    (lP = Node f l r \/ rP = Node f l r).
Proof.
  revert p. induction v as [|f0 l0 IHl r0 IHr]; intros p Hp Hh; [destruct Hh|].
  cbn [parents_ok] in Hp. destruct Hp as (Hp0 & Hpl & Hpr).
  cbn [has] in Hh. destruct Hh as [E|[Hl|Hr]].
  - left. injection E as -> -> ->. auto.
  - right. destruct (IHl _ Hpl Hl) as [(-> & Ep)|(fP & lP & rP & HP & Ep & Hc)].
    + exists f0, (Node f l r), r0. split; [apply has_refl|]. auto.
    + exists fP, lP, rP. split; [cbn [has]; auto|]. auto.
  - right. destruct (IHr _ Hpr Hr) as [(-> & Ep)|(fP & lP & rP & HP & Ep & Hc)].
    + exists f0, l0, (Node f l r). split; [apply has_refl|]. auto.
    + exists fP, lP, rP. split; [cbn [has]; auto|]. auto.
Qed.

(** the node just before the sentinel holds the maximum key *)
Lemma before_sentinel_is_max (s : Set_ T) pre g fS :
  Inv s -> walk (root_ s) = pre ++ [tag g; tag fS] -> is_end fS = true ->
  Some (self g) <> end' s /\ star s (Some (self g)) = Some (key g) /\
  In (key g) (elements s) /\
  forall y, In y (elements s) -> less (key g) y = false.
Proof.
  intros I Hw ES.
  assert (Hin : In (tag g) (walk (root_ s)))
    by (rewrite Hw; apply in_or_app; right; left; reflexivity).
  pose proof (inv_ord s I) as Ho. rewrite Hw in Ho.
  assert (Hg : is_end g = false).
  { apply (ordered_not_end (pre ++ [tag g]) (tag fS) [] (tag g)).
    - rewrite <- app_assoc. exact Ho.
    - apply in_or_app. right. left. reflexivity. }
  split; [apply (key_node_not_end s (tag g) I Hin Hg)|].
  split; [apply (star_at s (tag g) I Hin)|].
  unfold elements. rewrite Hw. split.
  - apply In_keys_of. exists (self g). apply in_or_app. right. left.
    unfold tag. rewrite Hg. reflexivity.
  - intros y Hy. apply In_keys_of in Hy as (a & Hy).
    apply in_app_or in Hy as [Hy|[Hy|[Hy|[]]]].
    + apply ordered_mid in Ho as (_ & _ & Hpre & _).
      specialize (Hpre _ Hy). unfold before in Hpre. cbn in Hpre.
      rewrite Hg in Hpre. cbn in Hpre. apply less_asym. exact Hpre.
    + injection Hy as _ _ <-. apply less_irrefl.
    + unfold tag in Hy. rewrite ES in Hy. discriminate.
Qed.

(** X25.  On a non-empty set reached from the empty set by [insert] and
    [erase], one decrement from [end()] (in
    either file) yields the position of the maximum key: the left child
    of the sentinel when there is one, the parent of the sentinel
    otherwise. *)
Theorem decrement_from_end_is_max (ops : list (op T)) :
  Z.of_nat (length ops) < max_ops ->
  exists s,
    run ops = Some s /\
    (size s <> 0 ->
     forall fuel,
     exists aS fS lS it x,
       end' s = Some aS /\ deref (root_ s) aS = Node fS lS nullptr /\
       it = match lS with
            | Node fl _ _ => Some (self fl)
            | nullptr => parent fS
            end /\
       SetTemplate_h.pre_decr fuel (root_ s) (end' s) = Some it /\
       Part_000.pre_decr fuel (root_ s) (end' s) = Some it /\
       it <> end' s /\ star s it = Some x /\
       In x (elements s) /\
       forall y, In y (elements s) -> less x y = false).
Proof.
  intros Hb. destruct (run_Inv ops Hb) as (s & E & I & _).
  exists s. split; [exact E|]. intros Hne fuel.
  destruct (Inv_sentinel s I) as (fS & lS & body & _ & HS & ES & Ee & Hw & Hbody & Hel).
  pose proof (has_deref _ _ _ _ (inv_nodup s I) HS) as HD.
  pose proof (avl_has _ _ _ _ (inv_avl s I) HS) as Ha.
  pose proof (ordered_has _ _ (inv_ord s I) HS) as Ho.
  pose proof (inv_ord s I) as Hord.
  assert (Hdecr :
            SetTemplate_h.pre_decr fuel (root_ s) (end' s) =
            Some (match lS with Node fl _ _ => Some (self fl) | nullptr => parent fS end)
            /\ Part_000.pre_decr fuel (root_ s) (end' s) =
            Some (match lS with Node fl _ _ => Some (self fl) | nullptr => parent fS end)).
  { unfold SetTemplate_h.pre_decr, Part_000.pre_decr, end'. rewrite Ee.
    cbn [bind]. rewrite HD, ES. destruct lS; auto. }
  destruct Hdecr as (Hd1 & Hd2).
  assert (exists pre g,
            walk (root_ s) = pre ++ [tag g; tag fS] /\
            Some (self g) =
            match lS with Node fl _ _ => Some (self fl) | nullptr => parent fS end)
    as (pre & g & Hwg & Hit).
  { destruct (end_shape _ _ _ Ha Ho ES) as (_ & [->|(fl & -> & Hfl)]).
    - (* no left child: the parent *)
      destruct (has_parent _ None _ _ _ (inv_par s I) HS)
        as [(Er & _)|(fP & lP & rP & HP & Ep & Hc)].
      + exfalso. rewrite Er in Hw. cbn in Hw.
        destruct body as [|b [|b' body]]; try discriminate.
        apply Hne. unfold size. rewrite (inv_size s I), Hel. reflexivity.
      + destruct (has_segment _ _ HP) as (pre & post & HwP).
        rewrite walk_Node in HwP. destruct Hc as [-> | ->].
        * exfalso. cbn [walk inorder map app] in HwP.
          rewrite HwP in Hord.
          pose proof (ordered_end_last pre (tag fS) _ Hord ES). discriminate.
        * change (walk (Node fS nullptr nullptr)) with [tag fS] in HwP.
          rewrite <- !app_assoc in HwP. cbn [app] in HwP.
          assert (post = []) as ->.
          { rewrite HwP in Hord.
            pose proof (ordered_end_last (pre ++ walk lP ++ [tag fP]) (tag fS) post) as C.
            rewrite <- !app_assoc in C. cbn [app] in C. exact (C Hord ES). }
          exists (pre ++ walk lP), fP. rewrite HwP, <- app_assoc. auto.
    - (* the left child *)
      destruct (has_segment _ _ HS) as (pre & post & HwS).
      change (walk (Node fS (Node fl nullptr nullptr) nullptr))
        with [tag fl; tag fS] in HwS. cbn [app] in HwS.
      assert (post = []) as ->.
      { rewrite HwS in Hord.
        pose proof (ordered_end_last (pre ++ [tag fl]) (tag fS) post) as C.
        rewrite <- !app_assoc in C. cbn [app] in C. exact (C Hord ES). }
      exists pre, fl. auto. }
  destruct (before_sentinel_is_max s pre g fS I Hwg ES) as (Hn & Hst & Hin & Hmax).
  exists (self fS), fS, lS, (Some (self g)), (key g).
  rewrite Hit in *. unfold end' at 1. repeat split; auto.
Qed.

End Cursor.

(** ** [lower_bound] *)

Section LowerBoundSpec.
Context {T : Type} `{Key T}.

Lemma lbpos_stop_mid k xs y ys :
  stop k y = true -> lbpos k (xs ++ y :: ys) = lbpos k xs.
Proof.
  intros Hy. induction xs as [|x xs IH]; cbn [app lbpos].
  - rewrite Hy. reflexivity.
  - destruct (stop k x); [reflexivity|]. rewrite IH. reflexivity.
Qed.

Lemma lbpos_pass k xs ys :
  (forall x, In x xs -> stop k x = false) ->
  lbpos k (xs ++ ys) = (length xs + lbpos k ys)%nat.
Proof.
  induction xs as [|x xs IH]; intros Hxs; cbn [app lbpos length]; [reflexivity|].
  rewrite (Hxs x (or_introl eq_refl)), IH; [reflexivity|].
  intros z Hz. apply Hxs. cbn. auto.
Qed.

Lemma lbpos_before k xs i x :
  (i < lbpos k xs)%nat -> nth_error xs i = Some x -> stop k x = false.
Proof.
  revert i. induction xs as [|z xs IH]; intros i Hi Hx; cbn [lbpos] in Hi; [lia|].
  destruct (stop k z) eqn:Hz; [lia|].
  destruct i as [|i]; cbn in Hx.
  - injection Hx as <-. exact Hz.
  - apply (IH i); [lia|exact Hx].
Qed.

Lemma lbpos_at k xs x :
  nth_error xs (lbpos k xs) = Some x -> stop k x = true.
Proof.
  induction xs as [|z xs IH]; cbn [lbpos]; [discriminate|].
  destruct (stop k z) eqn:Hz; cbn.
  - intros [= <-]. exact Hz.
  - exact IH.
Qed.

(** The raw descent ends on the node at [lbpos], or on the node just
    before it. *)
Lemma LowerBound_pos (k : T) (v : node T) :
  forall f l r (par : ptr),
    v = Node f l r -> avl v -> ordered (walk v) ->
    exists i x,
      nth_error (walk v) i = Some x /\
      LowerBound v par k = Some (t_addr x) /\
      (i = lbpos k (walk v) \/ S i = lbpos k (walk v)).
Proof.
  induction v as [|f0 l0 IHl r0 IHr]; intros f l r par Ev Ha Ho; [discriminate|].
  injection Ev as -> -> ->.
  cbn [LowerBound]. destruct (is_end f) eqn:He.
  - destruct (end_shape _ _ _ Ha Ho He) as (-> & [->|(fl & -> & Hfl)]).
    + exists 0%nat, (tag f). cbn. unfold stop, tag. cbn. rewrite He. auto.
    + destruct (less (key fl) k) eqn:Hlk; cbn [negb].
      * exists 1%nat, (tag f). cbn. unfold stop, tag. cbn.
        rewrite Hfl, Hlk, He. cbn. auto.
      * exists 0%nat, (tag fl). cbn. unfold stop, tag. cbn.
        rewrite Hfl, Hlk. cbn. auto.
  - pose proof Ho as Ho'. rewrite walk_Node in Ho'.
    pose proof (ordered_mid _ _ _ Ho') as (Hol & Hor & Hlf & Hfr & _).
    cbn [avl] in Ha. destruct Ha as (_ & _ & Hal & Har).
    assert (Hleft : forall x, In x (walk l) ->
                              t_end x = false /\ less (t_key x) (key f) = true).
    { intros x Hx. specialize (Hlf x Hx). unfold before in Hlf.
      apply andb_true_iff in Hlf as [Hx1 Hx2]. apply negb_true_iff in Hx1.
      change (t_end (tag f)) with (is_end f) in Hx2. rewrite He in Hx2.
      auto. }
    rewrite walk_Node.
    destruct (less k (key f)) eqn:Hkf; [|destruct (less (key f) k) eqn:Hfk].
    + (* to the left *)
      assert (Hs : stop k (tag f) = true).
      { unfold stop. change (t_key (tag f)) with (key f).
        rewrite (less_asym _ _ Hkf). apply orb_true_r. }
      rewrite (lbpos_stop_mid k (walk l) (tag f) (walk r) Hs).
      destruct l as [|fl ll lr].
      * exists 0%nat, (tag f). cbn. auto.
      * destruct (IHl fl ll lr (Some (self f)) eq_refl Hal Hol)
          as (i & x & Hx & El & Hi).
        exists i, x. split; [|split; [exact El|exact Hi]].
        rewrite nth_error_app1; [exact Hx|]. apply nth_error_Some. congruence.
    + (* to the right *)
      assert (Hpass : forall x, In x (walk l) -> stop k x = false).
      { intros x Hx. destruct (Hleft x Hx) as (Hx1 & Hx2). unfold stop.
        rewrite Hx1, (less_trans _ _ _ Hx2 Hfk). reflexivity. }
      assert (Hs : stop k (tag f) = false).
      { unfold stop. change (t_key (tag f)) with (key f).
        change (t_end (tag f)) with (is_end f). rewrite He, Hfk. reflexivity. }
      rewrite (lbpos_pass k (walk l) _ Hpass). cbn [lbpos]. rewrite Hs.
      destruct r as [|fr rl rr].
      * exists (length (walk l)), (tag f).
        rewrite nth_error_app2, Nat.sub_diag by lia. cbn. split; [reflexivity|].
        split; [reflexivity|]. right. lia.
      * destruct (IHr fr rl rr (Some (self f)) eq_refl Har Hor)
          as (i & x & Hx & Er & Hi).
        exists (length (walk l) + S i)%nat, x. split; [|split; [exact Er|lia]].
        rewrite nth_error_app2 by lia.
        replace (length (walk l) + S i - length (walk l))%nat with (S i) by lia.
        exact Hx.
    + (* found *)
      pose proof (less_total _ _ Hkf Hfk) as Ek.
      assert (Hpass : forall x, In x (walk l) -> stop k x = false).
      { intros x Hx. destruct (Hleft x Hx) as (Hx1 & Hx2). unfold stop.
        rewrite Hx1, Ek, Hx2. reflexivity. }
      assert (Hs : stop k (tag f) = true).
      { unfold stop. change (t_key (tag f)) with (key f). rewrite Hfk.
        apply orb_true_r. }
      rewrite (lbpos_pass k (walk l) _ Hpass). cbn [lbpos]. rewrite Hs.
      exists (length (walk l)), (tag f).
      rewrite nth_error_app2, Nat.sub_diag by lia. cbn. split; [reflexivity|].
      split; [reflexivity|]. left. lia.
Qed.

Lemma ptr_eqb_neq (p q : ptr) : p <> q -> ptr_eqb p q = false.
Proof.
  destruct p as [a|], q as [b|]; cbn; try reflexivity; try congruence.
  intros Hn. apply Nat.eqb_neq. congruence.
Qed.

Lemma ptr_eqb_refl (p : ptr) : ptr_eqb p p = true.
Proof. destruct p; cbn; [apply Nat.eqb_refl|reflexivity]. Qed.

(** at the node of [lbpos] the loop of [lower_bound] does not iterate *)
Lemma sweep_at_lbpos (s : Set_ T) (k : T) x fuel :
  Inv s -> nth_error (walk (root_ s)) (lbpos k (walk (root_ s))) = Some x ->
  sweep (S fuel) s (Some (t_addr x)) k = Some (Some (t_addr x), O).
Proof.
  intros I Hx. pose proof (lbpos_at _ _ _ Hx) as Hs.
  cbn [sweep]. destruct (t_end x) eqn:He.
  - destruct (Inv_sentinel s I) as (fS & lS & body & _ & _ & ES & Ee & Hw & Hbody & _).
    assert (x = tag fS) as ->.
    { apply nth_error_In in Hx. rewrite Hw in Hx.
      apply in_app_or in Hx as [Hx|[<-|[]]]; [|reflexivity].
      rewrite (Hbody x Hx) in He. discriminate. }
    rewrite Ee. change (t_addr (tag fS)) with (self fS).
    rewrite ptr_eqb_refl. reflexivity.
  - rewrite ptr_eqb_neq
      by (apply (key_node_not_end s x I (nth_error_In _ _ Hx) He)).
    rewrite (star_at s x I (nth_error_In _ _ Hx)). cbn [bind].
    unfold stop in Hs. rewrite He in Hs. cbn in Hs. apply negb_true_iff in Hs.
    rewrite Hs. reflexivity.
Qed.

(** What [lower_bound] does: the raw descent ends at index [i], the
    loop makes [n] increments and ends at the node of [lbpos]. *)
Lemma lower_bound_run (s : Set_ T) (k : T) (fuel : nat) :
  Inv s -> (depth (root_ s) < fuel)%nat ->
  exists i x xj n,
    nth_error (walk (root_ s)) i = Some x /\
    LowerBound (root_ s) None k = Some (t_addr x) /\
    nth_error (walk (root_ s)) (lbpos k (walk (root_ s))) = Some xj /\
    lower_bound_steps fuel s k = Some (Some (t_addr xj), n) /\
    ((x = xj /\ n = O) \/
     (n = 1%nat /\ t_end x = false /\ less (t_key x) k = true /\
      SetTemplate_h.pre_incr fuel (root_ s) (Some (t_addr x)) = Some (Some (t_addr xj)))).
Proof.
  intros I Hfuel.
  pose proof (inv_nodup s I) as Hnd. pose proof (inv_par s I) as Hp.
  pose proof (inv_ord s I) as Ho. pose proof (inv_avl s I) as Ha.
  destruct (Inv_sentinel s I) as (fS & lS & body & _ & _ & ES & _ & Hw & _ & _).
  assert (exists f l r, root_ s = Node f l r) as (f & l & r & Er).
  { destruct (root_ s) as [|f l r]; [destruct body; discriminate|eauto]. }
  assert (Hroot : has (root_ s) (root_ s)) by (rewrite Er; apply has_refl).
  unfold lower_bound_steps.
  destruct (LowerBound_pos k (root_ s) f l r None Er Ha Ho)
    as (i & x & Hx & EL & Hi).
  rewrite EL.
  destruct fuel as [|fuel]; [lia|].
  destruct Hi as [Hi|Hi].
  - exists i, x, x, O. rewrite <- Hi. repeat split; auto.
    apply sweep_at_lbpos; [exact I|]. rewrite <- Hi. exact Hx.
  - destruct (nth_error (walk (root_ s)) (lbpos k (walk (root_ s))))
      as [xj|] eqn:Hxj.
    2:{ exfalso. apply nth_error_None in Hxj. rewrite Hw in Hxj.
        rewrite (lbpos_stop_mid k body (tag fS) []) in Hxj
          by (unfold stop; change (t_end (tag fS)) with (is_end fS);
              rewrite ES; reflexivity).
        rewrite length_app in Hxj. cbn in Hxj.
        assert (lbpos k body <= length body)%nat.
        { clear. induction body as [|b body IH]; cbn; [lia|].
          destruct (stop k b); lia. }
        lia. }
    pose proof (lbpos_before k (walk (root_ s)) i x ltac:(lia) Hx) as Hsx.
    unfold stop in Hsx. apply orb_false_iff in Hsx as [Hex Hlx].
    apply negb_false_iff in Hlx.
    assert (Hinc : increment true (S fuel) (root_ s) (Some (t_addr x))
                   = Some (Some (t_addr xj))).
    { apply (increment_next _ Hnd _ None Hroot Hp Ho i x xj); auto.
      - rewrite Hi. exact Hxj.
      - lia. }
    exists i, x, xj, 1%nat. split; [exact Hx|]. split; [reflexivity|].
    split; [reflexivity|]. split; [|right; repeat split; auto].
    cbn [sweep].
    rewrite ptr_eqb_neq
      by (apply (key_node_not_end s x I); [eapply nth_error_In; exact Hx|exact Hex]).
    rewrite (star_at s x I) by (eapply nth_error_In; exact Hx).
    cbn [bind]. rewrite Hlx, Hinc. cbn [bind].
    destruct fuel as [|fuel]; [rewrite Er in Hfuel; cbn in Hfuel; lia|].
    rewrite (sweep_at_lbpos s k xj fuel I); [reflexivity|]. exact Hxj.
Qed.

(** X23.  On a set reached from the empty set by [insert] and [erase],
    [lower_bound(k)] returns the position of
    the least key that is not less than [k], and [end()] when every key
    is less than [k] (in particular on the empty set). *)
Theorem lower_bound_least_not_less (ops : list (op T)) (k : T) :
  Z.of_nat (length ops) < max_ops ->
  exists s,
    run ops = Some s /\
    forall fuel, (depth (root_ s) < fuel)%nat ->
      exists it,
        lower_bound fuel s k = Some it /\
        ((it = end' s /\ forall y, In y (elements s) -> less y k = true) \/
         (it <> end' s /\
          exists x,
            star s it = Some x /\ In x (elements s) /\ less x k = false /\
            forall y, In y (elements s) -> less y k = false -> less y x = false)) /\
        ((forall y, In y (elements s) -> less y k = true) -> it = end' s).
Proof.
  intros Hb. destruct (run_Inv ops Hb) as (s & E & I & _).
  exists s. split; [exact E|]. intros fuel Hfuel.
  destruct (lower_bound_run s k fuel I Hfuel)
    as (i & x & xj & n & _ & _ & Hxj & Hrun & _).
  exists (Some (t_addr xj)). unfold lower_bound. rewrite Hrun.
  split; [reflexivity|].
  match goal with
  | |- ?A /\ ?B => assert (HA : A); [|split; [exact HA|]]
  end.
  2:{ intros Hall. destruct HA as [(Hit & _)|(_ & x' & _ & Hin' & Hx' & _)];
        [exact Hit|].
      rewrite (Hall x' Hin') in Hx'. discriminate. }
  destruct (Inv_sentinel s I) as (fS & lS & body & _ & _ & ES & Ee & Hw & Hbody & Hel).
  pose proof (lbpos_at _ _ _ Hxj) as Hstop.
  pose proof (inv_ord s I) as Ho.
  assert (Hkeys : forall y, In y (elements s) ->
            exists m b, nth_error (walk (root_ s)) m = Some b /\
                        t_end b = false /\ t_key b = y).
  { intros y Hy. rewrite Hel in Hy. apply in_map_iff in Hy as (b & <- & Hb').
    destruct (In_nth_error _ _ Hb') as (m & Hm). exists m, b.
    split; [|split; [apply Hbody; exact Hb'|reflexivity]].
    rewrite Hw, nth_error_app1; [exact Hm|]. apply nth_error_Some. congruence. }
  destruct (t_end xj) eqn:Hej.
  - left. split.
    + unfold end'. rewrite Ee. f_equal.
      apply nth_error_In in Hxj. rewrite Hw in Hxj.
      apply in_app_or in Hxj as [Hxj|[<-|[]]]; [|reflexivity].
      rewrite (Hbody _ Hxj) in Hej. discriminate.
    + intros y Hy. destruct (Hkeys y Hy) as (m & b & Hm & Heb & <-).
      destruct (Nat.lt_ge_cases m (lbpos k (walk (root_ s)))) as [Hlt|Hge].
      * pose proof (lbpos_before k _ m b Hlt Hm) as Hs. unfold stop in Hs.
        rewrite Heb in Hs. cbn in Hs. apply negb_false_iff in Hs. exact Hs.
      * exfalso. destruct (Nat.eq_dec m (lbpos k (walk (root_ s)))) as [->|Hne].
        -- congruence.
        -- pose proof (ordered_nth _ Ho (lbpos k (walk (root_ s))) m xj b ltac:(lia) Hxj Hm) as Hbf.
           unfold before in Hbf. rewrite Hej in Hbf. discriminate.
  - right. split.
    + apply key_node_not_end; [exact I|eapply nth_error_In; exact Hxj|exact Hej].
    + exists (t_key xj). split; [|split; [|split]].
      * apply star_at; [exact I|eapply nth_error_In; exact Hxj].
      * unfold elements. apply In_keys_of. exists (t_addr xj).
        apply nth_error_In in Hxj. destruct xj as [[a e] kx]. cbn in Hej.
        subst e. exact Hxj.
      * unfold stop in Hstop. rewrite Hej in Hstop. cbn in Hstop.
        apply negb_true_iff. exact Hstop.
      * intros y Hy Hyk. destruct (Hkeys y Hy) as (m & b & Hm & Heb & <-).
        destruct (Nat.lt_ge_cases m (lbpos k (walk (root_ s)))) as [Hlt|Hge].
        -- pose proof (lbpos_before k _ m b Hlt Hm) as Hs. unfold stop in Hs.
           rewrite Heb, Hyk in Hs. discriminate.
        -- destruct (Nat.eq_dec m (lbpos k (walk (root_ s)))) as [->|Hne].
           ++ rewrite Hxj in Hm. injection Hm as ->. apply less_irrefl.
           ++ pose proof (ordered_nth _ Ho (lbpos k (walk (root_ s))) m xj b ltac:(lia) Hxj Hm) as Hbf.
              unfold before in Hbf. rewrite Hej, Heb in Hbf. cbn in Hbf.
              apply less_asym. exact Hbf.
Qed.

(** X26.  On a set reached from the empty set by [insert] and [erase]
    the raw descent [LowerBound] returns a node: either the position
    [lower_bound] returns, and then the loop of [lower_bound] makes no
    iteration, or a key node whose key is less than [k] and whose
    prefix increment is the position [lower_bound] returns, and then the
    loop makes exactly one iteration.  Either way the position
    [lower_bound] returns is [end()] or holds a key not less than [k]. *)
Theorem raw_descent_within_one_step (ops : list (op T)) (k : T) :
  Z.of_nat (length ops) < max_ops ->
  exists s raw,
    run ops = Some s /\
    LowerBound (root_ s) None k = Some raw /\
    forall fuel, (depth (root_ s) < fuel)%nat ->
      exists it n,
        lower_bound_steps fuel s k = Some (it, n) /\
        lower_bound fuel s k = Some it /\
        (it = end' s \/ exists x, star s it = Some x /\ less x k = false) /\
        ((n = O /\ it = Some raw) \/
         (n = 1%nat /\ Some raw <> end' s /\
          (exists x, star s (Some raw) = Some x /\ less x k = true) /\
          SetTemplate_h.pre_incr fuel (root_ s) (Some raw) = Some it)).
Proof.
  intros Hb. destruct (run_Inv ops Hb) as (s & E & I & _).
  destruct (lower_bound_run s k (S (depth (root_ s))) I ltac:(lia))
    as (i0 & x0 & _ & _ & _ & EL0 & _).
  exists s, (t_addr x0). split; [exact E|]. split; [exact EL0|].
  intros fuel Hfuel.
  destruct (lower_bound_run s k fuel I Hfuel)
    as (i & x & xj & n & Hx & EL & Hxj & Hrun & Hcase).
  rewrite EL0 in EL. injection EL as Ea.
  exists (Some (t_addr xj)), n. split; [exact Hrun|].
  split; [unfold lower_bound; rewrite Hrun; reflexivity|]. split.
  { pose proof (lbpos_at _ _ _ Hxj) as Hstop. unfold stop in Hstop.
    destruct (t_end xj) eqn:Hej.
    - left.
      destruct (Inv_sentinel s I)
        as (fS & lS & body & _ & _ & _ & Ee & Hw & Hbody & _).
      unfold end'. rewrite Ee. f_equal.
      apply nth_error_In in Hxj. rewrite Hw in Hxj.
      apply in_app_or in Hxj as [Hxj|[<-|[]]]; [|reflexivity].
      rewrite (Hbody _ Hxj) in Hej. discriminate.
    - right. exists (t_key xj). split.
      + apply star_at; [exact I|eapply nth_error_In; exact Hxj].
      + cbn in Hstop. apply negb_true_iff. exact Hstop. }
  destruct Hcase as [(-> & ->)|(-> & Hex & Hlx & Hinc)].
  - left. rewrite Ea. auto.
  - right. rewrite Ea. split; [reflexivity|]. split; [|split].
    + apply key_node_not_end; [exact I|eapply nth_error_In; exact Hx|exact Hex].
    + exists (t_key x). split; [|exact Hlx].
      apply star_at; [exact I|eapply nth_error_In; exact Hx].
    + exact Hinc.
Qed.

End LowerBoundSpec.

(** C8 fails on the code: on the set {1, 3} the raw descent for 2 ends
    on the node of key 1, a key less than 2, although the comment of
    [LowerBound] promises the node of the least key not less than the
    given one; the loop of [lower_bound] makes one iteration to reach
    the node of key 3. *)
Lemma raw_descent_returns_smaller_key :
  exists (s : Set_ Z) raw,
    run [OpInsert 1; OpInsert 3] = Some s /\
    LowerBound (root_ s) None 2 = Some raw /\
    Some raw <> end' s /\
    star s (Some raw) = Some 1 /\ less 1 2 = true /\
    lower_bound_steps 5 s 2 = Some (find 3 s, 1%nat).
Proof.
  eexists. eexists. split; [reflexivity|]. split; [reflexivity|].
  split; [discriminate|]. repeat split; reflexivity.
Qed.

(** ** The two files *)

Section TwoFiles.
Context {T : Type} `{Key T}.

(** the prefix increments of the two files are the same function *)
Lemma pre_incr_same fuel (h : node T) it :
  SetTemplate_h.pre_incr fuel h it = Part_000.pre_incr fuel h it.
Proof. reflexivity. Qed.

End TwoFiles.

(** C9 fails on [SetTemplate.h]: on the set {1, 2, 3} the maximum 3 is
    the left child of the sentinel; the postfix increment of
    [SetTemplate.h] walks over the sentinel, whose default-initialised
    key 0 is not greater than 3, and ends on the root (key 2), while its
    own prefix increment and both increments of [part_000] end on
    [end()]. *)
Lemma postfix_increment_from_max_diverges :
  exists s : Set_ Z,
    run [OpInsert 1; OpInsert 2; OpInsert 3] = Some s /\
    find 3 s <> end' s /\
    SetTemplate_h.post_incr 5 (root_ s) (find 3 s) = Some (find 2 s) /\
    find 2 s <> end' s /\ star s (find 2 s) = Some 2 /\
    Part_000.post_incr 5 (root_ s) (find 3 s) = Some (end' s) /\
    SetTemplate_h.pre_incr 5 (root_ s) (find 3 s) = Some (end' s).
Proof.
  eexists. split; [reflexivity|]. cbn.
  repeat split; try reflexivity; discriminate.
Qed.

(** ** Sets that come from the copy constructor

    [CopyNode] leaves the cached height of every node at 1, so the
    first rebalancing of a copy works with wrong heights.  The set
    {10, 20, 30, 40, 50} is built from a sequence and copied; after
    [erase(50)] and [erase(40)] on the copy the sentinel is the root and
    its left child is the node of 20, with the nodes of 10 and 30 below
    it, where [Find], [LowerBound] and the decrement expect a leaf. *)

(** the value [x] of an expression that evaluates to [Some x] *)
Ltac the_value e :=
  let v := eval vm_compute in e in
  match v with Some ?x => exact x end.

(** C1 fails on such a copy: 10 is held in the tree, yet [insert(10)]
    adds a second node of key 10, and [find(10)] is [end()] before and
    after the call. *)
Lemma insert_into_copy_not_found :
  exists s s' : Set_ Z,
    copy_then [10; 20; 30; 40; 50] [OpErase 50; OpErase 40] = Some s /\
    elements s = [10; 20; 30] /\ size s = 3 /\
    insert 10 s = Some s' /\
    find 10 s' = end' s' /\
    elements s' = [10; 10; 20; 30] /\ size s' = 4.
Proof.
  exists ltac:(the_value
    (copy_then [10; 20; 30; 40; 50] [OpErase 50; OpErase 40])).
  exists ltac:(the_value
    (copy_then [10; 20; 30; 40; 50] [OpErase 50; OpErase 40; OpInsert 10])).
  repeat split; vm_compute; reflexivity.
Qed.

(** C2 fails on such a copy: after [insert(10)] on it, [erase(20)] and
    [erase(10)], [find(10)] is a position other than [end()] and holds
    10. *)
Lemma erase_on_copy_leaves_key :
  exists s s' : Set_ Z,
    copy_then [10; 20; 30; 40; 50]
      [OpErase 50; OpErase 40; OpInsert 10; OpErase 20] = Some s /\
    erase 10 s = Some s' /\
    find 10 s' <> end' s' /\ star s' (find 10 s') = Some 10.
Proof.
  exists ltac:(the_value
    (copy_then [10; 20; 30; 40; 50]
       [OpErase 50; OpErase 40; OpInsert 10; OpErase 20])).
  exists ltac:(the_value
    (copy_then [10; 20; 30; 40; 50]
       [OpErase 50; OpErase 40; OpInsert 10; OpErase 20; OpErase 10])).
  split; [vm_compute; reflexivity|]. split; [vm_compute; reflexivity|].
  split; [vm_compute; discriminate|vm_compute; reflexivity].
Qed.

(** C3 fails on such a copy: [lower_bound(5)] is the position of 20
    although 10 is held, and [lower_bound(25)] is [end()] although 30
    is held. *)
Lemma lower_bound_on_copy_misses :
  exists (s : Set_ Z) it,
    copy_then [10; 20; 30; 40; 50] [OpErase 50; OpErase 40] = Some s /\
    elements s = [10; 20; 30] /\
    lower_bound 10 s 5 = Some it /\ star s it = Some 20 /\
    lower_bound 10 s 25 = Some (end' s).
Proof.
  exists ltac:(the_value
    (copy_then [10; 20; 30; 40; 50] [OpErase 50; OpErase 40])).
  exists ltac:(the_value
    (s <- copy_then [10; 20; 30; 40; 50] [OpErase 50; OpErase 40] ;;
     lower_bound 10 s 5)).
  repeat split; vm_compute; reflexivity.
Qed.

(** C4 fails on such a copy: after [insert(10)] on it, [begin()] and the
    position one prefix increment later both hold 10. *)
Lemma iteration_over_copy_repeats_key :
  exists (s : Set_ Z) b it,
    copy_then [10; 20; 30; 40; 50]
      [OpErase 50; OpErase 40; OpInsert 10] = Some s /\
    begin s = Some b /\ star s b = Some 10 /\
    advance 10 1 (root_ s) b = Some it /\
    it <> end' s /\ star s it = Some 10.
Proof.
  exists ltac:(the_value
    (copy_then [10; 20; 30; 40; 50] [OpErase 50; OpErase 40; OpInsert 10])).
  exists ltac:(the_value
    (s <- copy_then [10; 20; 30; 40; 50] [OpErase 50; OpErase 40; OpInsert 10] ;;
     begin s)).
  exists ltac:(the_value
    (s <- copy_then [10; 20; 30; 40; 50] [OpErase 50; OpErase 40; OpInsert 10] ;;
     b <- begin s ;; advance 10 1 (root_ s) b)).
  split; [vm_compute; reflexivity|]. split; [vm_compute; reflexivity|].
  split; [vm_compute; reflexivity|]. split; [vm_compute; reflexivity|].
  split; [vm_compute; discriminate|vm_compute; reflexivity].
Qed.

(** C7 fails on such a copy: one decrement from [end()], in either file,
    is the position of 20, while the maximum key 30 is held. *)
Lemma decrement_from_end_of_copy :
  exists (s : Set_ Z) it,
    copy_then [10; 20; 30; 40; 50] [OpErase 50; OpErase 40] = Some s /\
    elements s = [10; 20; 30] /\ size s = 3 /\
    SetTemplate_h.pre_decr 10 (root_ s) (end' s) = Some it /\
    Part_000.pre_decr 10 (root_ s) (end' s) = Some it /\
    star s it = Some 20.
Proof.
  exists ltac:(the_value
    (copy_then [10; 20; 30; 40; 50] [OpErase 50; OpErase 40])).
  exists ltac:(the_value
    (s <- copy_then [10; 20; 30; 40; 50] [OpErase 50; OpErase 40] ;;
     SetTemplate_h.pre_decr 10 (root_ s) (end' s))).
  repeat split; vm_compute; reflexivity.
Qed.

(** ** The theorems on a set of integers

    Each theorem above is applied to [sample_ops]. *)

Lemma insert_member_size_witness :
  Z.of_nat (length sample_ops) < max_ops /\
  exists s s',
    run sample_ops = Some s /\ insert 6 s = Some s' /\
    find 6 s' <> end' s' /\
    (find 6 s = end' s -> size s' = size s + 1) /\
    (find 6 s <> end' s -> size s' = size s /\ s' = s).
Proof.
  split; [reflexivity|]. apply (insert_member_size sample_ops 6). reflexivity.
Defined.

Lemma erase_member_size_witness :
  Z.of_nat (length sample_ops) < max_ops /\
  exists s s',
    run sample_ops = Some s /\ erase 5 s = Some s' /\
    find 5 s' = end' s' /\
    (find 5 s <> end' s -> size s' = size s - 1) /\
    (find 5 s = end' s -> size s' = size s /\ s' = s) /\
    (find 5 s = end' s ->
     exists s1 s2, insert 5 s = Some s1 /\ erase 5 s1 = Some s2 /\
                   find 5 s2 = end' s2 /\ size s2 = size s).
Proof.
  split; [reflexivity|]. apply (erase_member_size sample_ops 5). reflexivity.
Defined.

Lemma lower_bound_least_not_less_witness :
  Z.of_nat (length sample_ops) < max_ops /\
  exists s,
    run sample_ops = Some s /\
    forall fuel, (depth (root_ s) < fuel)%nat ->
      exists it,
        lower_bound fuel s 6 = Some it /\
        ((it = end' s /\ forall y, In y (elements s) -> less y 6 = true) \/
         (it <> end' s /\
          exists x,
            star s it = Some x /\ In x (elements s) /\ less x 6 = false /\
            forall y, In y (elements s) -> less y 6 = false -> less y x = false)) /\
        ((forall y, In y (elements s) -> less y 6 = true) -> it = end' s).
Proof.
  split; [reflexivity|]. apply (lower_bound_least_not_less sample_ops 6).
  reflexivity.
Defined.

Lemma iteration_visits_keys_in_order_witness :
  Z.of_nat (length sample_ops) < max_ops /\
  exists s,
    run sample_ops = Some s /\
    size s = Z.of_nat (length (elements s)) /\
    (forall k, In k (elements s) <-> find k s <> end' s) /\
    (forall i j x y,
       (i < j)%nat -> nth_error (elements s) i = Some x ->
       nth_error (elements s) j = Some y -> less x y = true) /\
    forall fuel, (depth (root_ s) <= fuel)%nat ->
      exists b,
        begin s = Some b /\
        (forall i x,
           nth_error (elements s) i = Some x ->
           exists it, advance fuel i (root_ s) b = Some it /\
                      it <> end' s /\ star s it = Some x) /\
        advance fuel (length (elements s)) (root_ s) b = Some (end' s) /\
        (size s = 0 -> b = end' s).
Proof.
  split; [reflexivity|]. apply (iteration_visits_keys_in_order sample_ops).
  reflexivity.
Defined.

Lemma heights_and_balance_witness :
  Z.of_nat (length sample_ops) < max_ops /\
  exists s,
    run sample_ops = Some s /\
    forall f l r,
      has (root_ s) (Node f l r) ->
      height f = 1 + Z.max (GetHeight l) (GetHeight r) /\
      Z.abs (GetHeight l - GetHeight r) <= 1.
Proof.
  split; [reflexivity|]. apply (heights_and_balance sample_ops). reflexivity.
Defined.

Lemma search_tree_with_one_sentinel_witness :
  Z.of_nat (length sample_ops) < max_ops /\
  exists s,
    run sample_ops = Some s /\
    (forall f l r,
       has (root_ s) (Node f l r) -> is_end f = false ->
       (forall x, In x (walk l) -> t_end x = false /\ less (t_key x) (key f) = true) /\
       (forall x, In x (walk r) -> t_end x = true \/ less (key f) (t_key x) = true)) /\
    (exists fS lS,
       FindEnd (root_ s) = Some (Node fS lS nullptr) /\
       is_end fS = true /\ end_ s = Some (self fS) /\
       forall f l r,
         has (root_ s) (Node f l r) -> is_end f = true ->
         Node f l r = Node fS lS nullptr) /\
    (size s = 0 -> root_is_end s = true) /\
    (root_is_end s = true -> size s <= 1).
Proof.
  split; [reflexivity|]. apply (search_tree_with_one_sentinel sample_ops).
  reflexivity.
Defined.

Lemma decrement_from_end_is_max_witness :
  Z.of_nat (length sample_ops) < max_ops /\
  exists s,
    run sample_ops = Some s /\
    (size s <> 0 ->
     forall fuel,
     exists aS fS lS it x,
       end' s = Some aS /\ deref (root_ s) aS = Node fS lS nullptr /\
       it = match lS with
            | Node fl _ _ => Some (self fl)
            | nullptr => parent fS
            end /\
       SetTemplate_h.pre_decr fuel (root_ s) (end' s) = Some it /\
       Part_000.pre_decr fuel (root_ s) (end' s) = Some it /\
       it <> end' s /\ star s it = Some x /\
       In x (elements s) /\
       forall y, In y (elements s) -> less x y = false).
Proof.
  split; [reflexivity|]. apply (decrement_from_end_is_max sample_ops).
  reflexivity.
Defined.

Lemma raw_descent_within_one_step_witness :
  Z.of_nat (length sample_ops) < max_ops /\
  exists s raw,
    run sample_ops = Some s /\
    LowerBound (root_ s) None 6 = Some raw /\
    forall fuel, (depth (root_ s) < fuel)%nat ->
      exists it n,
        lower_bound_steps fuel s 6 = Some (it, n) /\
        lower_bound fuel s 6 = Some it /\
        (it = end' s \/ exists x, star s it = Some x /\ less x 6 = false) /\
        ((n = O /\ it = Some raw) \/
         (n = 1%nat /\ Some raw <> end' s /\
          (exists x, star s (Some raw) = Some x /\ less x 6 = true) /\
          SetTemplate_h.pre_incr fuel (root_ s) (Some raw) = Some it)).
Proof.
  split; [reflexivity|]. apply (raw_descent_within_one_step sample_ops 6).
  reflexivity.
Defined.

Lemma sentinel_left_is_max_leaf_witness :
  Z.of_nat (length sample_ops) < max_ops /\
  exists s,
    run sample_ops = Some s /\
    forall f l r,
      has (root_ s) (Node f l r) -> is_end f = true ->
      l = nullptr \/
      exists fl,
        l = Node fl nullptr nullptr /\ is_end fl = false /\
        In (key fl) (elements s) /\
        forall x, In x (elements s) -> less (key fl) x = false.
Proof.
  split; [reflexivity|]. apply (sentinel_left_is_max_leaf sample_ops).
  reflexivity.
Defined.

(** The example of the specification: after insert 5, 3, 8, 1, 4 and
    erase 3 the traversal is 1, 4, 5, 8 and the size 4; [lower_bound(4)]
    points at 4, [lower_bound(6)] at 8 and [lower_bound(9)] is [end()]. *)
Example sample_run :
  exists s : Set_ Z,
    run sample_ops = Some s /\
    elements s = [1; 4; 5; 8] /\ size s = 4 /\
    (it <- lower_bound 8 s 4 ;; star s it) = Some 4 /\
    (it <- lower_bound 8 s 6 ;; star s it) = Some 8 /\
    lower_bound 8 s 9 = Some (end' s).
Proof.
  eexists. split; [reflexivity|]. cbn. repeat split; reflexivity.
Qed.

(** * Further properties of the code *)

(** ** What [insert] and [erase] do to the other keys *)

Section OtherKeys.
Context {T : Type} `{Key T}.

Lemma same_key_eq (a b : T) : same_key a b = true <-> a = b.
Proof.
  unfold same_key. split.
  - intros E. apply andb_true_iff in E as [E1 E2].
    apply negb_true_iff in E1, E2. apply less_total; assumption.
  - intros ->. rewrite less_irrefl. reflexivity.
Qed.

Lemma keeps_key (k x : T) (a : addr) : keeps k (a, false, x) = true <-> x <> k.
Proof.
  unfold keeps. cbn. split.
  - intros E ->. rewrite less_irrefl in E. discriminate.
  - intros Hn. destruct (less k x) eqn:E1; [reflexivity|].
    destruct (less x k) eqn:E2; [reflexivity|].
    exfalso. apply Hn. symmetry. apply less_total; assumption.
Qed.

Lemma In_keys_ins (a : addr) (k x : T) ys :
  In x (keys_of (ins (a, false, k) ys)) <-> x = k \/ In x (keys_of ys).
Proof.
  rewrite !In_keys_of. split.
  - intros (b & Hb). apply In_ins in Hb as [E|Hb]; [injection E as _ ->; auto|].
    right. exists b. exact Hb.
  - intros [->|(b & Hb)]; [exists a|exists b]; apply In_ins; auto.
Qed.

Lemma In_keys_del (k x : T) ys :
  In x (keys_of (del k ys)) <-> x <> k /\ In x (keys_of ys).
Proof.
  rewrite !In_keys_of. unfold del. split.
  - intros (b & Hb). apply filter_In in Hb as [Hb Hk].
    apply keeps_key in Hk. split; [exact Hk|]. exists b. exact Hb.
  - intros (Hn & b & Hb). exists b. apply filter_In. split; [exact Hb|].
    apply keeps_key. exact Hn.
Qed.

(** in an ordered sequence a key sits at one address *)
Lemma ordered_key_unique xs (a b : addr) (k : T) :
  ordered xs -> In (a, false, k) xs -> In (b, false, k) xs -> a = b.
Proof.
  intros Ho Ha Hb.
  destruct (In_nth_error _ _ Ha) as (i & Hi).
  destruct (In_nth_error _ _ Hb) as (j & Hj).
  destruct (Nat.lt_trichotomy i j) as [Hlt|[->|Hgt]].
  - pose proof (ordered_nth xs Ho i j _ _ Hlt Hi Hj) as C.
    unfold before in C. cbn in C. rewrite less_irrefl in C. discriminate.
  - congruence.
  - pose proof (ordered_nth xs Ho j i _ _ Hgt Hj Hi) as C.
    unfold before in C. cbn in C. rewrite less_irrefl in C. discriminate.
Qed.

(** [find] returns the address the traversal gives to the key *)
Lemma find_at (s : Set_ T) (a : addr) (k : T) :
  Inv s -> In (a, false, k) (walk (root_ s)) -> find k s = Some a.
Proof.
  intros I Hin. unfold find.
  destruct (Find (root_ s) k) as [|f l r] eqn:E.
  - exfalso.
    exact (Find_none _ _ (inv_avl s I) (inv_ord s I) E _ Hin eq_refl eq_refl).
  - destruct (Find_found _ _ _ _ _ E) as (Hh & Hk).
    pose proof (Find_not_end _ _ _ _ _ (inv_avl s I) (inv_ord s I) E) as He.
    apply has_In in Hh. unfold tag in Hh. rewrite He, Hk in Hh.
    cbn [addr_of]. f_equal.
    exact (ordered_key_unique _ _ _ _ (inv_ord s I) Hh Hin).
Qed.

Lemma find_present (s : Set_ T) (k : T) :
  Inv s -> find k s <> end' s ->
  exists a, find k s = Some a /\ In (a, false, k) (walk (root_ s)).
Proof.
  intros I Hf. apply (find_contains k s I) in Hf.
  apply (contains_elements k s I) in Hf. unfold elements in Hf.
  apply In_keys_of in Hf as (a & Ha). exists a. split; [|exact Ha].
  apply find_at; assumption.
Qed.

Lemma find_elements (s : Set_ T) (k : T) :
  Inv s -> find k s <> end' s <-> In k (elements s).
Proof.
  intros I. rewrite find_contains by exact I. apply contains_elements. exact I.
Qed.

(** the traversal after [insert] *)
Lemma insert_walk (s : Set_ T) (k : T) :
  Inv s -> count (root_ s) + 1 < 2 ^ 64 ->
  exists s',
    insert k s = Some s' /\ Inv s' /\ end_ s' = end_ s /\
    count (root_ s') <= count (root_ s) + 1 /\
    walk (root_ s') =
    if contains k s then walk (root_ s)
    else ins (brk s, false, k) (walk (root_ s)).
Proof.
  intros I Hc. destruct (Inv_insert k s I Hc) as (s' & E & I' & C & _).
  exists s'. split; [exact E|]. split; [exact I'|].
  destruct (contains k s) eqn:Ec.
  - rewrite (insert_present k s Ec) in E. injection E as <-. auto.
  - unfold contains in Ec. unfold insert in E.
    destruct (Find (root_ s) k) eqn:EF; [|discriminate].
    destruct (Insert (root_ s) k None (brk s)) as [r|] eqn:Er; [|discriminate].
    cbn [bind] in E. injection E as <-. cbn [root_ end_].
    split; [reflexivity|]. split; [exact C|].
    exact (Insert_walk _ _ _ _ _ (inv_ord s I) Er).
Qed.

(** the traversal after [erase] *)
Lemma erase_walk (s : Set_ T) (k : T) :
  Inv s ->
  exists s',
    erase k s = Some s' /\ Inv s' /\ end_ s' = end_ s /\ brk s' = brk s /\
    count (root_ s') <= count (root_ s) /\
    walk (root_ s') = del k (walk (root_ s)).
Proof.
  intros I. destruct (Inv_erase k s I) as (s' & E & I' & C & _).
  exists s'. split; [exact E|]. split; [exact I'|].
  destruct (contains k s) eqn:Ec.
  - unfold contains in Ec. unfold erase in E.
    destruct (Find (root_ s) k) eqn:EF; [discriminate|].
    destruct (Erase (root_ s) k) as [r|] eqn:Er; [|discriminate].
    cbn [bind] in E. injection E as <-. cbn [root_ end_ brk].
    repeat split; auto.
    exact (Erase_walk _ _ _ (inv_ord s I) Er).
  - rewrite (erase_absent k s Ec) in E. injection E as <-.
    repeat split; auto. unfold del. symmetry. apply filter_all.
    intros [[a e] x] Hy. destruct e; [reflexivity|]. apply keeps_key.
    intros ->. apply Bool.not_true_iff_false in Ec. apply Ec.
    apply (contains_elements k s I). unfold elements. apply In_keys_of. eauto.
Qed.

(** X1.  On a reachable set [insert(k)] adds [k] to the keys and nothing
    else: any other key is found afterwards exactly if it was found
    before; every key found before is found at the same position, and
    [end()] is the same position as before. *)
Theorem insert_keeps_other_keys (ops : list (op T)) (k : T) :
  Z.of_nat (length ops) < max_ops ->
  exists s s',
    run ops = Some s /\ insert k s = Some s' /\
    end' s' = end' s /\
    (forall x, find x s' <> end' s' <-> x = k \/ find x s <> end' s) /\
    (forall x, find x s <> end' s -> find x s' = find x s).
Proof.
  intros Hb. destruct (run_Inv ops Hb) as (s & E & I & C).
  destruct (insert_walk s k I C) as (s' & Ei & I' & Ee & _ & Hw).
  exists s, s'. split; [exact E|]. split; [exact Ei|].
  split; [exact Ee|].
  assert (Hin : forall x, In x (elements s') <-> x = k \/ In x (elements s)).
  { intros x. unfold elements. rewrite Hw.
    destruct (contains k s) eqn:Ec; [|apply In_keys_ins].
    apply (contains_elements k s I) in Ec. unfold elements in Ec.
    split; [auto|]. intros [->|Hx]; assumption. }
  split.
  - intros x. rewrite (find_elements s' x I'), (find_elements s x I). apply Hin.
  - intros x Hx. destruct (find_present s x I Hx) as (a & Ea & Ha).
    rewrite Ea. apply find_at; [exact I'|]. rewrite Hw.
    destruct (contains k s); [exact Ha|]. apply In_ins. auto.
Qed.

(** X2.  On a reachable set [erase(k)] removes [k] from the keys and
    nothing else: any other key is found afterwards exactly if it was
    found before, and at the same position; [end()] is the same position
    as before. *)
Theorem erase_keeps_other_keys (ops : list (op T)) (k : T) :
  Z.of_nat (length ops) < max_ops ->
  exists s s',
    run ops = Some s /\ erase k s = Some s' /\
    end' s' = end' s /\
    (forall x, find x s' <> end' s' <-> x <> k /\ find x s <> end' s) /\
    (forall x, x <> k -> find x s <> end' s -> find x s' = find x s).
Proof.
  intros Hb. destruct (run_Inv ops Hb) as (s & E & I & C).
  destruct (erase_walk s k I) as (s' & Ee & I' & Eend & _ & _ & Hw).
  exists s, s'. split; [exact E|]. split; [exact Ee|].
  split; [exact Eend|]. split.
  - intros x. rewrite (find_elements s' x I'), (find_elements s x I).
    unfold elements. rewrite Hw. apply In_keys_del.
  - intros x Hn Hx. destruct (find_present s x I Hx) as (a & Ea & Ha).
    rewrite Ea. apply find_at; [exact I'|]. rewrite Hw.
    apply filter_In. split; [exact Ha|]. apply keeps_key. exact Hn.
Qed.

End OtherKeys.

(** ** The set as a set of keys *)

Section AsASet.
Context {T : Type} `{Key T}.

Lemma contains_insert (s s' : Set_ T) (k x : T) :
  Inv s -> count (root_ s) + 1 < 2 ^ 64 -> insert k s = Some s' ->
  Inv s' /\ contains x s' = if same_key k x then true else contains x s.
Proof.
  intros I Hc E. destruct (insert_walk s k I Hc) as (s1 & E1 & I1 & _ & _ & Hw).
  rewrite E in E1. injection E1 as <-. split; [exact I1|].
  assert (Hin : In x (elements s') <-> x = k \/ In x (elements s)).
  { unfold elements. rewrite Hw.
    destruct (contains k s) eqn:Ec; [|apply In_keys_ins].
    apply (contains_elements k s I) in Ec. unfold elements in Ec.
    split; [auto|]. intros [->|Hx]; assumption. }
  rewrite <- !contains_elements in Hin by assumption.
  destruct (same_key k x) eqn:Ek.
  - apply same_key_eq in Ek. apply Hin. auto.
  - assert (x <> k) by (intros ->; rewrite (proj2 (same_key_eq k k) eq_refl) in Ek;
                        discriminate).
    destruct (contains x s) eqn:Ex.
    + apply Hin. auto.
    + apply Bool.not_true_iff_false. intros C. apply Hin in C as [C|C];
        [contradiction|discriminate].
Qed.

Lemma contains_erase (s s' : Set_ T) (k x : T) :
  Inv s -> erase k s = Some s' ->
  Inv s' /\ contains x s' = if same_key k x then false else contains x s.
Proof.
  intros I E. destruct (erase_walk s k I) as (s1 & E1 & I1 & _ & _ & _ & Hw).
  rewrite E in E1. injection E1 as <-. split; [exact I1|].
  assert (Hin : In x (elements s') <-> x <> k /\ In x (elements s)).
  { unfold elements. rewrite Hw. apply In_keys_del. }
  rewrite <- !contains_elements in Hin by assumption.
  destruct (same_key k x) eqn:Ek.
  - apply same_key_eq in Ek. apply Bool.not_true_iff_false.
    intros C. apply Hin in C as [C _]. congruence.
  - assert (x <> k) by (intros ->; rewrite (proj2 (same_key_eq k k) eq_refl) in Ek;
                        discriminate).
    destruct (contains x s) eqn:Ex.
    + apply Hin. auto.
    + apply Bool.not_true_iff_false. intros C. apply Hin in C as [_ C].
      discriminate.
Qed.

Lemma run_from_present (ops : list (op T)) :
  forall s : Set_ T,
    Inv s -> count (root_ s) + Z.of_nat (length ops) < 2 ^ 64 ->
    exists s',
      run_from s ops = Some s' /\ Inv s' /\
      forall x, contains x s' = present_after ops (contains x s) x.
Proof.
  induction ops as [|o ops IH]; intros s I Hc.
  - exists s. cbn. auto.
  - cbn [length] in Hc. rewrite Nat2Z.inj_succ in Hc.
    destruct o as [k|k]; cbn [run_from step present_after].
    + destruct (insert_walk s k I ltac:(lia)) as (s1 & E1 & I1 & _ & C1 & _).
      rewrite E1. cbn [bind].
      destruct (IH s1 I1 ltac:(lia)) as (s' & E' & I' & Hp).
      exists s'. split; [exact E'|]. split; [exact I'|]. intros x.
      rewrite Hp.
      destruct (contains_insert s s1 k x I ltac:(lia) E1) as (_ & ->).
      reflexivity.
    + destruct (erase_walk s k I) as (s1 & E1 & I1 & _ & _ & C1 & _).
      rewrite E1. cbn [bind].
      destruct (IH s1 I1 ltac:(lia)) as (s' & E' & I' & Hp).
      exists s'. split; [exact E'|]. split; [exact I'|]. intros x.
      rewrite Hp.
      destruct (contains_erase s s1 k x I E1) as (_ & ->). reflexivity.
Qed.

(** X3.  After any sequence of [insert] and [erase] from the empty set
    a key is found exactly if the last operation on it was an [insert]:
    the container behaves as a mathematical set. *)
Theorem last_operation_decides (ops : list (op T)) :
  Z.of_nat (length ops) < max_ops ->
  exists s,
    run ops = Some s /\
    forall x, find x s <> end' s <-> present_after ops false x = true.
Proof.
  unfold max_ops. intros Hb.
  destruct (run_from_present ops empty Inv_empty) as (s & E & I & Hp).
  { change (count (root_ empty)) with 1. lia. }
  exists s. split; [exact E|]. intros x.
  rewrite (find_contains x s I), Hp. reflexivity.
Qed.

Lemma insert_all_run (ks : list T) (s : Set_ T) :
  insert_all s ks = run_from s (map OpInsert ks).
Proof.
  revert s. induction ks as [|k ks IH]; intros s; [reflexivity|].
  cbn. destruct (insert k s) as [s'|]; cbn; [apply IH|reflexivity].
Qed.

Lemma present_after_inserts (ks : list T) (b : bool) (x : T) :
  present_after (map OpInsert ks) b x = true <-> b = true \/ In x ks.
Proof.
  revert b. induction ks as [|k ks IH]; intros b; cbn [map present_after In].
  - tauto.
  - rewrite IH. destruct (same_key k x) eqn:Ek.
    + apply same_key_eq in Ek. tauto.
    + assert (k <> x).
      { intros ->. rewrite (proj2 (same_key_eq x x) eq_refl) in Ek. discriminate. }
      tauto.
Qed.

Lemma ordered_keys_NoDup xs : ordered xs -> NoDup (keys_of xs).
Proof.
  induction xs as [|[[a e] k] xs IH]; cbn [ordered]; intros Ho.
  - constructor.
  - destruct Ho as (Hx & Hxs). unfold keys_of. cbn [filter t_end fst snd].
    destruct e; cbn [negb]; [apply IH; exact Hxs|].
    cbn [map]. constructor; [|apply IH; exact Hxs].
    change (~ In k (keys_of xs)). rewrite In_keys_of. intros (b & Hb).
    specialize (Hx _ Hb). unfold before in Hx. cbn in Hx.
    rewrite less_irrefl in Hx. discriminate.
Qed.

(** X4.  The constructors from a sequence build the set of its
    elements: a key is found exactly if it occurs in the sequence, no
    key is held twice, and [size()] is the number of keys held, hence
    the number of distinct elements of the sequence. *)
Theorem from_range_holds_the_elements (ks : list T) :
  Z.of_nat (length ks) < max_ops ->
  exists s,
    from_range ks = Some s /\
    (forall x, find x s <> end' s <-> In x ks) /\
    (forall x, In x (elements s) <-> In x ks) /\
    NoDup (elements s) /\
    size s = Z.of_nat (length (elements s)) /\
    size s <= Z.of_nat (length ks).
Proof.
  unfold max_ops. intros Hb. unfold from_range. rewrite insert_all_run.
  destruct (run_from_present (map OpInsert ks) empty Inv_empty) as (s & E & I & Hp).
  { change (count (root_ empty)) with 1. rewrite length_map. lia. }
  destruct (run_from_Inv (map OpInsert ks) empty Inv_empty) as (s0 & E0 & _ & C0).
  { change (count (root_ empty)) with 1. rewrite length_map. lia. }
  rewrite E in E0. injection E0 as <-.
  exists s. split; [exact E|].
  assert (Hfind : forall x, find x s <> end' s <-> In x ks).
  { intros x. rewrite (find_contains x s I), Hp, present_after_inserts.
    change (contains x empty) with false. split; [intros [C|C]|]; auto.
    discriminate. }
  split; [exact Hfind|]. split.
  - intros x. rewrite <- Hfind. symmetry. apply find_elements. exact I.
  - split; [apply ordered_keys_NoDup; apply I|].
    split; [apply (inv_size s I)|].
    pose proof (count_elements s I) as Hc. unfold size.
    rewrite (inv_size s I). rewrite length_map in C0.
    change (count (root_ empty)) with 1 in C0. lia.
Qed.

(** X5.  On a reachable set dereferencing [find(k)], when it is not
    [end()], gives [k]; and a position other than [end()] whose
    dereference gives [k] is the position [find(k)] returns. *)
Theorem find_and_dereference (ops : list (op T)) :
  Z.of_nat (length ops) < max_ops ->
  exists s,
    run ops = Some s /\
    (forall k, find k s <> end' s -> star s (find k s) = Some k) /\
    (forall it k, it <> end' s -> star s it = Some k -> find k s = it).
Proof.
  intros Hb. destruct (run_Inv ops Hb) as (s & E & I & _).
  exists s. split; [exact E|]. split.
  - intros k Hk. destruct (find_present s k I Hk) as (a & -> & Ha).
    exact (star_at s _ I Ha).
  - intros [a|] k Hne Hst; [|discriminate]. unfold star in Hst. cbn [bind] in Hst.
    destruct (deref (root_ s) a) as [|f l r] eqn:Ed; [discriminate|].
    injection Hst as <-. destruct (deref_has _ _ _ _ _ Ed) as (Hh & Ea).
    destruct (Inv_sentinel s I) as (fS & lS & body & _ & HS & ES & Ee & _).
    destruct (is_end f) eqn:Ef.
    + exfalso. apply Hne. unfold end'. rewrite Ee, <- Ea.
      pose proof (sentinel_unique s fS lS f l r I HS ES Hh Ef) as Eq.
      injection Eq as -> _ _. reflexivity.
    + apply find_at; [exact I|]. apply has_In in Hh. unfold tag in Hh.
      rewrite Ef, Ea in Hh. exact Hh.
Qed.

End AsASet.

(** ** Invariants of the representation *)

Section Representation.
Context {T : Type} `{Key T}.

Lemma parents_ok_has (v : node T) (p : ptr) f l r :
  parents_ok p v -> has v (Node f l r) -> parents_ok (parent f) (Node f l r).
Proof.
  revert p. induction v as [|f0 l0 IHl r0 IHr]; intros p Hp Hh; [destruct Hh|].
  pose proof Hp as Hp'. cbn [parents_ok] in Hp'. destruct Hp' as (Hf & Hl & Hr).
  cbn [has] in Hh. destruct Hh as [E|[Hh|Hh]].
  - injection E as -> -> ->. rewrite Hf. exact Hp.
  - exact (IHl _ Hl Hh).
  - exact (IHr _ Hr Hh).
Qed.

(** X6.  After any sequence of [insert] and [erase] the [parent] field
    of the root is null, the [parent] field of every other node is the
    address of the node whose [left] or [right] it is, and an address
    designates one node. *)
Theorem parent_links_mirror_structure (ops : list (op T)) :
  Z.of_nat (length ops) < max_ops ->
  exists s,
    run ops = Some s /\
    (exists f l r, root_ s = Node f l r /\ parent f = None) /\
    forall f l r,
      has (root_ s) (Node f l r) ->
      deref (root_ s) (self f) = Node f l r /\
      (forall fl ll lr, l = Node fl ll lr -> parent fl = Some (self f)) /\
      (forall fr rl rr, r = Node fr rl rr -> parent fr = Some (self f)).
Proof.
  intros Hb. destruct (run_Inv ops Hb) as (s & E & I & _).
  exists s. split; [exact E|]. split.
  - pose proof (inv_par s I) as Hp. destruct (inv_end s I) as (aS & kS & _ & Hin).
    destruct (root_ s) as [|f l r]; [destruct Hin|].
    exists f, l, r. split; [reflexivity|]. apply Hp.
  - intros f l r Hh. split; [exact (has_deref _ _ _ _ (inv_nodup s I) Hh)|].
    pose proof (parents_ok_has _ _ _ _ _ (inv_par s I) Hh) as Hp.
    cbn [parents_ok] in Hp. destruct Hp as (_ & Hl & Hr). split.
    + intros fl ll lr ->. apply Hl.
    + intros fr rl rr ->. apply Hr.
Qed.

Lemma avl_depth (v : node T) : avl v -> GetHeight v = Z.of_nat (depth v).
Proof.
  induction v as [|f l IHl r IHr]; [reflexivity|].
  cbn [avl GetHeight depth]. intros (Hf & _ & Hl & Hr).
  rewrite Hf, (IHl Hl), (IHr Hr). lia.
Qed.

(** X7.  After any sequence of [insert] and [erase] the height cached
    in the root is the real height of the tree, sentinel included, and
    it is logarithmic in the size: [2^(height/2) <= size() + 2]; it
    stays below 130. *)
Theorem height_is_logarithmic (ops : list (op T)) :
  Z.of_nat (length ops) < max_ops ->
  exists s,
    run ops = Some s /\
    GetHeight (root_ s) = Z.of_nat (depth (root_ s)) /\
    2 ^ (GetHeight (root_ s) / 2) <= size s + 2 /\
    GetHeight (root_ s) < 130.
Proof.
  intros Hb. destruct (run_Inv ops Hb) as (s & E & I & _).
  exists s. split; [exact E|].
  pose proof (inv_avl s I) as Ha. split; [apply avl_depth; exact Ha|].
  pose proof (avl_height_nonneg _ Ha) as Hn.
  pose proof (avl_count_lower _ Ha (GetHeight (root_ s)) ltac:(lia)) as Hc.
  rewrite (count_elements s I), <- (inv_size s I) in Hc. unfold size.
  split; [lia|]. apply (avl_height_bound _ Ha (inv_fits s I)).
Qed.

(** X8.  On a reachable set [empty()] holds exactly if no key is held,
    and exactly if [begin()] is [end()]. *)
Theorem empty_iff_begin_is_end (ops : list (op T)) :
  Z.of_nat (length ops) < max_ops ->
  exists s,
    run ops = Some s /\
    (empty' s = true <-> elements s = []) /\
    (empty' s = true <-> begin s = Some (end' s)).
Proof.
  intros Hb. destruct (run_Inv ops Hb) as (s & E & I & _).
  exists s. split; [exact E|].
  assert (H1 : empty' s = true <-> elements s = []).
  { unfold empty'. rewrite (inv_size s I), Z.eqb_eq.
    destruct (elements s); cbn; split; intros; try reflexivity;
      try discriminate; lia. }
  split; [exact H1|]. rewrite H1.
  destruct (Inv_sentinel s I) as (fS & lS & body & _ & _ & ES & Ee & Hw & Hbody & Hel).
  destruct (begin_first s I) as (x0 & Hx0 & Eb). rewrite Eb, Hel.
  destruct body as [|b body]; cbn [map].
  - cbn in Hw. rewrite Hw in Hx0. injection Hx0 as <-.
    unfold end'. rewrite Ee. split; reflexivity.
  - split; [discriminate|]. intros C. exfalso.
    rewrite Hw in Hx0. injection Hx0 as <-. injection C as C.
    apply (key_node_not_end s b I); [rewrite Hw; left; reflexivity| |exact C].
    apply Hbody. left. reflexivity.
Qed.

End Representation.

(** ** How the operations compose *)

Section Composition.
Context {T : Type} `{Key T}.

Lemma lbpos_of_key xs (m : nat) (a : addr) (k : T) :
  ordered xs -> nth_error xs m = Some (a, false, k) -> lbpos k xs = m.
Proof.
  intros Ho Hm.
  assert (Hs : stop k (a, false, k) = true).
  { unfold stop. cbn. rewrite less_irrefl. reflexivity. }
  destruct (Nat.lt_trichotomy m (lbpos k xs)) as [Hlt|[->|Hgt]]; [|reflexivity|].
  - rewrite (lbpos_before k xs m _ Hlt Hm) in Hs. discriminate.
  - exfalso.
    destruct (nth_error xs (lbpos k xs)) as [xj|] eqn:Hj.
    2:{ apply nth_error_None in Hj.
        assert (m < length xs)%nat by (apply nth_error_Some; congruence). lia. }
    pose proof (lbpos_at k xs xj Hj) as Hsj.
    pose proof (ordered_nth xs Ho _ m xj _ Hgt Hj Hm) as Hbf.
    unfold before in Hbf. cbn in Hbf.
    apply andb_true_iff in Hbf as [He Hl]. apply negb_true_iff in He.
    unfold stop in Hsj. rewrite He, Hl in Hsj. discriminate.
Qed.

(** X9.  On a reachable set [lower_bound(k)] of a key that is held is
    the position [find(k)] returns. *)
Theorem lower_bound_of_held_key (ops : list (op T)) (k : T) :
  Z.of_nat (length ops) < max_ops ->
  exists s,
    run ops = Some s /\
    forall fuel, (depth (root_ s) < fuel)%nat ->
      find k s <> end' s -> lower_bound fuel s k = Some (find k s).
Proof.
  intros Hb. destruct (run_Inv ops Hb) as (s & E & I & _).
  exists s. split; [exact E|]. intros fuel Hfuel Hk.
  destruct (lower_bound_run s k fuel I Hfuel)
    as (i & x & xj & n & _ & _ & Hxj & Hrun & _).
  destruct (find_present s k I Hk) as (a & Ea & Ha).
  destruct (In_nth_error _ _ Ha) as (m & Hm).
  rewrite (lbpos_of_key _ m a k (inv_ord s I) Hm), Hm in Hxj.
  injection Hxj as <-. unfold lower_bound. rewrite Hrun, Ea. reflexivity.
Qed.

Lemma del_ins (a : addr) (k : T) ys :
  (forall y, In y ys -> keeps k y = true) -> del k (ins (a, false, k) ys) = ys.
Proof.
  intros Hk. destruct (ins_split (a, false, k) ys) as (pre & post & E1 & E2).
  rewrite E2. unfold del. rewrite filter_app. cbn [filter].
  assert (keeps k (a, false, k) = false) as ->.
  { unfold keeps. cbn. rewrite less_irrefl. reflexivity. }
  rewrite !filter_all; [symmetry; exact E1| |];
    intros y Hy; apply Hk; rewrite E1; apply in_or_app; auto.
Qed.

Lemma ins_pass (x : addr * bool * T) xs zs :
  (forall y, In y xs -> goes_left (t_key x) y = false) ->
  ins x (xs ++ zs) = xs ++ ins x zs.
Proof.
  induction xs as [|y xs IH]; intros Hxs; [reflexivity|].
  cbn [app ins]. rewrite (Hxs y (or_introl eq_refl)), IH; [reflexivity|].
  intros z Hz. apply Hxs. cbn. auto.
Qed.

Lemma keys_ins_del (a a0 : addr) (k : T) ys :
  ordered ys -> In (a0, false, k) ys ->
  keys_of (ins (a, false, k) (del k ys)) = keys_of ys.
Proof.
  intros Ho Hin. apply in_split in Hin as (xs & zs & ->).
  rewrite (del_present _ _ _ _ Ho).
  pose proof (ordered_mid _ _ _ Ho) as (_ & _ & Hx & Hz & _).
  rewrite ins_pass.
  - assert (ins (a, false, k) zs = (a, false, k) :: zs) as ->.
    { destruct zs as [|z zs]; [reflexivity|]. cbn [ins].
      specialize (Hz z (or_introl eq_refl)). unfold before in Hz. cbn in Hz.
      unfold goes_left. cbn. rewrite Hz. reflexivity. }
    rewrite !keys_of_app. reflexivity.
  - intros y Hy. specialize (Hx y Hy). unfold before in Hx. cbn in Hx.
    apply andb_true_iff in Hx as [He Hl]. apply negb_true_iff in He.
    unfold goes_left. cbn. rewrite He, (less_asym _ _ Hl). reflexivity.
Qed.

Lemma find_by_walk (s s' : Set_ T) (x : T) :
  Inv s -> Inv s' -> walk (root_ s') = walk (root_ s) -> end_ s' = end_ s ->
  find x s' = find x s.
Proof.
  intros I I' Hw He. destruct (contains x s) eqn:Ec.
  - apply (find_contains x s I) in Ec.
    destruct (find_present s x I Ec) as (a & -> & Ha).
    apply find_at; [exact I'|]. rewrite Hw. exact Ha.
  - assert (contains x s' = false) as Ec'.
    { apply Bool.not_true_iff_false. intros C.
      apply (contains_elements x s' I') in C. unfold elements in C.
      rewrite Hw in C. apply (contains_elements x s I) in C. congruence. }
    unfold find, contains in *.
    destruct (Find (root_ s) x); [|discriminate].
    destruct (Find (root_ s') x); [exact He|discriminate].
Qed.

(** X10.  On a reachable set, inserting a key that is not held and
    erasing it again gives back the same keys, each at the position it
    had; erasing a key that is held and inserting it again gives back
    the same keys. *)
Theorem insert_erase_round_trips (ops : list (op T)) (k : T) :
  Z.of_nat (length ops) < max_ops ->
  exists s,
    run ops = Some s /\
    (find k s = end' s ->
     exists s1 s2,
       insert k s = Some s1 /\ erase k s1 = Some s2 /\
       elements s2 = elements s /\ forall x, find x s2 = find x s) /\
    (find k s <> end' s ->
     exists s1 s2,
       erase k s = Some s1 /\ insert k s1 = Some s2 /\
       elements s2 = elements s).
Proof.
  intros Hb. destruct (run_Inv ops Hb) as (s & E & I & C).
  exists s. split; [exact E|]. split.
  - intros Ha.
    assert (Ec : contains k s = false).
    { destruct (contains k s) eqn:Ec; [|reflexivity].
      apply (find_contains k s I) in Ec. contradiction. }
    destruct (insert_walk s k I C) as (s1 & E1 & I1 & Ee1 & _ & Hw1).
    destruct (erase_walk s1 k I1) as (s2 & E2 & I2 & Ee2 & _ & _ & Hw2).
    rewrite Ec in Hw1.
    assert (Hw : walk (root_ s2) = walk (root_ s)).
    { rewrite Hw2, Hw1. apply del_ins. intros [[a e] x] Hy.
      destruct e; [reflexivity|]. apply keeps_key. intros ->.
      apply Bool.not_true_iff_false in Ec. apply Ec.
      apply (contains_elements k s I). unfold elements. apply In_keys_of. eauto. }
    exists s1, s2. split; [exact E1|]. split; [exact E2|]. split.
    + unfold elements. rewrite Hw. reflexivity.
    + intros x. apply find_by_walk; auto. congruence.
  - intros Hp. destruct (find_present s k I Hp) as (a0 & _ & Ha0).
    destruct (erase_walk s k I) as (s1 & E1 & I1 & _ & _ & C1 & Hw1).
    destruct (insert_walk s1 k I1 ltac:(lia)) as (s2 & E2 & I2 & _ & _ & Hw2).
    assert (Ec : contains k s1 = false).
    { destruct (contains_erase s s1 k k I E1) as (_ & ->).
      rewrite (proj2 (same_key_eq k k) eq_refl). reflexivity. }
    rewrite Ec in Hw2.
    exists s1, s2. split; [exact E1|]. split; [exact E2|].
    unfold elements. rewrite Hw2, Hw1.
    exact (keys_ins_del _ a0 k _ (inv_ord s I) Ha0).
Qed.

End Composition.

(** ** Stepping a cursor *)

Section Stepping.
Context {T : Type} `{Key T}.

(** X11.  On a reachable set the prefix increment of either file and
    the postfix increment of [part_000] move from the position of any
    key to the position of the next greater key, and from the position
    of the greatest key to [end()]. *)
Theorem increment_is_successor (ops : list (op T)) :
  Z.of_nat (length ops) < max_ops ->
  exists s,
    run ops = Some s /\
    forall fuel i x,
      (depth (root_ s) <= fuel)%nat ->
      nth_error (elements s) i = Some x ->
      let next := match nth_error (elements s) (S i) with
                  | Some y => find y s
                  | None => end' s
                  end in
      SetTemplate_h.pre_incr fuel (root_ s) (find x s) = Some next /\
      Part_000.pre_incr fuel (root_ s) (find x s) = Some next /\
      Part_000.post_incr fuel (root_ s) (find x s) = Some next.
Proof.
  intros Hb. destruct (run_Inv ops Hb) as (s & E & I & _).
  exists s. split; [exact E|]. intros fuel i x Hfuel Hx next.
  assert (SetTemplate_h.pre_incr fuel (root_ s) (find x s) = Some next) as Hgoal;
    [|repeat split; exact Hgoal].
  destruct (Inv_sentinel s I) as (fS & lS & body & _ & _ & ES & Ee & Hw & Hbody & Hel).
  rewrite Hel in Hx. apply nth_error_map_Some in Hx as (b & Hb' & <-).
  assert (Hlen : (i < length body)%nat) by (apply nth_error_Some; congruence).
  assert (Hbw : nth_error (walk (root_ s)) i = Some b)
    by (rewrite Hw, nth_error_app1; assumption).
  pose proof (Hbody b (nth_error_In _ _ Hb')) as Heb.
  assert (Hfb : find (t_key b) s = Some (t_addr b)).
  { apply find_at; [exact I|]. apply nth_error_In in Hbw.
    destruct b as [[a e] k]. cbn in Heb. subst e. exact Hbw. }
  destruct (nth_error (walk (root_ s)) (S i)) as [y|] eqn:Hy.
  2:{ apply nth_error_None in Hy. rewrite Hw, length_app in Hy. cbn in Hy. lia. }
  assert (Hroot : has (root_ s) (root_ s)).
  { destruct (root_ s); [destruct i; discriminate|apply has_refl]. }
  rewrite Hfb. unfold SetTemplate_h.pre_incr.
  rewrite (increment_next _ (inv_nodup s I) _ None Hroot (inv_par s I) (inv_ord s I)
             i b y Hbw Hy Heb fuel Hfuel).
  f_equal. subst next. rewrite Hel, nth_error_map.
  rewrite Hw in Hy.
  destruct (Nat.eq_dec (S i) (length body)) as [El|Nl].
  - rewrite nth_error_app2, El, Nat.sub_diag in Hy by lia. cbn in Hy.
    injection Hy as <-.
    assert (nth_error body (length body) = None) as Hn by (apply nth_error_None; lia).
    rewrite El, Hn. cbn. unfold end'. rewrite Ee. reflexivity.
  - rewrite nth_error_app1 in Hy by lia. rewrite Hy. cbn. symmetry.
    apply find_at; [exact I|].
    pose proof (Hbody y (nth_error_In _ _ Hy)) as Hey.
    assert (In y (walk (root_ s))) as Hin
      by (rewrite Hw; apply in_or_app; left; eapply nth_error_In; exact Hy).
    destruct y as [[a e] k]. cbn in Hey. subst e. exact Hin.
Qed.

(** the postfix increment of [SetTemplate.h], whose walk is not
    guarded by [is_end], when the next node is not the sentinel *)
Lemma post_increment_next (h : node T) :
  NoDup (addrs h) ->
  forall (t : node T) (p : ptr),
    has h t -> parents_ok p t -> ordered (walk t) ->
    forall i x y,
      nth_error (walk t) i = Some x -> nth_error (walk t) (S i) = Some y ->
      t_end x = false -> t_end y = false ->
      forall fuel, (depth t <= fuel)%nat ->
        increment false fuel h (Some (t_addr x)) = Some (Some (t_addr y)).
Proof.
  intros Hnd. induction t as [|f l IHl r IHr];
    intros p Hh Hp Ho i x y Hx Hy He Hey fuel Hfuel.
  { destruct i; discriminate. }
  cbn [parents_ok] in Hp. destruct Hp as (Hpf & Hpl & Hpr).
  assert (Hhl : forall u, has l u -> has h u).
  { intros u Hu. eapply has_trans; [exact Hh|]. cbn [has]. auto. }
  assert (Hhr : forall u, has r u -> has h u).
  { intros u Hu. eapply has_trans; [exact Hh|]. cbn [has]. auto. }
  rewrite walk_Node in Hx, Hy, Ho.
  pose proof (ordered_mid _ _ _ Ho) as (Hol & Hor & Hlf & Hfr & _).
  cbn [depth] in Hfuel.
  destruct (Nat.lt_trichotomy (S i) (length (walk l))) as [Hlt|[Heq|Hgt]].
  - rewrite nth_error_app1 in Hx, Hy by lia.
    destruct l as [|fl ll lr]; [destruct i; discriminate|].
    apply (IHl (Some (self f))) with (i := i); auto.
    + apply Hhl. apply has_refl.
    + lia.
  - rewrite nth_error_app1 in Hx by lia.
    rewrite nth_error_app2, Heq, Nat.sub_diag in Hy by lia.
    cbn in Hy. injection Hy as <-.
    destruct l as [|fl ll lr]; [discriminate|].
    destruct (FindEnd_last fl ll lr) as (fm & ml & Em & Hm & pre & Hw).
    rewrite Hw in Hx, Heq. rewrite length_app in Heq. cbn [length] in Heq.
    rewrite nth_error_app2 in Hx by lia.
    replace (i - length pre)%nat with O in Hx by lia.
    cbn in Hx. injection Hx as <-.
    change (t_end (tag fm)) with (is_end fm) in He.
    change (t_end (tag f)) with (is_end f) in Hey.
    change (t_addr (tag fm)) with (self fm). change (t_addr (tag f)) with (self f).
    unfold increment. cbn [bind].
    rewrite (has_deref _ _ _ _ Hnd (Hhl _ Hm)), He.
    pose proof (right_spine_depth (Node fl ll lr)) as Hsp.
    replace fuel
      with (S (fuel - S (right_spine (Node fl ll lr)))
            + right_spine (Node fl ll lr))%nat by lia.
    rewrite (climb_right_spine false h (key fm) Hnd (Node fl ll lr) (Some (self f)))
      with (lx := ml); auto.
    + cbn [climb_greater bind]. rewrite (has_deref _ _ _ _ Hnd Hh).
      specialize (Hlf (tag fm)). rewrite Hw in Hlf.
      specialize (Hlf ltac:(apply in_or_app; right; left; reflexivity)).
      unfold before in Hlf.
      change (t_end (tag fm)) with (is_end fm) in Hlf. rewrite He in Hlf.
      change (t_end (tag f)) with (is_end f) in Hlf. rewrite Hey in Hlf.
      cbn in Hlf. change (t_key (tag fm)) with (key fm).
      rewrite Hlf. reflexivity.
    + apply Hhl. apply has_refl.
    + rewrite Hw. rewrite Hw in Hol. intros g Hg.
      apply in_app_or in Hg as [Hg|[<-|[]]].
      * pose proof (ordered_mid _ _ _ Hol) as (_ & _ & Hb & _).
        specialize (Hb g Hg). unfold before in Hb.
        apply andb_true_iff in Hb as [Hg1 Hg2]. apply negb_true_iff in Hg1.
        change (t_end (tag fm)) with (is_end fm) in Hg2. rewrite He in Hg2.
        split; [exact Hg1|]. apply less_asym. exact Hg2.
      * split; [exact He|]. apply less_irrefl.
  - destruct (Nat.eq_dec i (length (walk l))) as [Ei|Ei].
    + rewrite nth_error_app2, Ei, Nat.sub_diag in Hx by lia.
      cbn in Hx. injection Hx as <-.
      rewrite nth_error_app2 in Hy by lia.
      replace (S i - length (walk l))%nat with 1%nat in Hy by lia.
      cbn in Hy.
      destruct r as [|fr rl rr]; [discriminate|].
      destruct (GetLeftmost_first fr rl rr) as (fm & mr & rest & Em & _ & Hw).
      rewrite Hw in Hy. cbn in Hy. injection Hy as <-.
      change (t_end (tag f)) with (is_end f) in He.
      change (t_addr (tag f)) with (self f).
      unfold increment. cbn [bind].
      rewrite (has_deref _ _ _ _ Hnd Hh), He, Em. reflexivity.
    + rewrite nth_error_app2 in Hx, Hy by lia.
      replace (i - length (walk l))%nat with (S (i - length (walk l) - 1)) in Hx by lia.
      replace (S i - length (walk l))%nat with (S (S (i - length (walk l) - 1))) in Hy by lia.
      cbn [nth_error] in Hx, Hy.
      destruct r as [|fr rl rr];
        [destruct (i - length (walk l) - 1)%nat; discriminate|].
      apply (IHr (Some (self f))) with (i := (i - length (walk l) - 1)%nat); auto.
      * apply Hhr. apply has_refl.
      * lia.
Qed.

(** a sentinel without a left child, in a set that holds a key, is the
    right child of the node of the greatest key *)
Lemma sentinel_parent_is_max (s : Set_ T) fS :
  Inv s -> has (root_ s) (Node fS nullptr nullptr) -> is_end fS = true ->
  elements s <> [] ->
  exists fP lP pre,
    has (root_ s) (Node fP lP (Node fS nullptr nullptr)) /\
    parent fS = Some (self fP) /\
    walk (root_ s) = pre ++ [tag fP; tag fS].
Proof.
  intros I HS ES Hne. pose proof (inv_ord s I) as Hord.
  destruct (has_parent _ None _ _ _ (inv_par s I) HS)
    as [(Er & _)|(fP & lP & rP & HP & Ep & Hc)].
  - exfalso. apply Hne. unfold elements. rewrite Er. cbn.
    unfold keys_of. cbn. rewrite ES. reflexivity.
  - destruct (has_segment _ _ HP) as (pre & post & HwP).
    rewrite walk_Node in HwP. destruct Hc as [-> | ->].
    + exfalso. cbn [walk inorder map app] in HwP. rewrite HwP in Hord.
      pose proof (ordered_end_last pre (tag fS) _ Hord ES). discriminate.
    + change (walk (Node fS nullptr nullptr)) with [tag fS] in HwP.
      rewrite <- !app_assoc in HwP. cbn [app] in HwP.
      assert (post = []) as ->.
      { rewrite HwP in Hord.
        pose proof (ordered_end_last (pre ++ walk lP ++ [tag fP]) (tag fS) post) as C.
        rewrite <- !app_assoc in C. cbn [app] in C. exact (C Hord ES). }
      exists fP, lP, (pre ++ walk lP). split; [exact HP|]. split; [exact Ep|].
      rewrite HwP, <- app_assoc. reflexivity.
Qed.

(** X12.  On a reachable set the postfix increment of [SetTemplate.h]
    moves from the position of a key to the position of the next
    greater key when there is one, and from the position of the
    greatest key to [end()] when the sentinel has no left child. *)
Theorem postfix_increment_where_right (ops : list (op T)) :
  Z.of_nat (length ops) < max_ops ->
  exists s,
    run ops = Some s /\
    forall fuel i x,
      (depth (root_ s) <= fuel)%nat ->
      nth_error (elements s) i = Some x ->
      (forall y, nth_error (elements s) (S i) = Some y ->
                 SetTemplate_h.post_incr fuel (root_ s) (find x s) = Some (find y s)) /\
      (nth_error (elements s) (S i) = None ->
       (exists aS fS r, end' s = Some aS /\ deref (root_ s) aS = Node fS nullptr r) ->
       SetTemplate_h.post_incr fuel (root_ s) (find x s) = Some (end' s)).
Proof.
  intros Hb. destruct (run_Inv ops Hb) as (s & E & I & _).
  exists s. split; [exact E|]. intros fuel i x Hfuel Hx.
  destruct (Inv_sentinel s I) as (fS & lS & body & _ & HS & ES & Ee & Hw & Hbody & Hel).
  rewrite Hel in Hx. apply nth_error_map_Some in Hx as (b & Hb' & <-).
  assert (Hlen : (i < length body)%nat) by (apply nth_error_Some; congruence).
  assert (Hbw : nth_error (walk (root_ s)) i = Some b)
    by (rewrite Hw, nth_error_app1; assumption).
  pose proof (Hbody b (nth_error_In _ _ Hb')) as Heb.
  assert (Hfb : find (t_key b) s = Some (t_addr b)).
  { apply find_at; [exact I|]. apply nth_error_In in Hbw.
    destruct b as [[a e] k]. cbn in Heb. subst e. exact Hbw. }
  assert (Hroot : has (root_ s) (root_ s)).
  { destruct (root_ s); [destruct i; discriminate|apply has_refl]. }
  rewrite Hfb. unfold SetTemplate_h.post_incr. split.
  - intros y Hy. rewrite Hel in Hy. apply nth_error_map_Some in Hy as (c & Hc & <-).
    assert (Hcw : nth_error (walk (root_ s)) (S i) = Some c).
    { rewrite Hw, nth_error_app1; [exact Hc|]. apply nth_error_Some. congruence. }
    pose proof (Hbody c (nth_error_In _ _ Hc)) as Hec.
    rewrite (post_increment_next _ (inv_nodup s I) _ None Hroot (inv_par s I)
               (inv_ord s I) i b c Hbw Hcw Heb Hec fuel Hfuel).
    f_equal. symmetry. apply find_at; [exact I|].
    apply nth_error_In in Hcw. destruct c as [[a e] k]. cbn in Hec. subst e.
    exact Hcw.
  - intros Hn (aS & fS' & r' & Ea & Ed).
    unfold end' in Ea. rewrite Ee in Ea. injection Ea as <-.
    rewrite (has_deref _ _ _ _ (inv_nodup s I) HS) in Ed.
    injection Ed as <- -> <-.
    assert (Hne : elements s <> []).
    { rewrite Hel. destruct body; [destruct i; discriminate|discriminate]. }
    destruct (sentinel_parent_is_max s fS I HS ES Hne) as (fP & lP & pre & HP & _ & HwP).
    rewrite Hel, nth_error_map in Hn.
    assert (S i = length body).
    { destruct (nth_error body (S i)) eqn:Hq; [discriminate|].
      apply nth_error_None in Hq. lia. }
    assert (b = tag fP) as ->.
    { rewrite HwP in Hbw. rewrite Hw in HwP.
      replace (pre ++ [tag fP; tag fS]) with ((pre ++ [tag fP]) ++ [tag fS]) in HwP
        by (rewrite <- app_assoc; reflexivity).
      apply app_inj_tail in HwP as [Hbp _].
      rewrite Hbp, length_app in H0. cbn in H0.
      rewrite nth_error_app2 in Hbw by lia.
      replace (i - length pre)%nat with O in Hbw by lia. cbn in Hbw.
      congruence. }
    change (t_addr (tag fP)) with (self fP).
    change (t_end (tag fP)) with (is_end fP) in Heb.
    unfold increment. cbn [bind].
    rewrite (has_deref _ _ _ _ (inv_nodup s I) HP), Heb. cbn.
    unfold end'. rewrite Ee. reflexivity.
Qed.

End Stepping.

Section SteppingBack.
Context {T : Type} `{Key T}.

Lemma GetRightmost_FindEnd (v : node T) : GetRightmost v = FindEnd v.
Proof. induction v as [|f l _ r IHr]; [reflexivity|]. destruct r; auto. Qed.

Lemma left_spine_depth (v : node T) : (length (left_spine v) <= depth v)%nat.
Proof. induction v as [|f l IHl r _]; cbn; lia. Qed.

(** [--] from the leftmost node of a sub-tree [t] hanging below [pa]
    ends where the upward walk from [pa] ends *)
Lemma decrement_leftmost (h : node T) (k0 : T) (res : ptr) :
  NoDup (addrs h) ->
  (forall fS lS rS, has h (Node fS lS rS) -> is_end fS = true ->
     lS = nullptr \/ exists fl, lS = Node fl nullptr nullptr) ->
  forall (t : node T) (pa : addr) (n0 : nat) fpa lpa rpa fm mr,
    has h t -> parents_ok (Some pa) t -> ordered (walk t) ->
    deref h pa = Node fpa lpa rpa -> is_end fpa = false ->
    GetLeftmost t = Some (Node fm nullptr mr) -> is_end fm = false ->
    key fm = k0 ->
    (forall g n, (n0 <= n)%nat -> climb_lesser g n h (Some pa) k0 = Some res) ->
    forall fuel, (n0 + length (left_spine t) <= fuel)%nat ->
      SetTemplate_h.pre_decr fuel h (Some (self fm)) = Some res /\
      Part_000.pre_decr fuel h (Some (self fm)) = Some res.
Proof.
  intros Hnd Hend. induction t as [|ft lt IHl rt _];
    intros pa n0 fpa lpa rpa fm mr Hh Hp Ho Hpa Epa Em He Hk Hup fuel Hfuel;
    [discriminate|].
  cbn [parents_ok] in Hp. destruct Hp as (Hpf & Hpl & _).
  destruct lt as [|fl ll lr].
  - cbn in Em. injection Em as <- <-.
    cbn [left_spine length] in Hfuel.
    destruct fuel as [|fuel]; [lia|].
    assert (Hc : forall g, climb_lesser g (S fuel) h (Some (self ft)) k0 = Some res).
    { intros g. cbn [climb_lesser bind]. rewrite (has_deref _ _ _ _ Hnd Hh).
      rewrite He, andb_false_r, <- Hk, less_irrefl. cbn [negb andb].
      rewrite Hpf, Hk. apply Hup. lia. }
    unfold SetTemplate_h.pre_decr, Part_000.pre_decr, Part_000.HopEndParent,
      Part_000.GetLesserParent.
    cbn [bind]. rewrite (has_deref _ _ _ _ Hnd Hh), He, Hpf.
    cbn [bind]. rewrite Hpa, Epa.
    cbn [bind]. rewrite Hk. split; apply Hc.
  - change (GetLeftmost (Node ft (Node fl ll lr) rt))
      with (GetLeftmost (Node fl ll lr)) in Em.
    assert (Hhl : has h (Node fl ll lr)).
    { eapply has_trans; [exact Hh|]. cbn [has]. right. left. left. reflexivity. }
    destruct (is_end ft) eqn:Eft.
    + destruct (Hend _ _ _ Hh Eft) as [C|(fl' & C)]; [discriminate|].
      injection C as -> -> ->.
      cbn in Em. injection Em as <- <-.
      cbn [parents_ok] in Hpl. destruct Hpl as (Hpfl & _).
      unfold SetTemplate_h.pre_decr, Part_000.pre_decr, Part_000.HopEndParent,
        Part_000.GetLesserParent.
      cbn [bind]. rewrite (has_deref _ _ _ _ Hnd Hhl), He, Hpfl.
      cbn [bind]. rewrite (has_deref _ _ _ _ Hnd Hh), Eft, Hpf. cbn [bind].
      rewrite Hk. split; apply Hup; lia.
    + rewrite walk_Node in Ho.
      pose proof (ordered_mid _ _ _ Ho) as (Hol & _ & Hlf & _).
      destruct (GetLeftmost_first fl ll lr) as (fm' & mr' & rest & Em' & Hm & Hw).
      rewrite Em in Em'. injection Em' as <- <-.
      assert (Hlt : less (key fm) (key ft) = true).
      { specialize (Hlf (tag fm)). rewrite Hw in Hlf.
        specialize (Hlf (or_introl eq_refl)). unfold before in Hlf.
        change (t_end (tag fm)) with (is_end fm) in Hlf.
        change (t_end (tag ft)) with (is_end ft) in Hlf.
        rewrite He, Eft in Hlf. exact Hlf. }
      apply (IHl (self ft) (S n0) ft (Node fl ll lr) rt fm mr); auto.
      * apply (has_deref _ _ _ _ Hnd Hh).
      * intros g n Hn. destruct n as [|n]; [lia|].
        cbn [climb_lesser bind]. rewrite (has_deref _ _ _ _ Hnd Hh).
        rewrite Eft, andb_false_r, <- Hk, (less_asym _ _ Hlt). cbn [negb andb].
        rewrite Hpf, Hk. apply Hup. lia.
      * cbn [left_spine length] in Hfuel |- *. lia.
Qed.

(** [--] from a key node that is not the first of the traversal reaches
    the node before it *)
Lemma decrement_prev (h : node T) :
  NoDup (addrs h) ->
  (forall fS lS rS, has h (Node fS lS rS) -> is_end fS = true ->
     lS = nullptr \/ exists fl, lS = Node fl nullptr nullptr) ->
  forall (t : node T) (p : ptr),
    has h t -> parents_ok p t -> ordered (walk t) ->
    forall i y x,
      nth_error (walk t) i = Some y -> nth_error (walk t) (S i) = Some x ->
      t_end x = false ->
      forall fuel, (depth t <= fuel)%nat ->
        SetTemplate_h.pre_decr fuel h (Some (t_addr x)) = Some (Some (t_addr y)) /\
        Part_000.pre_decr fuel h (Some (t_addr x)) = Some (Some (t_addr y)).
Proof.
  intros Hnd Hend. induction t as [|f l IHl r IHr];
    intros p Hh Hp Ho i y x Hy Hx He fuel Hfuel.
  { destruct i; discriminate. }
  cbn [parents_ok] in Hp. destruct Hp as (Hpf & Hpl & Hpr).
  assert (Hhl : forall u, has l u -> has h u).
  { intros u Hu. eapply has_trans; [exact Hh|]. cbn [has]. auto. }
  assert (Hhr : forall u, has r u -> has h u).
  { intros u Hu. eapply has_trans; [exact Hh|]. cbn [has]. auto. }
  rewrite walk_Node in Hx, Hy, Ho.
  pose proof (ordered_mid _ _ _ Ho) as (Hol & Hor & Hlf & Hfr & _).
  cbn [depth] in Hfuel.
  destruct (Nat.lt_trichotomy (S i) (length (walk l))) as [Hlt|[Heq|Hgt]].
  - rewrite nth_error_app1 in Hx, Hy by lia.
    destruct l as [|fl ll lr]; [destruct i; discriminate|].
    apply (IHl (Some (self f))) with (i := i); auto.
    + apply Hhl. apply has_refl.
    + lia.
  - (* from the root of [t] to the last node of its left sub-tree *)
    rewrite nth_error_app1 in Hy by lia.
    rewrite nth_error_app2, Heq, Nat.sub_diag in Hx by lia.
    cbn in Hx. injection Hx as <-.
    destruct l as [|fl ll lr]; [discriminate|].
    destruct (FindEnd_last fl ll lr) as (fm & ml & Em & Hm & pre & Hw).
    rewrite Hw in Hy, Heq. rewrite length_app in Heq. cbn [length] in Heq.
    rewrite nth_error_app2 in Hy by lia.
    replace (i - length pre)%nat with O in Hy by lia.
    cbn in Hy. injection Hy as <-.
    change (t_end (tag f)) with (is_end f) in He.
    change (t_addr (tag fm)) with (self fm). change (t_addr (tag f)) with (self f).
    unfold SetTemplate_h.pre_decr, Part_000.pre_decr. cbn [bind].
    rewrite (has_deref _ _ _ _ Hnd Hh), He, GetRightmost_FindEnd, Em.
    cbn. auto.
  - destruct (Nat.eq_dec i (length (walk l))) as [Ei|Ei].
    + (* from the first node of the right sub-tree to the root of [t] *)
      rewrite nth_error_app2, Ei, Nat.sub_diag in Hy by lia.
      cbn in Hy. injection Hy as <-.
      rewrite nth_error_app2 in Hx by lia.
      replace (S i - length (walk l))%nat with 1%nat in Hx by lia.
      cbn in Hx.
      destruct r as [|fr rl rr]; [discriminate|].
      destruct (GetLeftmost_first fr rl rr) as (fm & mr & rest & Em & _ & Hw).
      rewrite Hw in Hx. cbn in Hx. injection Hx as <-.
      change (t_end (tag fm)) with (is_end fm) in He.
      change (t_addr (tag fm)) with (self fm). change (t_addr (tag f)) with (self f).
      specialize (Hfr (tag fm)). rewrite Hw in Hfr.
      specialize (Hfr (or_introl eq_refl)). unfold before in Hfr.
      change (t_end (tag fm)) with (is_end fm) in Hfr. rewrite He in Hfr.
      apply andb_true_iff in Hfr as [Hef Hlt]. apply negb_true_iff in Hef.
      change (t_end (tag f)) with (is_end f) in Hef. cbn in Hlt.
      pose proof (left_spine_depth (Node fr rl rr)) as Hsp.
      apply (decrement_leftmost h (key fm) (Some (self f)) Hnd Hend
               (Node fr rl rr) (self f) 1%nat f l (Node fr rl rr) fm mr); auto.
      * apply Hhr. apply has_refl.
      * apply (has_deref _ _ _ _ Hnd Hh).
      * intros g n Hn. destruct n as [|n]; [lia|].
        cbn [climb_lesser bind]. rewrite (has_deref _ _ _ _ Hnd Hh).
        rewrite Hlt, andb_false_r. reflexivity.
      * lia.
    + rewrite nth_error_app2 in Hx, Hy by lia.
      replace (i - length (walk l))%nat with (S (i - length (walk l) - 1)) in Hy by lia.
      replace (S i - length (walk l))%nat with (S (S (i - length (walk l) - 1))) in Hx by lia.
      cbn [nth_error] in Hx, Hy.
      destruct r as [|fr rl rr];
        [destruct (i - length (walk l) - 1)%nat; discriminate|].
      apply (IHr (Some (self f))) with (i := (i - length (walk l) - 1)%nat); auto.
      * apply Hhr. apply has_refl.
      * lia.
Qed.

(** the sentinel of a set has at most one node below it *)
Lemma Inv_end_shape (s : Set_ T) :
  Inv s ->
  forall fS lS rS, has (root_ s) (Node fS lS rS) -> is_end fS = true ->
    lS = nullptr \/ exists fl, lS = Node fl nullptr nullptr.
Proof.
  intros I fS lS rS HS ES.
  destruct (end_shape _ _ _ (avl_has _ _ _ _ (inv_avl s I) HS)
              (ordered_has _ _ (inv_ord s I) HS) ES) as (_ & [->|(fl & -> & _)]);
    [left; reflexivity|right; exists fl; reflexivity].
Qed.

(** the [i]-th key of the set sits in the [i]-th node of the traversal *)
Lemma position_of_key (s : Set_ T) :
  Inv s ->
  forall i x, nth_error (elements s) i = Some x ->
    exists b, nth_error (walk (root_ s)) i = Some b /\ t_end b = false /\
              find x s = Some (t_addr b).
Proof.
  intros I i x Hx.
  destruct (Inv_sentinel s I) as (fS & lS & body & _ & _ & ES & Ee & Hw & Hbody & Hel).
  rewrite Hel in Hx. apply nth_error_map_Some in Hx as (b & Hb & <-).
  assert (Hlen : (i < length body)%nat) by (apply nth_error_Some; congruence).
  assert (Hbw : nth_error (walk (root_ s)) i = Some b)
    by (rewrite Hw, nth_error_app1; assumption).
  pose proof (Hbody b (nth_error_In _ _ Hb)) as Heb.
  exists b. split; [exact Hbw|]. split; [exact Heb|].
  apply find_at; [exact I|]. apply nth_error_In in Hbw.
  destruct b as [[a e] k]. cbn in Heb. subst e. exact Hbw.
Qed.

(** past the keys comes the sentinel, the position [end()] *)
Lemma position_or_end (s : Set_ T) :
  Inv s ->
  forall i, (i <= length (elements s))%nat ->
    exists c, nth_error (walk (root_ s)) i = Some c /\
              match nth_error (elements s) i with
              | Some y => find y s
              | None => end' s
              end = Some (t_addr c).
Proof.
  intros I i Hi.
  destruct (nth_error (elements s) i) as [y|] eqn:Hy.
  - destruct (position_of_key s I i y Hy) as (b & Hb & _ & Hf). exists b. auto.
  - apply nth_error_None in Hy. assert (i = length (elements s)) as -> by lia.
    destruct (Inv_sentinel s I) as (fS & lS & body & _ & _ & ES & Ee & Hw & _ & Hel).
    exists (tag fS). rewrite Hel, length_map, Hw.
    rewrite nth_error_app2, Nat.sub_diag by lia.
    split; [reflexivity|]. unfold end'. rewrite Ee. reflexivity.
Qed.

(** [--] from any node but the first of the traversal reaches the node
    before it *)
Lemma decrement_at (s : Set_ T) :
  Inv s ->
  forall fuel i y x,
    (depth (root_ s) <= fuel)%nat ->
    nth_error (walk (root_ s)) i = Some y ->
    nth_error (walk (root_ s)) (S i) = Some x ->
    SetTemplate_h.pre_decr fuel (root_ s) (Some (t_addr x)) = Some (Some (t_addr y)) /\
    Part_000.pre_decr fuel (root_ s) (Some (t_addr x)) = Some (Some (t_addr y)).
Proof.
  intros I fuel i y x Hfuel Hy Hx.
  assert (Hroot : has (root_ s) (root_ s)).
  { destruct (root_ s); [destruct i; discriminate|apply has_refl]. }
  destruct (t_end x) eqn:Ex.
  2:{ exact (decrement_prev _ (inv_nodup s I) (Inv_end_shape s I) _ None Hroot
               (inv_par s I) (inv_ord s I) i y x Hy Hx Ex fuel Hfuel). }
  destruct (Inv_sentinel s I) as (fS & lS & body & _ & HS & ES & Ee & Hw & Hbody & Hel).
  assert (Hi : S i = length body).
  { destruct (Nat.lt_trichotomy (S i) (length body)) as [Hlt|[Heq|Hgt]];
      [|exact Heq|].
    - rewrite Hw, nth_error_app1 in Hx by lia.
      rewrite (Hbody x (nth_error_In _ _ Hx)) in Ex. discriminate.
    - assert (nth_error (walk (root_ s)) (S i) = None) as C.
      { apply nth_error_None. rewrite Hw, length_app. cbn. lia. }
      congruence. }
  assert (x = tag fS) as ->.
  { rewrite Hw, nth_error_app2, Hi, Nat.sub_diag in Hx by lia. cbn in Hx. congruence. }
  rewrite Hw, nth_error_app1 in Hy by lia.
  change (t_addr (tag fS)) with (self fS).
  unfold SetTemplate_h.pre_decr, Part_000.pre_decr, Part_000.DecreaseEnd. cbn [bind].
  rewrite (has_deref _ _ _ _ (inv_nodup s I) HS), ES.
  destruct (Inv_end_shape s I _ _ _ HS ES) as [->|(fl & ->)].
  - assert (Hne : elements s <> []).
    { rewrite Hel. destruct body; [discriminate|discriminate]. }
    destruct (sentinel_parent_is_max s fS I HS ES Hne) as (fP & lP & pre & _ & Ep & HwP).
    rewrite Hw in HwP.
    replace (pre ++ [tag fP; tag fS]) with ((pre ++ [tag fP]) ++ [tag fS]) in HwP
      by (rewrite <- app_assoc; reflexivity).
    apply app_inj_tail in HwP as [Hbp _].
    rewrite Hbp, length_app in Hi. cbn in Hi.
    rewrite Hbp, nth_error_app2 in Hy by lia.
    replace (i - length pre)%nat with O in Hy by lia. cbn in Hy.
    injection Hy as <-. rewrite Ep. auto.
  - destruct (has_segment _ _ HS) as (pre & post & HwS).
    change (walk (Node fS (Node fl nullptr nullptr) nullptr))
      with ([tag fl; tag fS]) in HwS. cbn [app] in HwS.
    assert (post = []) as ->.
    { pose proof (inv_ord s I) as Ho. rewrite HwS in Ho.
      pose proof (ordered_end_last (pre ++ [tag fl]) (tag fS) post) as C.
      rewrite <- app_assoc in C. exact (C Ho ES). }
    rewrite Hw in HwS.
    replace (pre ++ [tag fl; tag fS]) with ((pre ++ [tag fl]) ++ [tag fS]) in HwS
      by (rewrite <- app_assoc; reflexivity).
    apply app_inj_tail in HwS as [Hbp _].
    rewrite Hbp, length_app in Hi. cbn in Hi.
    rewrite Hbp, nth_error_app2 in Hy by lia.
    replace (i - length pre)%nat with O in Hy by lia. cbn in Hy.
    injection Hy as <-. cbn. auto.
Qed.

(** X13.  On a reachable set the decrement operators of both files move
    from [end()] to the position of the greatest key, and from the
    position of any key but the least to the position of the next
    smaller key. *)
Theorem decrement_is_predecessor (ops : list (op T)) :
  Z.of_nat (length ops) < max_ops ->
  exists s,
    run ops = Some s /\
    forall fuel i y,
      (depth (root_ s) <= fuel)%nat ->
      nth_error (elements s) i = Some y ->
      let here := match nth_error (elements s) (S i) with
                  | Some x => find x s
                  | None => end' s
                  end in
      SetTemplate_h.pre_decr fuel (root_ s) here = Some (find y s) /\
      SetTemplate_h.post_decr fuel (root_ s) here = Some (find y s) /\
      Part_000.pre_decr fuel (root_ s) here = Some (find y s) /\
      Part_000.post_decr fuel (root_ s) here = Some (find y s).
Proof.
  intros Hb. destruct (run_Inv ops Hb) as (s & E & I & _).
  exists s. split; [exact E|]. intros fuel i y Hfuel Hy here.
  destruct (position_of_key s I i y Hy) as (b & Hbw & _ & Hf).
  assert (Hi : (S i <= length (elements s))%nat).
  { apply Nat.le_succ_l. apply nth_error_Some. congruence. }
  destruct (position_or_end s I (S i) Hi) as (c & Hcw & Hc).
  subst here. rewrite Hc, Hf.
  unfold SetTemplate_h.post_decr, Part_000.post_decr.
  destruct (decrement_at s I fuel i b c Hfuel Hbw Hcw) as [H1 H2].
  auto.
Qed.

(** X14.  On a reachable set, stepping forward from the position of a
    key and then back returns to that position, and stepping back from
    any position other than [begin()] and then forward returns to it,
    with the prefix operators of either file. *)
Theorem increment_decrement_round_trip (ops : list (op T)) :
  Z.of_nat (length ops) < max_ops ->
  exists s,
    run ops = Some s /\
    forall fuel,
      (depth (root_ s) <= fuel)%nat ->
      (forall x, In x (elements s) ->
         (it <- SetTemplate_h.pre_incr fuel (root_ s) (find x s) ;;
          SetTemplate_h.pre_decr fuel (root_ s) it) = Some (find x s) /\
         (it <- Part_000.pre_incr fuel (root_ s) (find x s) ;;
          Part_000.pre_decr fuel (root_ s) it) = Some (find x s)) /\
      (forall it,
         it = end' s \/ (exists x, In x (elements s) /\ it = find x s) ->
         Some it <> begin s ->
         (it' <- SetTemplate_h.pre_decr fuel (root_ s) it ;;
          SetTemplate_h.pre_incr fuel (root_ s) it') = Some it /\
         (it' <- Part_000.pre_decr fuel (root_ s) it ;;
          Part_000.pre_incr fuel (root_ s) it') = Some it).
Proof.
  intros Hb. destruct (run_Inv ops Hb) as (s & E & I & _).
  exists s. split; [exact E|]. intros fuel Hfuel.
  assert (Hstep : forall i b c,
            nth_error (walk (root_ s)) i = Some b ->
            nth_error (walk (root_ s)) (S i) = Some c ->
            t_end b = false ->
            increment true fuel (root_ s) (Some (t_addr b)) = Some (Some (t_addr c))).
  { intros i b c Hbw Hcw Heb.
    assert (Hroot : has (root_ s) (root_ s)).
    { destruct (root_ s); [destruct i; discriminate|apply has_refl]. }
    exact (increment_next _ (inv_nodup s I) _ None Hroot (inv_par s I) (inv_ord s I)
             i b c Hbw Hcw Heb fuel Hfuel). }
  split.
  - intros x Hx. apply In_nth_error in Hx as (i & Hx).
    destruct (position_of_key s I i x Hx) as (b & Hbw & Heb & Hf).
    assert (Hi : (S i <= length (elements s))%nat).
    { apply Nat.le_succ_l. apply nth_error_Some. congruence. }
    destruct (position_or_end s I (S i) Hi) as (c & Hcw & _).
    destruct (decrement_at s I fuel i b c Hfuel Hbw Hcw) as [H1 H2].
    change (@Part_000.pre_incr T H) with (@increment T H true).
    unfold SetTemplate_h.pre_incr.
    rewrite Hf, (Hstep i b c Hbw Hcw Heb). cbn [bind]. auto.
  - intros it Hit Hnb.
    assert (exists j c, (j <= length (elements s))%nat /\
                        nth_error (walk (root_ s)) j = Some c /\ it = Some (t_addr c))
      as (j & c & Hj & Hcw & ->).
    { destruct Hit as [->|(x & Hx & ->)].
      - destruct (position_or_end s I (length (elements s)) (Nat.le_refl _))
          as (c & Hcw & Hc).
        assert (nth_error (elements s) (length (elements s)) = None) as Hn
          by (apply nth_error_None; lia).
        rewrite Hn in Hc. exists (length (elements s)), c. auto.
      - apply In_nth_error in Hx as (i & Hx).
        destruct (position_of_key s I i x Hx) as (b & Hbw & _ & Hf).
        exists i, b. split; [|auto].
        apply Nat.lt_le_incl. apply nth_error_Some. congruence. }
    destruct j as [|i].
    { exfalso. apply Hnb. destruct (begin_first s I) as (x0 & H0 & ->).
      rewrite Hcw in H0. injection H0 as <-. reflexivity. }
    destruct (nth_error (elements s) i) as [y|] eqn:Hy.
    2:{ apply nth_error_None in Hy. lia. }
    destruct (position_of_key s I i y Hy) as (b & Hbw & Heb & _).
    destruct (decrement_at s I fuel i b c Hfuel Hbw Hcw) as [H1 H2].
    rewrite H1, H2. cbn [bind].
    change (@Part_000.pre_incr T H) with (@increment T H true).
    unfold SetTemplate_h.pre_incr. rewrite (Hstep i b c Hbw Hcw Heb). auto.
Qed.

End SteppingBack.

Section Copying.
Context {T : Type} `{Key T}.
Implicit Types (v l r : node T) (f : fields T) (p : ptr) (a : addr).
Implicit Types (xs ys : list (addr * bool * T)).

Lemma before_vals (x y x' y' : addr * bool * T) :
  t_val x = t_val x' -> t_val y = t_val y' -> before x y = before x' y'.
Proof.
  unfold t_val, before.
  destruct (t_end x), (t_end x'), (t_end y), (t_end y'); cbn;
    try discriminate; try reflexivity.
  intros [= ->] [= ->]. reflexivity.
Qed.

Lemma ordered_vals xs ys :
  map t_val xs = map t_val ys -> ordered xs -> ordered ys.
Proof.
  revert ys. induction xs as [|x xs IH]; intros [|y ys]; try discriminate.
  - auto.
  - cbn [map ordered]. intros [= Exy E] (Hx & Ho). split; [|apply IH; assumption].
    intros z Hz. apply (in_map t_val) in Hz. rewrite <- E in Hz.
    apply in_map_iff in Hz as (z' & Ez & Hz').
    rewrite <- (before_vals x z' y z Exy Ez). apply Hx. exact Hz'.
Qed.

Lemma keys_of_vals xs ys : map t_val xs = map t_val ys -> keys_of xs = keys_of ys.
Proof.
  revert ys. induction xs as [|x xs IH]; intros [|y ys]; try discriminate.
  - reflexivity.
  - cbn [map]. intros [= Exy E]. unfold keys_of in *. cbn [filter].
    specialize (IH ys E). unfold t_val in Exy.
    destruct (t_end x), (t_end y); cbn [negb map]; try discriminate.
    + exact IH.
    + injection Exy as ->. rewrite IH. reflexivity.
Qed.

Lemma CopyNode_root v p a :
  v <> nullptr -> addr_of (fst (CopyNode v p a)) = Some a.
Proof.
  destruct v as [|f l r]; [congruence|]. intros _. cbn [CopyNode].
  destruct (CopyNode l (Some a) (S a)) as [l' a1].
  destruct (is_end f); [reflexivity|].
  destruct (CopyNode r (Some a) a1) as [r' a2]. reflexivity.
Qed.

(** the copy is built from the addresses [a .. a' - 1], each used once *)
Lemma CopyNode_fresh v p a :
  (a <= snd (CopyNode v p a))%nat /\
  NoDup (addrs (fst (CopyNode v p a))) /\
  forall b, In b (addrs (fst (CopyNode v p a))) ->
            (a <= b < snd (CopyNode v p a))%nat.
Proof.
  revert p a. induction v as [|f l IHl r IHr]; intros p a.
  { cbn. split; [lia|]. split; [constructor|intros b []]. }
  cbn [CopyNode].
  specialize (IHl (Some a) (S a)).
  destruct (CopyNode l (Some a) (S a)) as [l' a1]. cbn [fst snd] in IHl.
  destruct IHl as (Hl1 & Hl2 & Hl3).
  destruct (is_end f).
  - cbn [fst snd]. rewrite addrs_Node. cbn [self addrs walk inorder map].
    split; [lia|]. split.
    + apply NoDup_app; [exact Hl2|repeat constructor; intros []|].
      intros b Hb [<-|[]]. specialize (Hl3 _ Hb). lia.
    + intros b Hb. apply in_app_or in Hb as [Hb|[<-|[]]];
        [specialize (Hl3 _ Hb)|]; lia.
  - specialize (IHr (Some a) a1).
    destruct (CopyNode r (Some a) a1) as [r' a2]. cbn [fst snd] in IHr |- *.
    destruct IHr as (Hr1 & Hr2 & Hr3).
    rewrite addrs_Node. cbn [self].
    split; [lia|]. split.
    + apply NoDup_app; [exact Hl2| |].
      * constructor; [|exact Hr2]. intros Hb. specialize (Hr3 _ Hb). lia.
      * intros b Hb [<-|Hb']; [specialize (Hl3 _ Hb); lia|].
        specialize (Hl3 _ Hb). specialize (Hr3 _ Hb'). lia.
    + intros b Hb. apply in_app_or in Hb as [Hb|[<-|Hb]];
        [specialize (Hl3 _ Hb)| |specialize (Hr3 _ Hb)]; lia.
Qed.

Lemma CopyNode_parents v p a : parents_ok p (fst (CopyNode v p a)).
Proof.
  revert p a. induction v as [|f l IHl r IHr]; intros p a; [exact I|].
  cbn [CopyNode].
  specialize (IHl (Some a) (S a)).
  destruct (CopyNode l (Some a) (S a)) as [l' a1]. cbn [fst] in IHl.
  destruct (is_end f).
  - cbn. auto.
  - specialize (IHr (Some a) a1).
    destruct (CopyNode r (Some a) a1) as [r' a2]. cbn [fst] in IHr |- *.
    cbn. auto.
Qed.

(** every node of a copy is built by a constructor of [node], which
    sets [height] to 1, and [CopyNode] never assigns [height] *)
Lemma CopyNode_heights v p a f' l' r' :
  has (fst (CopyNode v p a)) (Node f' l' r') -> height f' = 1.
Proof.
  revert p a. induction v as [|f l IHl r IHr]; intros p a; [intros []|].
  cbn [CopyNode].
  specialize (IHl (Some a) (S a)).
  destruct (CopyNode l (Some a) (S a)) as [cl a1]. cbn [fst] in IHl.
  destruct (is_end f).
  - cbn [fst has]. intros [E|[Hl|[]]]; [injection E as -> _ _; reflexivity|auto].
  - specialize (IHr (Some a) a1).
    destruct (CopyNode r (Some a) a1) as [cr a2]. cbn [fst] in IHr |- *.
    cbn [has]. intros [E|[Hl|Hr]]; [injection E as -> _ _; reflexivity|auto|auto].
Qed.

Lemma ordered_end_right f l r :
  ordered (walk (Node f l r)) -> is_end f = true -> r = nullptr.
Proof.
  intros Ho He. rewrite walk_Node in Ho.
  apply walk_nil. exact (ordered_end_last _ _ _ Ho He).
Qed.

Lemma t_val_tag f : t_val (tag f) = if is_end f then None else Some (key f).
Proof. reflexivity. Qed.

(** the copy has the keys of the original, in the same positions *)
Lemma CopyNode_vals v p a :
  ordered (walk v) ->
  map t_val (walk (fst (CopyNode v p a))) = map t_val (walk v).
Proof.
  revert p a. induction v as [|f l IHl r IHr]; intros p a Ho; [reflexivity|].
  pose proof Ho as Ho'. rewrite walk_Node in Ho'.
  pose proof (ordered_mid _ _ _ Ho') as (Hol & Hor & _).
  cbn [CopyNode].
  specialize (IHl (Some a) (S a) Hol).
  destruct (CopyNode l (Some a) (S a)) as [l' a1]. cbn [fst] in IHl.
  destruct (is_end f) eqn:He.
  - rewrite (ordered_end_right _ _ _ Ho He). cbn [fst].
    rewrite !walk_Node, !map_app, IHl. cbn [map]. rewrite !t_val_tag.
    cbn [is_end key]. rewrite He. reflexivity.
  - specialize (IHr (Some a) a1 Hor).
    destruct (CopyNode r (Some a) a1) as [r' a2]. cbn [fst] in IHr |- *.
    rewrite !walk_Node, !map_app, IHl. cbn [map]. rewrite IHr, !t_val_tag.
    cbn [is_end key]. rewrite He. reflexivity.
Qed.

Lemma CopyNode_depth v p a :
  ordered (walk v) -> depth (fst (CopyNode v p a)) = depth v.
Proof.
  revert p a. induction v as [|f l IHl r IHr]; intros p a Ho; [reflexivity|].
  pose proof Ho as Ho'. rewrite walk_Node in Ho'.
  pose proof (ordered_mid _ _ _ Ho') as (Hol & Hor & _).
  cbn [CopyNode].
  specialize (IHl (Some a) (S a) Hol).
  destruct (CopyNode l (Some a) (S a)) as [l' a1]. cbn [fst] in IHl.
  destruct (is_end f) eqn:He.
  - rewrite (ordered_end_right _ _ _ Ho He). cbn [fst depth]. rewrite IHl.
    reflexivity.
  - specialize (IHr (Some a) a1 Hor).
    destruct (CopyNode r (Some a) a1) as [r' a2]. cbn [fst] in IHr |- *.
    cbn [depth]. rewrite IHl, IHr. reflexivity.
Qed.

(** a search of the copy succeeds exactly when it does in the original *)
Lemma CopyNode_Find v p a k :
  ordered (walk v) ->
  (Find (fst (CopyNode v p a)) k = nullptr <-> Find v k = nullptr).
Proof.
  revert p a. induction v as [|f l IHl r IHr]; intros p a Ho; [reflexivity|].
  pose proof Ho as Ho'. rewrite walk_Node in Ho'.
  pose proof (ordered_mid _ _ _ Ho') as (Hol & Hor & Hlf & _).
  cbn [CopyNode].
  pose proof (IHl (Some a) (S a) Hol) as IHl'.
  destruct (is_end f) eqn:He.
  - destruct l as [|fl ll lr]; [cbn; rewrite He; reflexivity|].
    assert (Hfl : is_end fl = false).
    { specialize (Hlf (tag fl)). rewrite walk_Node in Hlf.
      specialize (Hlf ltac:(apply in_or_app; right; left; reflexivity)).
      unfold before in Hlf. apply andb_true_iff in Hlf as [Hlf _].
      apply negb_true_iff in Hlf. exact Hlf. }
    cbn [CopyNode]. rewrite Hfl.
    destruct (CopyNode ll _ _) as [ll' a1].
    destruct (CopyNode lr _ _) as [lr' a2].
    cbn [fst Find is_end key]. rewrite He.
    destruct (negb (less (key fl) k) && negb (less k (key fl)));
      split; intros E; try discriminate; reflexivity.
  - destruct (CopyNode l (Some a) (S a)) as [l' a1]. cbn [fst] in IHl'.
    pose proof (IHr (Some a) a1 Hor) as IHr'.
    destruct (CopyNode r (Some a) a1) as [r' a2]. cbn [fst] in IHr' |- *.
    cbn [Find is_end key]. rewrite He.
    destruct (less k (key f)); [exact IHl'|].
    destruct (less (key f) k); [exact IHr'|].
    split; discriminate.
Qed.

(** a successful search ends on a key node *)
Lemma Find_key_node v k f' l' r' :
  ordered (walk v) -> Find v k = Node f' l' r' -> is_end f' = false.
Proof.
  induction v as [|f l IHl r IHr]; [discriminate|].
  intros Ho. rewrite walk_Node in Ho.
  pose proof (ordered_mid _ _ _ Ho) as (Hol & Hor & Hlf & _).
  cbn [Find]. destruct (is_end f) eqn:He.
  - destruct l as [|fl ll lr]; [discriminate|].
    destruct (negb (less (key fl) k) && negb (less k (key fl))); [|discriminate].
    intros [= <- <- <-].
    specialize (Hlf (tag fl)). rewrite walk_Node in Hlf.
    specialize (Hlf ltac:(apply in_or_app; right; left; reflexivity)).
    unfold before in Hlf. apply andb_true_iff in Hlf as [Hlf _].
    apply negb_true_iff in Hlf. exact Hlf.
  - destruct (less k (key f)); [auto|].
    destruct (less (key f) k); [auto|].
    intros [= <- <- <-]. exact He.
Qed.

(** [find] answers [end()] exactly when the search fails *)
Lemma find_end_iff (s : Set_ T) (k : T) :
  ordered (walk (root_ s)) -> NoDup (addrs (root_ s)) ->
  (exists aS kS, end_ s = Some aS /\ In (aS, true, kS) (walk (root_ s))) ->
  (find k s = end' s <-> Find (root_ s) k = nullptr).
Proof.
  intros Ho Hnd (aS & kS & Ee & Hin). unfold find, end'.
  destruct (Find (root_ s) k) as [|f l r] eqn:E.
  - split; reflexivity.
  - split; [|discriminate]. rewrite Ee. cbn [addr_of]. intros [= Ea]. exfalso.
    destruct (Find_found _ _ _ _ _ E) as (Hh & _).
    pose proof (Find_key_node _ _ _ _ _ Ho E) as He.
    apply has_In in Hh. unfold tag in Hh. rewrite He, Ea in Hh.
    unfold addrs in Hnd.
    apply in_split in Hin as (l1 & l2 & Hw). rewrite Hw in Hh, Hnd.
    rewrite map_app in Hnd. cbn [map] in Hnd.
    apply NoDup_remove_2 in Hnd. apply Hnd.
    apply in_app_or in Hh as [Hh|[Hh|Hh]]; [| discriminate |];
      apply in_or_app; [left|right];
      apply (in_map t_addr) in Hh; exact Hh.
Qed.

(** the copy constructor applied to a set that satisfies the invariant *)
Lemma copy_spec (st : Set_ T) :
  Inv st ->
  exists c fS lS body,
    copy st = Some c /\
    root_ c = fst (CopyNode (root_ st) None (brk st)) /\
    brk c = snd (CopyNode (root_ st) None (brk st)) /\
    size_ c = size_ st /\
    has (root_ c) (Node fS lS nullptr) /\ is_end fS = true /\
    end_ c = Some (self fS) /\
    walk (root_ c) = body ++ [tag fS] /\
    (forall x, In x body -> t_end x = false) /\
    map t_key body = elements st /\
    ordered (walk (root_ c)).
Proof.
  intros I. unfold copy.
  pose proof (CopyNode_vals (root_ st) None (brk st) (inv_ord st I)) as Hv.
  destruct (CopyNode (root_ st) None (brk st)) as [r a]. cbn [fst snd] in *.
  assert (Ho : ordered (walk r)).
  { apply (ordered_vals (walk (root_ st))); [symmetry; exact Hv|apply (inv_ord st I)]. }
  destruct (Inv_sentinel st I) as (fS0 & lS0 & body0 & _ & _ & ES0 & _ & Hw0 & _ & _).
  destruct r as [|f l rr].
  { rewrite Hw0, map_app in Hv. destruct (map t_val body0); discriminate. }
  destruct (FindEnd_last f l rr) as (fm & ml & Em & Hm & pre & Hw).
  rewrite Em. cbn [bind addr_of].
  assert (Efm : is_end fm = true).
  { rewrite Hw, Hw0, !map_app in Hv. cbn [map] in Hv.
    apply app_inj_tail in Hv as [_ Hv]. rewrite !t_val_tag, ES0 in Hv.
    destruct (is_end fm); [reflexivity|discriminate]. }
  assert (Hin : In (self fm, true, key fm) (walk (Node f l rr))).
  { rewrite Hw. apply in_or_app. right. left. unfold tag. rewrite Efm. reflexivity. }
  destruct (walk_shape _ _ _ Ho Hin) as (body & Hwb & Hbody & Hk).
  assert (Etag : (self fm, true, key fm) = tag fm) by (unfold tag; rewrite Efm; reflexivity).
  rewrite Etag in Hwb.
  eexists _, fm, ml, body. cbn [root_ brk size_ end_].
  repeat (split; [first [reflexivity|eassumption]|]).
  split; [|exact Ho].
  rewrite <- Hk. unfold elements. apply keys_of_vals. exact Hv.
Qed.

(** X15.  The copy constructor applied to a reachable set returns a set
    with the same size and the same keys in the same order, in which
    [find] succeeds for exactly the keys for which it succeeds in the
    original. *)
Theorem copy_holds_the_same_keys (ops : list (op T)) :
  Z.of_nat (length ops) < max_ops ->
  exists st c,
    run ops = Some st /\ copy st = Some c /\
    size c = size st /\
    empty' c = empty' st /\
    elements c = elements st /\
    forall k, find k c = end' c <-> find k st = end' st.
Proof.
  intros Hb. destruct (run_Inv ops Hb) as (st & E & I & _).
  destruct (copy_spec st I)
    as (c & fS & lS & body & Ec & Er & Eb & Es & HS & ES & Ee & Hw & Hbody & Hk & Ho).
  exists st, c. split; [exact E|]. split; [exact Ec|].
  split; [exact Es|]. split; [unfold empty'; rewrite Es; reflexivity|].
  assert (Hel : elements c = elements st).
  { unfold elements. apply keys_of_vals. rewrite Er.
    apply CopyNode_vals. apply (inv_ord st I). }
  split; [exact Hel|]. intros k.
  assert (Hnd : NoDup (addrs (root_ c))).
  { rewrite Er. apply CopyNode_fresh. }
  assert (Hend : exists aS kS, end_ c = Some aS /\ In (aS, true, kS) (walk (root_ c))).
  { exists (self fS), (key fS). split; [exact Ee|]. rewrite Hw.
    apply in_or_app. right. left. unfold tag. rewrite ES. reflexivity. }
  rewrite (find_end_iff c k Ho Hnd Hend).
  rewrite (find_end_iff st k (inv_ord st I) (inv_nodup st I) (inv_end st I)).
  rewrite Er. apply CopyNode_Find. apply (inv_ord st I).
Qed.

(** X16.  The nodes of the copy are new: their addresses are distinct
    from one another and from those of the original, the parent link of
    every node names the node it hangs below, and [end_] names the one
    sentinel of the copy, which is its last node in order. *)
Theorem copy_is_a_deep_copy (ops : list (op T)) :
  Z.of_nat (length ops) < max_ops ->
  exists st c,
    run ops = Some st /\ copy st = Some c /\
    NoDup (addrs (root_ c)) /\
    (forall a, In a (addrs (root_ c)) ->
               ~ In a (addrs (root_ st)) /\ (a < brk c)%nat) /\
    parents_ok None (root_ c) /\
    ordered (walk (root_ c)) /\
    exists fS lS body,
      end' c = Some (self fS) /\
      deref (root_ c) (self fS) = Node fS lS nullptr /\ is_end fS = true /\
      walk (root_ c) = body ++ [tag fS] /\
      forall x, In x body -> t_end x = false.
Proof.
  intros Hb. destruct (run_Inv ops Hb) as (st & E & I & _).
  destruct (copy_spec st I)
    as (c & fS & lS & body & Ec & Er & Eb & Es & HS & ES & Ee & Hw & Hbody & Hk & Ho).
  exists st, c. split; [exact E|]. split; [exact Ec|].
  destruct (CopyNode_fresh (root_ st) None (brk st)) as (Hle & Hnd & Hin).
  rewrite <- Er in Hnd, Hin. rewrite <- Eb in Hle, Hin.
  split; [exact Hnd|]. split.
  { intros a Ha. specialize (Hin a Ha). split; [|lia].
    intros Ha'. pose proof (inv_brk st I a Ha'). lia. }
  split; [rewrite Er; apply CopyNode_parents|].
  split; [exact Ho|].
  exists fS, lS, body. split; [exact Ee|].
  split; [apply (has_deref _ _ _ _ Hnd HS)|]. auto.
Qed.

(** X17.  [CopyNode] does not copy the cached heights: every node of the
    copy has [height] 1, so the copy of a reachable set that holds a key
    does not satisfy the height equation at its root. *)
Theorem copy_resets_cached_heights (ops : list (op T)) :
  Z.of_nat (length ops) < max_ops ->
  exists st c,
    run ops = Some st /\ copy st = Some c /\
    (forall f l r, has (root_ c) (Node f l r) -> height f = 1) /\
    (size st <> 0 ->
     exists f l r,
       root_ c = Node f l r /\
       height f <> 1 + Z.max (GetHeight l) (GetHeight r)).
Proof.
  intros Hb. destruct (run_Inv ops Hb) as (st & E & I & _).
  destruct (copy_spec st I)
    as (c & fS & lS & body & Ec & Er & Eb & Es & HS & ES & Ee & Hw & Hbody & Hk & Ho).
  exists st, c. split; [exact E|]. split; [exact Ec|].
  assert (Hh : forall f l r, has (root_ c) (Node f l r) -> height f = 1).
  { rewrite Er. intros f l r. apply CopyNode_heights. }
  split; [exact Hh|]. intros Hne.
  destruct (root_ c) as [|f l r] eqn:Erc; [destruct HS|].
  exists f, l, r. split; [reflexivity|].
  rewrite (Hh f l r (has_refl _ _ _)).
  assert (Hc : l <> nullptr \/ r <> nullptr).
  { destruct l as [|fl ll lr]; [|left; discriminate].
    destruct r as [|fr rl rr]; [|right; discriminate].
    exfalso. apply Hne. unfold size. rewrite (inv_size st I), <- Hk.
    change (walk (Node f nullptr nullptr)) with [tag f] in Hw.
    destruct body as [|b [|b' body]]; [reflexivity|discriminate|discriminate]. }
  destruct Hc as [Hc|Hc].
  - destruct l as [|fl ll lr]; [congruence|].
    cbn [GetHeight].
    rewrite (Hh fl ll lr ltac:(cbn [has]; right; left; left; reflexivity)).
    destruct r as [|fr rl rr]; cbn [GetHeight]; lia.
  - destruct r as [|fr rl rr]; [congruence|].
    cbn [GetHeight].
    rewrite (Hh fr rl rr ltac:(cbn [has]; right; right; left; reflexivity)).
    destruct l as [|fl ll lr]; cbn [GetHeight]; lia.
Qed.

(** prefix increments follow the traversal of any tree with distinct
    addresses, parent links that mirror the structure and ordered keys *)
Lemma advance_walk (h : node T) (fuel : nat) :
  NoDup (addrs h) -> parents_ok None h -> ordered (walk h) ->
  (depth h <= fuel)%nat ->
  forall n i x y,
    nth_error (walk h) i = Some x ->
    nth_error (walk h) (i + n) = Some y ->
    advance fuel n h (Some (t_addr x)) = Some (Some (t_addr y)).
Proof.
  intros Hnd Hp Ho Hfuel.
  induction n as [|n IH]; intros i x y Hx Hy.
  - rewrite Nat.add_0_r, Hx in Hy. injection Hy as ->. reflexivity.
  - assert (Hlen : (i + S n < length (walk h))%nat)
      by (apply nth_error_Some; congruence).
    destruct (nth_error (walk h) (S i)) as [z|] eqn:Hz.
    2:{ apply nth_error_None in Hz. lia. }
    assert (Hex : t_end x = false).
    { pose proof (ordered_nth _ Ho i (S i) x z ltac:(lia) Hx Hz) as Hb.
      unfold before in Hb. apply andb_true_iff in Hb as [Hb _].
      apply negb_true_iff in Hb. exact Hb. }
    cbn [advance]. unfold SetTemplate_h.pre_incr.
    destruct h as [|f l r]; [destruct i; discriminate|].
    rewrite (increment_next _ Hnd _ None (has_refl f l r) Hp Ho
               i x z Hx Hz Hex fuel Hfuel).
    cbn [bind]. apply (IH (S i)); [exact Hz|].
    replace (S i + n)%nat with (i + S n)%nat by lia. exact Hy.
Qed.

(** X18.  Iterating over the copy of a reachable set with [begin()] and
    the prefix increment visits the keys of the original in increasing
    order and then reaches the copy's [end()]. *)
Theorem copy_iterates_the_same_keys (ops : list (op T)) :
  Z.of_nat (length ops) < max_ops ->
  exists st c,
    run ops = Some st /\ copy st = Some c /\
    forall fuel, (depth (root_ st) <= fuel)%nat ->
      exists b,
        begin c = Some b /\
        (forall i x,
           nth_error (elements st) i = Some x ->
           exists it, advance fuel i (root_ c) b = Some it /\
                      it <> end' c /\ star c it = Some x) /\
        advance fuel (length (elements st)) (root_ c) b = Some (end' c).
Proof.
  intros Hb. destruct (run_Inv ops Hb) as (st & E & I & _).
  destruct (copy_spec st I)
    as (c & fS & lS & body & Ec & Er & Eb & Es & HS & ES & Ee & Hw & Hbody & Hk & Ho).
  exists st, c. split; [exact E|]. split; [exact Ec|]. intros fuel Hfuel.
  assert (Hnd : NoDup (addrs (root_ c))) by (rewrite Er; apply CopyNode_fresh).
  assert (Hp : parents_ok None (root_ c)) by (rewrite Er; apply CopyNode_parents).
  assert (Hd : (depth (root_ c) <= fuel)%nat).
  { rewrite Er, CopyNode_depth; [exact Hfuel|apply (inv_ord st I)]. }
  assert (exists x0, nth_error (walk (root_ c)) 0 = Some x0 /\
                     begin c = Some (Some (t_addr x0))) as (x0 & H0 & Hbeg).
  { unfold begin. destruct (root_ c) as [|f l r]; [destruct HS|].
    destruct (GetLeftmost_first f l r) as (fm & mr & rest & Em & _ & Hwm).
    rewrite FindMin_GetLeftmost, Em, Hwm. exists (tag fm). auto. }
  exists (Some (t_addr x0)). split; [exact Hbeg|].
  pose proof (advance_walk (root_ c) fuel Hnd Hp Ho Hd) as Hadv.
  split.
  - intros i x Hx. rewrite <- Hk in Hx.
    apply nth_error_map_Some in Hx as (b & Hbi & <-).
    assert (Hlen : (i < length body)%nat) by (apply nth_error_Some; congruence).
    assert (Hbw : nth_error (walk (root_ c)) i = Some b)
      by (rewrite Hw, nth_error_app1; assumption).
    exists (Some (t_addr b)). split; [apply (Hadv i 0%nat x0 b H0 Hbw)|].
    split.
    + unfold end'. rewrite Ee. intros [= Ea].
      unfold addrs in Hnd. rewrite Hw, map_app in Hnd. cbn [map] in Hnd.
      apply NoDup_remove_2 in Hnd. apply Hnd. rewrite app_nil_r.
      change (t_addr (tag fS)) with (self fS). rewrite <- Ea.
      apply in_map. eapply nth_error_In; exact Hbi.
    + destruct (In_walk_has _ _ (nth_error_In _ _ Hbw)) as (f & l & r & Hh & <-).
      unfold star. cbn [bind]. change (t_addr (tag f)) with (self f).
      rewrite (has_deref _ _ _ _ Hnd Hh). reflexivity.
  - rewrite <- Hk, length_map.
    assert (Hlast : nth_error (walk (root_ c)) (length body) = Some (tag fS)).
    { rewrite Hw, nth_error_app2, Nat.sub_diag by lia. reflexivity. }
    rewrite (Hadv (length body) 0%nat x0 (tag fS) H0 Hlast).
    unfold end'. rewrite Ee. reflexivity.
Qed.

End Copying.

Section OverTheSentinel.
Context {T : Type} `{Key T}.

(** the unguarded walk of [operator++(int)] in [SetTemplate.h] leaves a
    sub-tree through the parent of its root when no key of the sub-tree,
    the sentinel's included, is greater than [k0] *)
Lemma climb_right_spine_unguarded (h : node T) (k0 : T) :
  NoDup (addrs h) ->
  forall (t : node T) (p : ptr),
    has h t -> parents_ok p t ->
    (forall g, In g (walk t) -> less k0 (t_key g) = false) ->
    forall fx lx, FindEnd t = Some (Node fx lx nullptr) ->
    forall n,
      climb_greater false (n + right_spine t) h (Some (self fx)) k0 =
      match p with
      | Some pa => climb_greater false n h (Some pa) k0
      | None => Some (addr_of t)
      end.
Proof.
  intros Hnd. induction t as [|f l _ r IHr]; intros p Hh Hp Hall fx lx Ex n;
    [discriminate|].
  cbn [parents_ok] in Hp. destruct Hp as (Hpf & _ & Hpr).
  assert (Hroot : forall m,
            climb_greater false (S m) h (Some (self f)) k0 =
            match p with
            | Some pa => climb_greater false m h (Some pa) k0
            | None => Some (Some (self f))
            end).
  { intros m. cbn [climb_greater bind].
    rewrite (has_deref _ _ _ _ Hnd Hh).
    pose proof (Hall (tag f)) as Hk.
    rewrite walk_Node in Hk.
    specialize (Hk ltac:(apply in_or_app; right; left; reflexivity)).
    change (t_key (tag f)) with (key f) in Hk.
    rewrite Hk. cbn [negb andb]. rewrite Hpf. reflexivity. }
  destruct r as [|fr rl rr].
  - cbn in Ex. injection Ex as <- <-.
    cbn [right_spine]. rewrite Nat.add_1_r. apply Hroot.
  - change (FindEnd (Node f l (Node fr rl rr))) with (FindEnd (Node fr rl rr)) in Ex.
    replace (n + right_spine (Node f l (Node fr rl rr)))%nat
      with (S n + right_spine (Node fr rl rr))%nat by (cbn; lia).
    rewrite (IHr (Some (self f))) with (lx := lx); try assumption.
    + apply Hroot.
    + eapply has_trans; [exact Hh|]. cbn [has]. auto.
    + intros g Hg. apply Hall. rewrite walk_Node. apply in_or_app. right. right.
      exact Hg.
Qed.

Lemma right_spine_below (v : node T) fS fx lx rx :
  FindEnd v = Some (Node fS (Node fx lx rx) nullptr) ->
  (S (right_spine v) <= depth v)%nat.
Proof.
  induction v as [|f l _ r IHr]; [discriminate|].
  destruct r as [|fr rl rr].
  - cbn [FindEnd]. intros [= -> ->]. cbn. lia.
  - change (FindEnd (Node f l (Node fr rl rr))) with (FindEnd (Node fr rl rr)).
    intros E. specialize (IHr E). cbn [right_spine depth] in IHr |- *. lia.
Qed.

(** X19.  In [SetTemplate.h] the postfix increment from a key held in
    the left child of the sentinel, when that key is not less than the
    key stored in the sentinel, walks over the sentinel and ends on the
    root of the tree, which is [end()] only when the root is the
    sentinel. *)
Theorem postfix_increment_over_sentinel (ops : list (op T)) :
  Z.of_nat (length ops) < max_ops ->
  exists s,
    run ops = Some s /\
    forall fuel aS fS fx lx rx r,
      (depth (root_ s) < fuel)%nat ->
      end' s = Some aS ->
      deref (root_ s) aS = Node fS (Node fx lx rx) r ->
      less (key fx) (key fS) = false ->
      find (key fx) s = Some (self fx) /\
      SetTemplate_h.post_incr fuel (root_ s) (Some (self fx)) =
        Some (addr_of (root_ s)) /\
      (addr_of (root_ s) = end' s <-> root_is_end s = true).
Proof.
  intros Hb. destruct (run_Inv ops Hb) as (s & E & I & _).
  exists s. split; [exact E|]. intros fuel aS fS' fx lx rx r Hfuel Ea Ed Hk.
  destruct (Inv_sentinel s I) as (fS & lS & body & EF & HS & ES & Ee & Hw & Hbody & Hel).
  unfold end' in Ea. rewrite Ee in Ea. injection Ea as <-.
  pose proof (inv_nodup s I) as Hnd.
  rewrite (has_deref _ _ _ _ Hnd HS) in Ed. injection Ed as <- -> <-.
  destruct (Inv_end_shape s I _ _ _ HS ES) as [C|(fl & C)]; [discriminate|].
  injection C as <- -> ->.
  assert (Hx : has (root_ s) (Node fx nullptr nullptr)).
  { eapply has_trans; [exact HS|]. cbn [has]. right. left. left. reflexivity. }
  destruct (has_segment _ _ HS) as (pre & post & HwS).
  change (walk (Node fS (Node fx nullptr nullptr) nullptr))
    with ([tag fx; tag fS]) in HwS. cbn [app] in HwS.
  pose proof (inv_ord s I) as Ho.
  assert (post = []) as ->.
  { rewrite HwS in Ho.
    pose proof (ordered_end_last (pre ++ [tag fx]) (tag fS) post) as C.
    rewrite <- app_assoc in C. exact (C Ho ES). }
  assert (Hbp : body = pre ++ [tag fx]).
  { rewrite Hw in HwS.
    replace (pre ++ [tag fx; tag fS]) with ((pre ++ [tag fx]) ++ [tag fS]) in HwS
      by (rewrite <- app_assoc; reflexivity).
    apply app_inj_tail in HwS as [Hbp _]. exact Hbp. }
  assert (Efx : is_end fx = false).
  { apply (Hbody (tag fx)). rewrite Hbp. apply in_or_app. right. left. reflexivity. }
  assert (Hroot : exists f l r', root_ s = Node f l r').
  { destruct (root_ s) as [|f l r']; [destruct HS|]. eauto. }
  destruct Hroot as (f & l & r' & Er).
  split; [|split].
  - apply find_at; [exact I|]. rewrite HwS. apply in_or_app. right. left.
    unfold tag. rewrite Efx. reflexivity.
  - unfold SetTemplate_h.post_incr, increment. cbn [bind].
    rewrite (has_deref _ _ _ _ Hnd Hx), Efx.
    assert (Hpx : parent fx = Some (self fS)).
    { pose proof (parents_ok_has _ _ _ _ _ (inv_par s I) HS) as Hp.
      cbn [parents_ok] in Hp. destruct Hp as (_ & (Hp & _) & _). exact Hp. }
    assert (Hsp : (S (right_spine (root_ s)) <= depth (root_ s))%nat).
    { exact (right_spine_below _ _ _ _ _ EF). }
    destruct fuel as [|fuel]; [lia|].
    cbn [climb_greater bind].
    rewrite (has_deref _ _ _ _ Hnd Hx), less_irrefl. cbn [negb andb].
    rewrite Hpx.
    replace fuel with ((fuel - right_spine (root_ s)) + right_spine (root_ s))%nat
      by lia.
    assert (Hh : has (root_ s) (root_ s)) by (rewrite Er; apply has_refl).
    rewrite (climb_right_spine_unguarded (root_ s) (key fx) Hnd (root_ s) None
               Hh (inv_par s I)) with (lx := Node fx nullptr nullptr);
      [reflexivity| |exact EF].
    intros g Hg. rewrite Hw, Hbp in Hg.
    apply in_app_or in Hg as [Hg|[<-|[]]]; [|exact Hk].
    apply in_app_or in Hg as [Hg|[<-|[]]]; [|apply less_irrefl].
    rewrite HwS in Ho. apply ordered_mid in Ho as (_ & _ & Hb' & _).
    specialize (Hb' g Hg). unfold before in Hb'.
    apply andb_true_iff in Hb' as [_ Hb'].
    change (t_end (tag fx)) with (is_end fx) in Hb'. rewrite Efx in Hb'.
    cbn in Hb'. apply less_asym. exact Hb'.
  - unfold end', root_is_end. rewrite Ee, Er. cbn [addr_of]. split.
    + intros [= Ea].
      assert (Hh : has (root_ s) (Node f l r')) by (rewrite Er; apply has_refl).
      pose proof (has_deref _ _ _ _ Hnd Hh) as D1.
      pose proof (has_deref _ _ _ _ Hnd HS) as D2.
      rewrite Ea, D2 in D1. injection D1 as <- _ _. exact ES.
    + intros Ef.
      assert (Hh : has (root_ s) (Node f l r')) by (rewrite Er; apply has_refl).
      pose proof (sentinel_unique s fS _ f l r' I HS ES Hh Ef) as Eq.
      injection Eq as -> _ _. reflexivity.
Qed.

End OverTheSentinel.

Section Rebalancing.
Context {T : Type} `{Key T}.

(** X20.  [FixBalance] applied to a node whose sub-trees satisfy the
    height and balance conditions and differ in height by at most two
    returns without dereferencing a null pointer; the tree it returns
    satisfies the conditions, has the same in-order sequence of nodes,
    has parent links that mirror its structure, and is as high as the
    higher sub-tree or one higher. *)
Theorem FixBalance_rebalances (f : fields T) (l r : node T) (p : ptr) :
  avl l -> avl r -> fits l -> fits r ->
  Z.abs (GetHeight l - GetHeight r) <= 2 ->
  parents_ok p (Node f l r) ->
  exists v',
    FixBalance (Node f l r) = Some v' /\
    avl v' /\
    walk v' = walk (Node f l r) /\
    parents_ok p v' /\
    Z.max (GetHeight l) (GetHeight r) <= GetHeight v'
      <= 1 + Z.max (GetHeight l) (GetHeight r).
Proof.
  intros Al Ar Fl Fr Hd Hp.
  destruct (FixBalance_step f l r Al Ar Fl Fr Hd) as (v' & Ev & Av & _ & Hv & _).
  exists v'. split; [exact Ev|]. split; [exact Av|].
  split; [exact (FixBalance_walk _ _ Ev)|].
  split; [exact (FixBalance_parents _ _ _ Hp Ev)|exact Hv].
Qed.

End Rebalancing.

(** * The further properties on concrete inputs

    Each theorem of the previous part is applied to [sample_ops], or to
    the sequence [sample_keys] or the node [sample_top] over
    [sample_left]. *)

Lemma insert_keeps_other_keys_witness :
  Z.of_nat (length sample_ops) < max_ops /\
  exists s s',
    run sample_ops = Some s /\ insert 6 s = Some s' /\
    end' s' = end' s /\
    (forall x, find x s' <> end' s' <-> x = 6 \/ find x s <> end' s) /\
    (forall x, find x s <> end' s -> find x s' = find x s).
Proof.
  split; [reflexivity|]. apply (insert_keeps_other_keys sample_ops 6). reflexivity.
Defined.

Lemma erase_keeps_other_keys_witness :
  Z.of_nat (length sample_ops) < max_ops /\
  exists s s',
    run sample_ops = Some s /\ erase 5 s = Some s' /\
    end' s' = end' s /\
    (forall x, find x s' <> end' s' <-> x <> 5 /\ find x s <> end' s) /\
    (forall x, x <> 5 -> find x s <> end' s -> find x s' = find x s).
Proof.
  split; [reflexivity|]. apply (erase_keeps_other_keys sample_ops 5). reflexivity.
Defined.

Lemma last_operation_decides_witness :
  Z.of_nat (length sample_ops) < max_ops /\
  exists s,
    run sample_ops = Some s /\
    forall x, find x s <> end' s <-> present_after sample_ops false x = true.
Proof.
  split; [reflexivity|]. apply (last_operation_decides sample_ops). reflexivity.
Defined.

Lemma from_range_holds_the_elements_witness :
  Z.of_nat (length sample_keys) < max_ops /\
  exists s,
    from_range sample_keys = Some s /\
    (forall x, find x s <> end' s <-> In x sample_keys) /\
    (forall x, In x (elements s) <-> In x sample_keys) /\
    NoDup (elements s) /\
    size s = Z.of_nat (length (elements s)) /\
    size s <= Z.of_nat (length sample_keys).
Proof.
  split; [reflexivity|]. apply (from_range_holds_the_elements sample_keys). reflexivity.
Defined.

Lemma find_and_dereference_witness :
  Z.of_nat (length sample_ops) < max_ops /\
  exists s,
    run sample_ops = Some s /\
    (forall k, find k s <> end' s -> star s (find k s) = Some k) /\
    (forall it k, it <> end' s -> star s it = Some k -> find k s = it).
Proof.
  split; [reflexivity|]. apply (find_and_dereference sample_ops). reflexivity.
Defined.

Lemma parent_links_mirror_structure_witness :
  Z.of_nat (length sample_ops) < max_ops /\
  exists s,
    run sample_ops = Some s /\
    (exists f l r, root_ s = Node f l r /\ parent f = None) /\
    forall f l r,
      has (root_ s) (Node f l r) ->
      deref (root_ s) (self f) = Node f l r /\
      (forall fl ll lr, l = Node fl ll lr -> parent fl = Some (self f)) /\
      (forall fr rl rr, r = Node fr rl rr -> parent fr = Some (self f)).
Proof.
  split; [reflexivity|]. apply (parent_links_mirror_structure sample_ops). reflexivity.
Defined.

Lemma height_is_logarithmic_witness :
  Z.of_nat (length sample_ops) < max_ops /\
  exists s,
    run sample_ops = Some s /\
    GetHeight (root_ s) = Z.of_nat (depth (root_ s)) /\
    2 ^ (GetHeight (root_ s) / 2) <= size s + 2 /\
    GetHeight (root_ s) < 130.
Proof.
  split; [reflexivity|]. apply (height_is_logarithmic sample_ops). reflexivity.
Defined.

Lemma empty_iff_begin_is_end_witness :
  Z.of_nat (length sample_ops) < max_ops /\
  exists s,
    run sample_ops = Some s /\
    (empty' s = true <-> elements s = []) /\
    (empty' s = true <-> begin s = Some (end' s)).
Proof.
  split; [reflexivity|]. apply (empty_iff_begin_is_end sample_ops). reflexivity.
Defined.

Lemma lower_bound_of_held_key_witness :
  Z.of_nat (length sample_ops) < max_ops /\
  exists s,
    run sample_ops = Some s /\
    forall fuel, (depth (root_ s) < fuel)%nat ->
      find 4 s <> end' s -> lower_bound fuel s 4 = Some (find 4 s).
Proof.
  split; [reflexivity|]. apply (lower_bound_of_held_key sample_ops 4). reflexivity.
Defined.

Lemma insert_erase_round_trips_witness :
  Z.of_nat (length sample_ops) < max_ops /\
  exists s,
    run sample_ops = Some s /\
    (find 6 s = end' s ->
     exists s1 s2,
       insert 6 s = Some s1 /\ erase 6 s1 = Some s2 /\
       elements s2 = elements s /\ forall x, find x s2 = find x s) /\
    (find 6 s <> end' s ->
     exists s1 s2,
       erase 6 s = Some s1 /\ insert 6 s1 = Some s2 /\
       elements s2 = elements s).
Proof.
  split; [reflexivity|]. apply (insert_erase_round_trips sample_ops 6). reflexivity.
Defined.

Lemma increment_is_successor_witness :
  Z.of_nat (length sample_ops) < max_ops /\
  exists s,
    run sample_ops = Some s /\
    forall fuel i x,
      (depth (root_ s) <= fuel)%nat ->
      nth_error (elements s) i = Some x ->
      let next := match nth_error (elements s) (S i) with
                  | Some y => find y s
                  | None => end' s
                  end in
      SetTemplate_h.pre_incr fuel (root_ s) (find x s) = Some next /\
      Part_000.pre_incr fuel (root_ s) (find x s) = Some next /\
      Part_000.post_incr fuel (root_ s) (find x s) = Some next.
Proof.
  split; [reflexivity|]. apply (increment_is_successor sample_ops). reflexivity.
Defined.

Lemma postfix_increment_where_right_witness :
  Z.of_nat (length sample_ops) < max_ops /\
  exists s,
    run sample_ops = Some s /\
    forall fuel i x,
      (depth (root_ s) <= fuel)%nat ->
      nth_error (elements s) i = Some x ->
      (forall y, nth_error (elements s) (S i) = Some y ->
                 SetTemplate_h.post_incr fuel (root_ s) (find x s) = Some (find y s)) /\
      (nth_error (elements s) (S i) = None ->
       (exists aS fS r, end' s = Some aS /\ deref (root_ s) aS = Node fS nullptr r) ->
       SetTemplate_h.post_incr fuel (root_ s) (find x s) = Some (end' s)).
Proof.
  split; [reflexivity|]. apply (postfix_increment_where_right sample_ops). reflexivity.
Defined.

Lemma decrement_is_predecessor_witness :
  Z.of_nat (length sample_ops) < max_ops /\
  exists s,
    run sample_ops = Some s /\
    forall fuel i y,
      (depth (root_ s) <= fuel)%nat ->
      nth_error (elements s) i = Some y ->
      let here := match nth_error (elements s) (S i) with
                  | Some x => find x s
                  | None => end' s
                  end in
      SetTemplate_h.pre_decr fuel (root_ s) here = Some (find y s) /\
      SetTemplate_h.post_decr fuel (root_ s) here = Some (find y s) /\
      Part_000.pre_decr fuel (root_ s) here = Some (find y s) /\
      Part_000.post_decr fuel (root_ s) here = Some (find y s).
Proof.
  split; [reflexivity|]. apply (decrement_is_predecessor sample_ops). reflexivity.
Defined.

Lemma increment_decrement_round_trip_witness :
  Z.of_nat (length sample_ops) < max_ops /\
  exists s,
    run sample_ops = Some s /\
    forall fuel,
      (depth (root_ s) <= fuel)%nat ->
      (forall x, In x (elements s) ->
         (it <- SetTemplate_h.pre_incr fuel (root_ s) (find x s) ;;
          SetTemplate_h.pre_decr fuel (root_ s) it) = Some (find x s) /\
         (it <- Part_000.pre_incr fuel (root_ s) (find x s) ;;
          Part_000.pre_decr fuel (root_ s) it) = Some (find x s)) /\
      (forall it,
         it = end' s \/ (exists x, In x (elements s) /\ it = find x s) ->
         Some it <> begin s ->
         (it' <- SetTemplate_h.pre_decr fuel (root_ s) it ;;
          SetTemplate_h.pre_incr fuel (root_ s) it') = Some it /\
         (it' <- Part_000.pre_decr fuel (root_ s) it ;;
          Part_000.pre_incr fuel (root_ s) it') = Some it).
Proof.
  split; [reflexivity|]. apply (increment_decrement_round_trip sample_ops). reflexivity.
Defined.

Lemma copy_holds_the_same_keys_witness :
  Z.of_nat (length sample_ops) < max_ops /\
  exists st c,
    run sample_ops = Some st /\ copy st = Some c /\
    size c = size st /\
    empty' c = empty' st /\
    elements c = elements st /\
    forall k, find k c = end' c <-> find k st = end' st.
Proof.
  split; [reflexivity|]. apply (copy_holds_the_same_keys sample_ops). reflexivity.
Defined.

Lemma copy_is_a_deep_copy_witness :
  Z.of_nat (length sample_ops) < max_ops /\
  exists st c,
    run sample_ops = Some st /\ copy st = Some c /\
    NoDup (addrs (root_ c)) /\
    (forall a, In a (addrs (root_ c)) ->
               ~ In a (addrs (root_ st)) /\ (a < brk c)%nat) /\
    parents_ok None (root_ c) /\
    ordered (walk (root_ c)) /\
    exists fS lS body,
      end' c = Some (self fS) /\
      deref (root_ c) (self fS) = Node fS lS nullptr /\ is_end fS = true /\
      walk (root_ c) = body ++ [tag fS] /\
      forall x, In x body -> t_end x = false.
Proof.
  split; [reflexivity|]. apply (copy_is_a_deep_copy sample_ops). reflexivity.
Defined.

Lemma copy_resets_cached_heights_witness :
  Z.of_nat (length sample_ops) < max_ops /\
  exists st c,
    run sample_ops = Some st /\ copy st = Some c /\
    (forall f l r, has (root_ c) (Node f l r) -> height f = 1) /\
    (size st <> 0 ->
     exists f l r,
       root_ c = Node f l r /\
       height f <> 1 + Z.max (GetHeight l) (GetHeight r)).
Proof.
  split; [reflexivity|]. apply (copy_resets_cached_heights sample_ops). reflexivity.
Defined.

Lemma copy_iterates_the_same_keys_witness :
  Z.of_nat (length sample_ops) < max_ops /\
  exists st c,
    run sample_ops = Some st /\ copy st = Some c /\
    forall fuel, (depth (root_ st) <= fuel)%nat ->
      exists b,
        begin c = Some b /\
        (forall i x,
           nth_error (elements st) i = Some x ->
           exists it, advance fuel i (root_ c) b = Some it /\
                      it <> end' c /\ star c it = Some x) /\
        advance fuel (length (elements st)) (root_ c) b = Some (end' c).
Proof.
  split; [reflexivity|]. apply (copy_iterates_the_same_keys sample_ops). reflexivity.
Defined.

Lemma postfix_increment_over_sentinel_witness :
  Z.of_nat (length sample_ops) < max_ops /\
  exists s,
    run sample_ops = Some s /\
    forall fuel aS fS fx lx rx r,
      (depth (root_ s) < fuel)%nat ->
      end' s = Some aS ->
      deref (root_ s) aS = Node fS (Node fx lx rx) r ->
      less (key fx) (key fS) = false ->
      find (key fx) s = Some (self fx) /\
      SetTemplate_h.post_incr fuel (root_ s) (Some (self fx)) =
        Some (addr_of (root_ s)) /\
      (addr_of (root_ s) = end' s <-> root_is_end s = true).
Proof.
  split; [reflexivity|]. apply (postfix_increment_over_sentinel sample_ops). reflexivity.
Defined.

Lemma FixBalance_rebalances_witness :
  exists v',
    FixBalance (Node sample_top sample_left nullptr) = Some v' /\
    avl v' /\
    walk v' = walk (Node sample_top sample_left nullptr) /\
    parents_ok None v' /\
    Z.max (GetHeight sample_left) (GetHeight (@nullptr Z)) <= GetHeight v'
      <= 1 + Z.max (GetHeight sample_left) (GetHeight (@nullptr Z)).
Proof.
  apply (FixBalance_rebalances sample_top sample_left nullptr None).
  - simpl. lia.
  - simpl. exact I.
  - reflexivity.
  - reflexivity.
  - simpl. lia.
  - simpl. repeat split.
Defined.
